(** * ProjectRTC: the WebRTC manager and its chunked file transfer

    A shallow embedding of [frontend/src/WebRTCManager.js] and of the
    handlers that [frontend/src/App.js] assigns to it.

    The manager is a JavaScript object holding two [Map]s keyed by peer
    id (strings), a signaling socket and nullable callback fields.  Its methods are
    embedded as functions on an explicit [World]: the manager's fields, a
    counter naming the platform objects it creates, and the trace of
    every call the manager makes on its collaborators (data channels,
    peer connections, the signaling socket, the console, the application
    callbacks).  [async] methods run in a small state and exception monad
    in which every [await] hands control to the event loop: the events
    delivered during the suspension and the way the awaited promise
    settles are read from a schedule.

    What the embedding leaves to the platform:
    - a platform object ([RTCPeerConnection], [RTCDataChannel]) is its
      identity and the one attribute the manager reads; the calls made on
      it are recorded in the trace, and what the platform answers to a
      call that returns a promise is given by the schedule;
    - [JSON.stringify] is symbolic: the text is the value it serialises;
    - an open channel accepts the text it is given, and a [FileReader]
      reads the slice it is given;
    - numbers are the integers of the transfer protocol (sizes, counts,
      indices), below [2^53], where every integer is a Number and
      [JSON] reads a number back as it was written; the one fraction,
      the progress percentage, is computed in double precision;
    - the events of a suspension are those of the platform; a second
      [async] method of the manager running meanwhile is not interleaved. *)

From Stdlib Require Import ZArith QArith Qround Qpower String Ascii List Lia Lqa.
From Stdlib.Strings Require Import Byte.
From Stdlib.Floats Require PrimFloat SpecFloat FloatOps.
From Stdlib Require Uint63.
From stdpp Require Import base option strings list pretty.

Local Open Scope string_scope.
Local Open Scope list_scope.
Local Open Scope Z_scope.

(** ** JavaScript values *)

(** The values that travel through the manager: what [JSON.parse] can
    return, plus [undefined] for absent properties.  The numbers of the
    transfer protocol (sizes, counts, indices) are integers below [2^53]:
    [JNum n] is the Number [n]. *)
Local Unset Elimination Schemes.
Inductive JSValue : Type :=
| JUndefined
| JNull
| JBool (b : bool)
| JNum (n : Z)
| JStr (s : string)
| JArr (items : list JSValue)
| JObj (fields : list (string * JSValue)).
Local Set Elimination Schemes.

Inductive Exception : Type :=
| Error (message : string)          (* [new Error(message)] *)
| TypeError (property : string)     (* reading a property of null or undefined *)
| TypeError_primitive               (* converting an object to a primitive value *)
| SyntaxError                       (* [JSON.parse] on text that is not JSON *)
| DOMException (name : string).     (* a rejection reported by the platform *)

(** Completion of a piece of JavaScript: a value, or a thrown exception. *)
Inductive Completion (A : Type) : Type :=
| Normal (a : A)
| Throw (e : Exception).
Arguments Normal {A} a.
Arguments Throw {A} e.

Fixpoint assoc (k : string) (fields : list (string * JSValue)) : option JSValue :=
  match fields with
  | [] => None
  | (k', v) :: rest => if String.eqb k k' then Some v else assoc k rest
  end.

(** [v.k]: throws on [null] and [undefined], is [undefined] when the
    property is absent.  None of the property names read by this program
    exists on a primitive or on an array. *)
Definition get (v : JSValue) (k : string) : Completion JSValue :=
  match v with
  | JUndefined | JNull => Throw (TypeError k)
  | JObj fields => Normal (default JUndefined (assoc k fields))
  | _ => Normal JUndefined
  end.

(** [v === 'literal'] *)
Definition strict_eq_str (v : JSValue) (literal : string) : bool :=
  match v with
  | JStr s => String.eqb s literal
  | _ => false
  end.

(** [Boolean(v)], the test of [if (v)]. *)
Definition truthy (v : JSValue) : bool :=
  match v with
  | JUndefined | JNull => false
  | JBool b => b
  | JNum n => negb (n =? 0)
  | JStr s => negb (String.eqb s "")
  | JArr _ | JObj _ => true
  end.

(** [ToPrimitive(v)], which a template literal and the operator [+]
    apply to what they are given, throws a [TypeError] when it finds no
    method that returns a primitive.  A value read from JSON has no
    function among its properties.  An object that has a property
    [toString] of its own hides [Object.prototype.toString], and
    [Object.prototype.valueOf] returns the object itself: the conversion
    throws.  Without such a property it gives "[object Object]".  An
    array is joined from the conversions of its elements, [null] and
    [undefined] counting as empty. *)
Fixpoint ToPrimitive_throws (v : JSValue) : bool :=
  match v with
  | JObj fields =>
      match assoc "toString" fields with
      | Some _ => true
      | None => false
      end
  | JArr items =>
      existsb (fun item => match item with
                           | JUndefined | JNull => false
                           | _ => ToPrimitive_throws item
                           end) items
  | _ => false
  end.

(** Text on a wire.  The manager never inspects the text it produces with
    [JSON.stringify]; it is kept symbolic, as the value it serialises.
    Inbound text is either text that [JSON.parse] rejects or JSON text,
    which stands here as the serialisation of the value it parses to. *)
Inductive Text : Type :=
| JSON_stringify (v : JSValue)
| Malformed (raw : string).

(** What [JSON.parse] reads back from [JSON.stringify(v)]: a property
    whose value is [undefined] is not written, and an element of an array
    that is [undefined] is written as [null].  An object has no two
    properties of the same name: in a list of fields that repeats a name
    the first field is the property ([assoc]) and the others are void, so
    they are not written. *)
Fixpoint JSON_value (v : JSValue) : JSValue :=
  match v with
  | JArr items =>
      JArr (map (fun item => match item with
                             | JUndefined => JNull
                             | _ => JSON_value item
                             end) items)
  | JObj fields =>
      JObj ((fix properties (seen : list string) (fields : list (string * JSValue)) :=
               match fields with
               | [] => []
               | (k, x) :: rest =>
                   if existsb (String.eqb k) seen then properties seen rest
                   else match x with
                        | JUndefined => properties (k :: seen) rest
                        | _ => (k, JSON_value x) :: properties (k :: seen) rest
                        end
               end) [] fields)
  | _ => v
  end.

(** [JSON.parse(text)].  [JSON.stringify(undefined)] is [undefined], which
    is no JSON text. *)
Definition JSON_parse (t : Text) : Completion JSValue :=
  match t with
  | JSON_stringify JUndefined => Throw SyntaxError
  | JSON_stringify v => Normal (JSON_value v)
  | Malformed _ => Throw SyntaxError
  end.

(** ** Platform objects *)

Abbreviation PeerId := string.
Abbreviation ObjId := nat.

Inductive RTCDataChannelState := ch_connecting | ch_open | ch_closing | ch_closed.
Inductive RTCPeerConnectionState :=
  pc_new | pc_connecting | pc_connected | pc_disconnected | pc_failed | pc_closed.

Global Instance RTCDataChannelState_eq_dec : EqDecision RTCDataChannelState.
Proof. solve_decision. Defined.
Global Instance RTCPeerConnectionState_eq_dec : EqDecision RTCPeerConnectionState.
Proof. solve_decision. Defined.

(** A platform object is known to the manager by its identity and by the
    one attribute the manager reads from it. *)
Record RTCDataChannel := { ch_id : ObjId; readyState : RTCDataChannelState }.
Record RTCPeerConnection := { pc_id : ObjId; connectionState : RTCPeerConnectionState }.

(** ** Maps

    A [Map] keyed by peer ids is the list of its entries in the order of
    insertion, which is the order of iteration.  [set] on a key that is
    present replaces the value where the entry stands; on a new key it
    adds the entry at the end. *)
Record JSMap (V : Type) := { entries : list (PeerId * V) }.
Arguments entries {V} _.
Arguments Build_JSMap {V} _.

Fixpoint entries_get {V} (key : PeerId) (l : list (PeerId * V)) : option V :=
  match l with
  | [] => None
  | (k, v) :: rest => if String.eqb key k then Some v else entries_get key rest
  end.

Fixpoint entries_set {V} (key : PeerId) (value : V) (l : list (PeerId * V))
  : list (PeerId * V) :=
  match l with
  | [] => [(key, value)]
  | (k, v) :: rest =>
      if String.eqb key k then (k, value) :: rest else (k, v) :: entries_set key value rest
  end.

Definition entries_delete {V} (key : PeerId) (l : list (PeerId * V)) : list (PeerId * V) :=
  List.filter (fun entry => negb (String.eqb key entry.1)) l.

Global Instance JSMap_empty {V} : Empty (JSMap V) := {| entries := [] |}.

Global Instance JSMap_lookup {V} : Lookup PeerId V (JSMap V) :=
  fun key m => entries_get key (entries m).

Global Instance JSMap_insert {V} : Insert PeerId V (JSMap V) :=
  fun key value m => {| entries := entries_set key value (entries m) |}.

Global Instance JSMap_delete {V} : Delete PeerId (JSMap V) :=
  fun key m => {| entries := entries_delete key (entries m) |}.

Global Instance JSMap_singleton {V} : SingletonM PeerId V (JSMap V) :=
  fun key value => {| entries := [(key, value)] |}.

Global Instance JSMap_fmap : FMap JSMap :=
  fun A B f m => {| entries := (fun entry => (entry.1, f entry.2)) <$> entries m |}.

(** The keys, as [for (const [key] of m)] meets them. *)
Definition keys {V} (m : JSMap V) : list PeerId := fst <$> entries m.

(** The argument of [onTransferProgress]. *)
Record ProgressInfo := { info_peerId : PeerId; info_fileName : string; info_progress : Q }.

(** An argument of [console.log] / [console.error].  A template literal
    is kept as its parts: text, [${v}] and [${v + n}]. *)
Inductive TemplatePart := Lit (s : string) | Subst (v : JSValue) | SubstPlus (v : JSValue) (n : Z).
Inductive LogArg :=
| Str (s : string)
| Template (parts : list TemplatePart)
| Val (v : JSValue)
| Exn (e : Exception).

(** Evaluating the template converts every substituted value to a
    primitive ([v + n] converts [v] before it adds or concatenates). *)
Definition template_throws (parts : list TemplatePart) : bool :=
  existsb (fun part => match part with
                       | Lit _ => false
                       | Subst v | SubstPlus v _ => ToPrimitive_throws v
                       end) parts.

(** Calls the manager makes on its collaborators, in program order. *)
Inductive Effect : Type :=
| new_RTCPeerConnection (pc : ObjId)
| pc_createDataChannel (pc ch : ObjId) (label : string)
| pc_createOffer (pc : ObjId)
| pc_createAnswer (pc : ObjId)
| pc_setLocalDescription (pc : ObjId) (description : JSValue)
| pc_setRemoteDescription (pc : ObjId) (description : JSValue)
| pc_addIceCandidate (pc : ObjId) (candidate : JSValue)
| pc_close (pc : ObjId)
| channel_send (ch : ObjId) (text : Text)
| channel_close (ch : ObjId)
| socket_send (text : Text)
| socket_close
| console_log (args : list LogArg)
| console_error (args : list LogArg)
| call_onPeerConnected (peerId : PeerId)
| call_onPeerDisconnected (peerId : PeerId)
| call_onDataReceived (peerId : PeerId) (data : JSValue)
| call_onTransferProgress (info : ProgressInfo)
| call_onPeerListUpdate (clients : JSValue).

(** ** The manager *)

(** The fields of [WebRTCManager] that its methods read or write.  A
    callback field is [true] when the application has assigned a function
    to it.  [signalingSocket] is [true] when it holds a socket. *)
Record WebRTCManager := {
  peerConnections : JSMap RTCPeerConnection;
  dataChannels : JSMap RTCDataChannel;
  signalingSocket : bool;
  isConnected : bool;
  onPeerConnected : bool;
  onPeerDisconnected : bool;
  onDataReceived : bool;
  onTransferProgress : bool;
  onPeerListUpdate : bool
}.

Record World := {
  this : WebRTCManager;
  nextObj : ObjId;
  trace : list Effect
}.

(** The state the constructor leaves. *)
Definition constructor : WebRTCManager :=
  {| peerConnections := ∅; dataChannels := ∅;
     signalingSocket := false; isConnected := false;
     onPeerConnected := false; onPeerDisconnected := false;
     onDataReceived := false; onTransferProgress := false;
     onPeerListUpdate := false |}.

Definition emit (e : Effect) (w : World) : World :=
  {| this := this w; nextObj := nextObj w; trace := trace w ++ [e] |}.

Definition with_this (f : WebRTCManager -> WebRTCManager) (w : World) : World :=
  {| this := f (this w); nextObj := nextObj w; trace := trace w |}.

Definition set_peerConnections (m : JSMap RTCPeerConnection) (t : WebRTCManager) :=
  {| peerConnections := m; dataChannels := dataChannels t;
     signalingSocket := signalingSocket t; isConnected := isConnected t;
     onPeerConnected := onPeerConnected t; onPeerDisconnected := onPeerDisconnected t;
     onDataReceived := onDataReceived t; onTransferProgress := onTransferProgress t;
     onPeerListUpdate := onPeerListUpdate t |}.

Definition set_dataChannels (m : JSMap RTCDataChannel) (t : WebRTCManager) :=
  {| peerConnections := peerConnections t; dataChannels := m;
     signalingSocket := signalingSocket t; isConnected := isConnected t;
     onPeerConnected := onPeerConnected t; onPeerDisconnected := onPeerDisconnected t;
     onDataReceived := onDataReceived t; onTransferProgress := onTransferProgress t;
     onPeerListUpdate := onPeerListUpdate t |}.

Definition set_signaling (socket connected : bool) (t : WebRTCManager) :=
  {| peerConnections := peerConnections t; dataChannels := dataChannels t;
     signalingSocket := socket; isConnected := connected;
     onPeerConnected := onPeerConnected t; onPeerDisconnected := onPeerDisconnected t;
     onDataReceived := onDataReceived t; onTransferProgress := onTransferProgress t;
     onPeerListUpdate := onPeerListUpdate t |}.

(** [sendSignalingMessage(message)] *)
Definition sendSignalingMessage (message : JSValue) (w : World) : World :=
  if signalingSocket (this w) && isConnected (this w)
  then emit (socket_send (JSON_stringify message)) w
  else w.

(** [sendDataToPeer(peerId, data)] *)
Definition sendDataToPeer (peerId : PeerId) (data : JSValue) (w : World) : bool * World :=
  match dataChannels (this w) !! peerId with
  | Some channel =>
      if decide (readyState channel = ch_open)
      then (true, emit (channel_send (ch_id channel) (JSON_stringify data)) w)
      else (false, w)
  | None => (false, w)
  end.

(** [cleanupPeerConnection(peerId)] *)
Definition cleanupPeerConnection (peerId : PeerId) (w : World) : World :=
  let w1 :=
    match peerConnections (this w) !! peerId with
    | Some peerConnection =>
        with_this (fun t => set_peerConnections (delete peerId (peerConnections t)) t)
                  (emit (pc_close (pc_id peerConnection)) w)
    | None => w
    end in
  match dataChannels (this w1) !! peerId with
  | Some dataChannel =>
      with_this (fun t => set_dataChannels (delete peerId (dataChannels t)) t)
                (emit (channel_close (ch_id dataChannel)) w1)
  | None => w1
  end.

(** ** The event loop *)

(** What the platform delivers while an [async] method is suspended.
    Every handler below is the closure the manager installed on the
    object: it carries the [peerId] it was created for. *)
Inductive Event : Type :=
| ev_connectionstatechange (pc : ObjId) (peerId : PeerId) (state : RTCPeerConnectionState)
| ev_icecandidate (peerId : PeerId) (candidate : JSValue)
| ev_datachannel (peerId : PeerId) (state : RTCDataChannelState)
| ev_readyState (ch : ObjId) (peerId : PeerId) (state : RTCDataChannelState)
| ev_message (peerId : PeerId) (data : Text)
| ev_channel_error (peerId : PeerId) (error : Exception)
| ev_socket_close.

(** How an awaited promise settles. *)
Inductive Outcome : Type :=
| Fulfilled (value : JSValue)
| Rejected (reason : Exception).

(** One suspension: the events handled before the method resumes, and
    the outcome of the promise it awaits. *)
Record Tick := { during : list Event; settles : Outcome }.

Definition quiet : Tick := {| during := []; settles := Fulfilled JUndefined |}.

Definition next_tick (s : list Tick) : Tick * list Tick :=
  match s with
  | [] => (quiet, [])
  | t :: rest => (t, rest)
  end.

(** ** Application handlers (App.js, [initWebRTC]) *)

(** The handlers update React state, which lies outside the manager, and
    write to the console. *)
Definition App_onPeerConnected (peerId : PeerId) (w : World) : World :=
  emit (console_log [Str ("P2P connection established with " +:+ peerId)]) w.

Definition App_onPeerDisconnected (peerId : PeerId) (w : World) : World :=
  emit (console_log [Str ("P2P connection lost with " +:+ peerId)]) w.

Definition App_onTransferProgress (progressInfo : ProgressInfo) (w : World) : World := w.

(** [console.log(`...`)]: the template is evaluated first, and nothing
    is logged when that throws. *)
Definition console_log_template (parts : list TemplatePart) (w : World)
  : Completion unit * World :=
  if template_throws parts then (Throw TypeError_primitive, w)
  else (Normal tt, emit (console_log [Template parts]) w).

Definition App_onDataReceived (peerId : PeerId) (data : JSValue) (w : World)
  : Completion unit * World :=
  let w := emit (console_log [Str ("Received data from " +:+ peerId +:+ ":"); Val data]) w in
  match get data "type" with
  | Throw e => (Throw e, w)
  | Normal type =>
      let field k := match get data k with Normal v => v | Throw _ => JUndefined end in
      if strict_eq_str type "file_metadata" then
        console_log_template [Lit "Receiving file: "; Subst (field "name");
                              Lit " ("; Subst (field "size"); Lit " bytes)"] w
      else if strict_eq_str type "file_chunk" then
        console_log_template [Lit "Received chunk "; SubstPlus (field "chunk_index") 1;
                              Lit "/"; Subst (field "total_chunks")] w
      else if strict_eq_str type "transfer_complete" then
        console_log_template [Lit "File transfer completed: "; Subst (field "fileName")] w
      else (Normal tt, w)
  end.

(** [initWebRTC] assigns these four handlers before it initialises the
    manager. *)
Definition App_initWebRTC (t : WebRTCManager) : WebRTCManager :=
  {| peerConnections := peerConnections t; dataChannels := dataChannels t;
     signalingSocket := signalingSocket t; isConnected := isConnected t;
     onPeerConnected := true; onPeerDisconnected := true;
     onDataReceived := true; onTransferProgress := true;
     onPeerListUpdate := onPeerListUpdate t |}.

(** ** Synchronous handlers of the manager *)

Definition connectionState_name (state : RTCPeerConnectionState) : string :=
  match state with
  | pc_new => "new" | pc_connecting => "connecting" | pc_connected => "connected"
  | pc_disconnected => "disconnected" | pc_failed => "failed" | pc_closed => "closed"
  end.

(** [peerConnection.onconnectionstatechange], for the connection created
    for [peerId], when [peerConnection.connectionState] reads [state]. *)
Definition onconnectionstatechange (peerId : PeerId) (state : RTCPeerConnectionState)
    (w : World) : World :=
  let w := emit (console_log [Str ("Peer connection state: " +:+ connectionState_name state)]) w in
  if decide (state = pc_connected) then
    if onPeerConnected (this w)
    then App_onPeerConnected peerId (emit (call_onPeerConnected peerId) w)
    else w
  else if decide (state = pc_disconnected ∨ state = pc_failed) then
    let w :=
      if onPeerDisconnected (this w)
      then App_onPeerDisconnected peerId (emit (call_onPeerDisconnected peerId) w)
      else w in
    cleanupPeerConnection peerId w
  else w.

(** [peerConnection.onicecandidate] *)
Definition onicecandidate (peerId : PeerId) (candidate : JSValue) (w : World) : World :=
  if truthy candidate
  then sendSignalingMessage
         (JObj [("type", JStr "ice_candidate"); ("to_client", JStr peerId);
                ("data", candidate)]) w
  else w.

(** [channel.onmessage] as installed by [setupDataChannel] *)
Definition channel_onmessage (peerId : PeerId) (event_data : Text) (w : World) : World :=
  let caught error w :=
    emit (console_error [Str "Error parsing data channel message:"; Exn error]) w in
  match JSON_parse event_data with
  | Throw error => caught error w
  | Normal data =>
      if onDataReceived (this w) then
        match App_onDataReceived peerId data (emit (call_onDataReceived peerId data) w) with
        | (Normal _, w') => w'
        | (Throw error, w') => caught error w'
        end
      else w
  end.

(** [setupDataChannel(channel, peerId)]: the four handlers are the
    closures dispatched by [handle] below. *)
Definition setupDataChannel (channel : RTCDataChannel) (peerId : PeerId) (w : World) : World :=
  with_this (fun t => set_dataChannels (<[peerId := channel]> (dataChannels t)) t) w.

(** The platform updates the attribute of a registered object. *)
Definition platform_connectionState (pc : ObjId) (state : RTCPeerConnectionState)
    (w : World) : World :=
  with_this (fun t => set_peerConnections
    ((fun c => if decide (pc_id c = pc)
               then {| pc_id := pc; connectionState := state |} else c)
       <$> peerConnections t) t) w.

Definition platform_readyState (ch : ObjId) (state : RTCDataChannelState)
    (w : World) : World :=
  with_this (fun t => set_dataChannels
    ((fun c => if decide (ch_id c = ch)
               then {| ch_id := ch; readyState := state |} else c)
       <$> dataChannels t) t) w.

Definition fresh (w : World) : ObjId * World :=
  (nextObj w, {| this := this w; nextObj := S (nextObj w); trace := trace w |}).

(** One event: the platform's change of state, then the handler. *)
Definition handle (e : Event) (w : World) : World :=
  match e with
  | ev_connectionstatechange pc peerId state =>
      onconnectionstatechange peerId state (platform_connectionState pc state w)
  | ev_icecandidate peerId candidate => onicecandidate peerId candidate w
  | ev_datachannel peerId state =>
      let (ch, w) := fresh w in
      setupDataChannel {| ch_id := ch; readyState := state |} peerId w
  | ev_readyState ch peerId state =>
      let w := platform_readyState ch state w in
      match state with
      | ch_open => emit (console_log [Str ("Data channel opened with " +:+ peerId)]) w
      | ch_closed => emit (console_log [Str ("Data channel closed with " +:+ peerId)]) w
      | _ => w
      end
  | ev_message peerId data => channel_onmessage peerId data w
  | ev_channel_error peerId error =>
      emit (console_error [Str ("Data channel error with " +:+ peerId +:+ ":"); Exn error]) w
  | ev_socket_close =>
      with_this (fun t => set_signaling (signalingSocket t) false t)
                (emit (console_log [Str "Signaling connection closed"]) w)
  end.

Definition run_events (events : list Event) (w : World) : World :=
  foldl (fun w e => handle e w) w events.

(** ** Asynchronous methods *)

(** An [async] method transforms the world and consumes the schedule; it
    completes normally or with a thrown exception (a rejected promise). *)
Definition Async (A : Type) : Type :=
  World -> list Tick -> Completion A * World * list Tick.

Global Instance Async_ret : MRet Async := fun A a w s => (Normal a, w, s).

Global Instance Async_bind : MBind Async := fun A B k m w s =>
  match m w s with
  | (Normal a, w', s') => k a w' s'
  | (Throw e, w', s') => (Throw e, w', s')
  end.

Definition throw {A} (e : Exception) : Async A := fun w s => (Throw e, w, s).

Definition try_catch {A} (body : Async A) (handler : Exception -> Async A) : Async A :=
  fun w s =>
    match body w s with
    | (Normal a, w', s') => (Normal a, w', s')
    | (Throw e, w', s') => handler e w' s'
    end.

Definition sync {A} (f : World -> A * World) : Async A :=
  fun w s => let (a, w') := f w in (Normal a, w', s).

Definition perform (f : World -> World) : Async unit :=
  fun w s => (Normal tt, f w, s).

Definition gets {A} (f : World -> A) : Async A :=
  fun w s => (Normal (f w), w, s).

(** [await] of a promise that cannot reject (an [async] call that has
    returned, a timer, a [FileReader] load): the method resumes after the
    events of the tick. *)
Definition await_resumed : Async unit := fun w s =>
  let (t, s') := next_tick s in (Normal tt, run_events (during t) w, s').

(** [await] of a promise of the platform: it resumes with the value, or
    throws the reason of the rejection. *)
Definition await_platform : Async JSValue := fun w s =>
  let (t, s') := next_tick s in
  match settles t with
  | Fulfilled v => (Normal v, run_events (during t) w, s')
  | Rejected e => (Throw e, run_events (during t) w, s')
  end.

(** A call on a peer connection that returns a promise. *)
Definition pc_call (call : Effect) : Async JSValue :=
  perform (emit call) ;; await_platform.

(** [for (let i = first; i < first + count; i++) body] *)
Fixpoint for_range (i : Z) (count : nat) (body : Z -> Async unit) : Async unit :=
  match count with
  | O => mret tt
  | S k => body i ;; for_range (i + 1) k body
  end.

(** *** Files *)

Module File.
(** A [File] (a [Blob] with a name): the transfer reads [name], [size]
    and [slice]. *)
Record t := { name : string; content : list byte }.

Definition size (f : t) : Z := Z.of_nat (length (content f)).

(** [Blob.slice(start, end)], with the clamping of the File API. *)
Definition slice (f : t) (start end_ : Z) : list byte :=
  let relativeStart :=
    if start <? 0 then Z.max (size f + start) 0 else Z.min start (size f) in
  let relativeEnd :=
    if end_ <? 0 then Z.max (size f + end_) 0 else Z.min end_ (size f) in
  let span := Z.max (relativeEnd - relativeStart) 0 in
  take (Z.to_nat span) (drop (Z.to_nat relativeStart) (content f)).
End File.

(** *** Base64, as [FileReader.readAsDataURL] writes it after the comma *)

Definition base64_alphabet : string :=
  "ABCDEFGHIJKLMNOPQRSTUVWXYZabcdefghijklmnopqrstuvwxyz0123456789+/".

Definition base64_digit (n : N) : ascii :=
  default "="%char (String.get (N.to_nat n) base64_alphabet).

Fixpoint base64 (bytes : list byte) : string :=
  match bytes with
  | [] => ""
  | [a] =>
      let a := Byte.to_N a in
      String (base64_digit (a / 4)) (String (base64_digit (a mod 4 * 16)) "==")
  | [a; b] =>
      let a := Byte.to_N a in let b := Byte.to_N b in
      String (base64_digit (a / 4))
        (String (base64_digit (a mod 4 * 16 + b / 16))
           (String (base64_digit (b mod 16 * 4)) "="))
  | a :: b :: c :: rest =>
      let a := Byte.to_N a in let b := Byte.to_N b in let c := Byte.to_N c in
      String (base64_digit (a / 4))
        (String (base64_digit (a mod 4 * 16 + b / 16))
           (String (base64_digit (b mod 16 * 4 + c / 64))
              (String (base64_digit (c mod 64)) (base64 rest))))
  end%N.

(** [Math.ceil(x)].  The quotient of a file size by the chunk size (a
    power of two) is exact in double precision. *)
Definition Math_ceil (x : Q) : Z := Qceiling x.

(** *** Double precision

    A Number is a double; it is kept as the rational it is.  The result
    of an operation is the exact result rounded to the nearest double,
    to the one with an even significand when two are as near.  The
    exponent is not bounded here: the quotients and products of this
    program lie far inside the range of the normal doubles.  Their
    operands are counts of chunks, integers below [2^53], which are
    doubles as they stand. *)
Definition round_half_even (x : Q) : Z :=
  let f := Qfloor x in
  match (x - inject_Z f ?= 1 # 2)%Q with
  | Lt => f
  | Gt => f + 1
  | Eq => if Z.even f then f else f + 1
  end.

(** The [e] with [2^e <= x < 2^(e+1)], for [0 < x]. *)
Definition binade (x : Q) : Z :=
  let e := Z.log2 (Qnum x) - Z.log2 (Zpos (Qden x)) in
  if Qle_bool (2 ^ e) x then e else e - 1.

(** The nearest number with a significand of 53 bits, for [0 < x]. *)
Definition nearest_double (x : Q) : Q :=
  let e := binade x in
  (inject_Z (round_half_even (x * 2 ^ (52 - e))) * 2 ^ (e - 52))%Q.

Definition to_double (x : Q) : Q :=
  let x := Qred x in
  match Qnum x with
  | Z0 => 0%Q
  | Zpos _ => Qred (nearest_double x)
  | Zneg _ => Qred (- nearest_double (- x))
  end.

(** [a / b], for [b] other than zero, and [a * b]. *)
Definition Number_div (a b : Q) : Q := to_double (a / b).
Definition Number_mul (a b : Q) : Q := to_double (a * b).

(** *** The transfer *)

Definition chunkSize : Z := 16384.

Definition file_metadata (fileData : File.t) : JSValue :=
  JObj [("type", JStr "file_metadata");
        ("name", JStr (File.name fileData));
        ("size", JNum (File.size fileData));
        ("chunks", JNum (Math_ceil (inject_Z (File.size fileData) / inject_Z 16384)))].

Definition file_chunk (i totalChunks : Z) (chunkData : string) : JSValue :=
  JObj [("type", JStr "file_chunk");
        ("chunk_index", JNum i);
        ("total_chunks", JNum totalChunks);
        ("data", JStr chunkData)].

Definition transfer_complete (fileData : File.t) : JSValue :=
  JObj [("type", JStr "transfer_complete");
        ("fileName", JStr (File.name fileData))].

(** The body of the [for] loop of [transferFileToPeer]. *)
Definition send_chunk (peerId : PeerId) (fileData : File.t) (totalChunks i : Z) : Async unit :=
  let start := i * chunkSize in
  let end_ := Z.min (start + chunkSize) (File.size fileData) in
  let chunk := File.slice fileData start end_ in
  await_resumed ;;                              (* the FileReader promise *)
  let chunkData := base64 chunk in
  let chunkMessage := file_chunk i totalChunks chunkData in
  sent ← sync (sendDataToPeer peerId chunkMessage);
  if negb sent then throw (Error ("Failed to send chunk " +:+ pretty i)) else
  registered ← gets (fun w => onTransferProgress (this w));
  (if registered : bool
   then perform (fun w =>
          let info := {| info_peerId := peerId; info_fileName := File.name fileData;
                         info_progress :=
                           Number_mul (Number_div (inject_Z (i + 1)) (inject_Z totalChunks))
                                      100 |} in
          App_onTransferProgress info (emit (call_onTransferProgress info) w))
   else (mret tt : Async unit)) ;;
  await_resumed.                                (* setTimeout(resolve, 10) *)

(** [transferFileToPeer(peerId, fileData)] *)
Definition transferFileToPeer (peerId : PeerId) (fileData : File.t) : Async bool :=
  try_catch
    (let metadata := file_metadata fileData in
     sent ← sync (sendDataToPeer peerId metadata);
     if negb sent then throw (Error "Failed to send file metadata") else
     let totalChunks := Math_ceil (inject_Z (File.size fileData) / inject_Z chunkSize) in
     for_range 0 (Z.to_nat totalChunks) (send_chunk peerId fileData totalChunks) ;;
     sync (sendDataToPeer peerId (transfer_complete fileData)) ;;
     mret true)
    (fun error =>
       perform (emit (console_error [Str "File transfer failed:"; Exn error])) ;;
       mret false).

(** *** Negotiation *)

(** [await m], for an [async] method [m] of the manager: its body runs
    to completion, then the caller is suspended for one tick. *)
Definition await {A} (m : Async A) : Async A :=
  a ← m; await_resumed ;; mret a.

(** [createPeerConnection(peerId)]: the three handlers it installs are
    [onicecandidate], [onconnectionstatechange] and, for [ondatachannel],
    [setupDataChannel]; [handle] dispatches to them. *)
Definition createPeerConnection (peerId : PeerId) : Async RTCPeerConnection :=
  sync (fun w =>
    let (pc, w) := fresh w in
    let peerConnection := {| pc_id := pc; connectionState := pc_new |} in
    (peerConnection,
     with_this (fun t => set_peerConnections (<[peerId := peerConnection]> (peerConnections t)) t)
               (emit (new_RTCPeerConnection pc) w))).

Definition is_pc_close (pc : ObjId) (e : Effect) : bool :=
  match e with
  | pc_close pc' => Nat.eqb pc pc'
  | _ => false
  end.

(** [peerConnection.createDataChannel(label, {ordered: true})]: the
    platform throws on a connection that has been closed. *)
Definition createDataChannel (pc : ObjId) (label : string) : Async RTCDataChannel :=
  fun w s =>
    if existsb (is_pc_close pc) (trace w)
    then (Throw (DOMException "InvalidStateError"), w, s)
    else let (ch, w) := fresh w in
         (Normal {| ch_id := ch; readyState := ch_connecting |},
          emit (pc_createDataChannel pc ch label) w, s).

(** [initiateConnection(peerId)] *)
Definition initiateConnection (peerId : PeerId) : Async bool :=
  try_catch
    (peerConnection ← await (createPeerConnection peerId);
     dataChannel ← createDataChannel (pc_id peerConnection) "fileTransfer";
     perform (setupDataChannel dataChannel peerId) ;;
     offer ← pc_call (pc_createOffer (pc_id peerConnection));
     pc_call (pc_setLocalDescription (pc_id peerConnection) offer) ;;
     perform (sendSignalingMessage
                (JObj [("type", JStr "offer"); ("to_client", JStr peerId); ("data", offer)])) ;;
     mret true)
    (fun error =>
       perform (emit (console_error [Str "Failed to initiate connection:"; Exn error])) ;;
       mret false).

(** [handleOffer(peerId, offer)] *)
Definition handleOffer (peerId : PeerId) (offer : JSValue) : Async unit :=
  try_catch
    (peerConnection ← await (createPeerConnection peerId);
     pc_call (pc_setRemoteDescription (pc_id peerConnection) offer) ;;
     answer ← pc_call (pc_createAnswer (pc_id peerConnection));
     pc_call (pc_setLocalDescription (pc_id peerConnection) answer) ;;
     perform (sendSignalingMessage
                (JObj [("type", JStr "answer"); ("to_client", JStr peerId); ("data", answer)])))
    (fun error =>
       perform (emit (console_error [Str "Failed to handle offer:"; Exn error]))).

(** [handleAnswer(peerId, answer)] *)
Definition handleAnswer (peerId : PeerId) (answer : JSValue) : Async unit :=
  try_catch
    (registered ← gets (fun w => peerConnections (this w) !! peerId);
     match registered with
     | Some peerConnection =>
         pc_call (pc_setRemoteDescription (pc_id peerConnection) answer) ;; mret tt
     | None => mret tt
     end)
    (fun error =>
       perform (emit (console_error [Str "Failed to handle answer:"; Exn error]))).

(** [handleIceCandidate(peerId, candidate)] *)
Definition handleIceCandidate (peerId : PeerId) (candidate : JSValue) : Async unit :=
  try_catch
    (registered ← gets (fun w => peerConnections (this w) !! peerId);
     match registered with
     | Some peerConnection =>
         pc_call (pc_addIceCandidate (pc_id peerConnection) candidate) ;; mret tt
     | None => mret tt
     end)
    (fun error =>
       perform (emit (console_error [Str "Failed to handle ICE candidate:"; Exn error]))).


(** [disconnect()].  The loop visits the peers registered in
    [peerConnections] in the order of insertion; a visit removes the
    entry it stands on and no other, so the keys met are those the map
    holds when the loop starts. *)
Definition disconnect (w : World) : World :=
  let w := foldl (fun w peerId => cleanupPeerConnection peerId w) w
                 (keys (peerConnections (this w))) in
  let w := if signalingSocket (this w)
           then with_this (fun t => set_signaling false (isConnected t) t) (emit socket_close w)
           else w in
  with_this (fun t => set_signaling (signalingSocket t) false t) w.

(** ** The file browser (App.js) *)

(** *** Strings and sets of JavaScript *)

(** [s.split(sep)] for a separator of one character. *)
Fixpoint split (sep : ascii) (s : string) : list string :=
  match s with
  | EmptyString => [EmptyString]
  | String c rest =>
      if Ascii.eqb c sep then EmptyString :: split sep rest
      else match split sep rest with
           | first :: others => String c first :: others
           | [] => [String c EmptyString]
           end
  end.

(** [parts.join(sep)] *)
Fixpoint join (sep : string) (parts : list string) : string :=
  match parts with
  | [] => ""
  | [part] => part
  | part :: rest => part +:+ sep +:+ join sep rest
  end.

(** A [Set] of strings: its elements in the order of insertion, each
    once. *)
Definition Set_has (x : string) (s : list string) : bool := bool_decide (x ∈ s).

Definition Set_add (x : string) (s : list string) : list string :=
  if Set_has x s then s else s ++ [x].

Definition Set_delete (x : string) (s : list string) : list string :=
  filter (fun y => y <> x) s.

(** *** Listings, selection and navigation *)

Module Entry.
(** An entry of a file listing, with the properties the browser reads. *)
Record t := { path : string; name : string; is_directory : bool }.
End Entry.

(** [handleItemClick(item)]: the new value of [selectedItems]. *)
Definition handleItemClick (item : Entry.t) (selectedItems : list string) : list string :=
  let newSelected := selectedItems in
  if Set_has (Entry.path item) newSelected
  then Set_delete (Entry.path item) newSelected
  else Set_add (Entry.path item) newSelected.

(** [handleOpen()]: the path it asks [loadFiles] for, if it asks. *)
Definition handleOpen (selectedItems : list string) (files : list Entry.t)
    (currentPath : string) : option string :=
  match selectedItems with
  | [selected] =>
      match List.find (fun f => String.eqb (Entry.path f) selected) files with
      | Some item =>
          if Entry.is_directory item
          then Some (match currentPath with
                     | EmptyString => Entry.name item
                     | _ => currentPath +:+ "/" +:+ Entry.name item
                     end)
          else None
      | None => None
      end
  | _ => None
  end.

(** [handleBack()]: the path it asks [loadFiles] for, if it asks. *)
Definition handleBack (currentPath : string) : option string :=
  match currentPath with
  | EmptyString => None
  | _ => Some (join "/" (removelast (split "/" currentPath)))
  end.

(** *** The list of devices *)

(** A client as the server lists it, and a device as the browser shows
    it; of their properties, those that [fetchClientsFromServer] reads or
    writes. *)
Record Client := { client_id : string; device_name : string; status : string }.

Record Device := {
  device_client : Client;
  isLocal : bool
}.

(** The value [fetchClientsFromServer] gives to [setDevices], from the
    clients the server has answered with.  [localClientId] is [None]
    while it is [null]. *)
Definition allDevices (localClientAvailable : bool) (localClientId : option string)
    (serverClients : list Client) : list Device :=
  let local :=
    match localClientId with
    | Some id =>
        if localClientAvailable && negb (String.eqb id "")
        then [{| device_client := {| client_id := id;
                                     device_name := "This Device (Local)";
                                     status := "online" |};
                 isLocal := true |}]
        else []
    | None => []
    end in
  local ++
  ((fun client => {| device_client := client; isLocal := false |})
     <$> filter (fun client => Some (client_id client) <> localClientId) serverClients).

(** The name under which [handleDownload] saves the file at [itemPath]:
    [itemPath.split('/').pop()].  [pop()] is [undefined] on an empty
    array only, and [split] returns none. *)
Definition handleDownload_name (itemPath : string) : string :=
  List.last (split "/" itemPath) "".

(** * Vocabulary of the statements *)

(** [w'] continues [w] with effects that all satisfy [P]. *)
Definition extends (P : Effect -> Prop) (w w' : World) : Prop :=
  exists es, trace w' = trace w ++ es /\ Forall P es.

(** The effects an event handler can have. *)
Definition by_handler (e : Effect) : Prop :=
  match e with
  | pc_close _ | channel_close _ | socket_send _ | console_log _ | console_error _
  | call_onPeerConnected _ | call_onPeerDisconnected _ | call_onDataReceived _ _ => True
  | _ => False
  end.

(** The texts handed to data channels by a run of effects, in order. *)
Definition sent_text (e : Effect) : option Text :=
  match e with
  | channel_send _ text => Some text
  | _ => None
  end.

Definition channel_sends (es : list Effect) : list Text := omap sent_text es.

(** Between [w] and [w'] exactly [texts] were handed to data channels. *)
Definition sends (w w' : World) (texts : list Text) : Prop :=
  exists es, trace w' = trace w ++ es /\ channel_sends es = texts.

(** The bytes of chunk [i] of [fileData], and the text of its message. *)
Definition chunk_bytes (fileData : File.t) (i : Z) : list byte :=
  File.slice fileData (i * chunkSize) (Z.min (i * chunkSize + chunkSize) (File.size fileData)).

Definition chunk_text (fileData : File.t) (totalChunks i : Z) : Text :=
  JSON_stringify (file_chunk i totalChunks (base64 (chunk_bytes fileData i))).

Definition totalChunks_of (fileData : File.t) : Z :=
  Math_ceil (inject_Z (File.size fileData) / inject_Z chunkSize).

(** [atob(text)]: the bytes that base64 text stands for, [None] for text
    that is not base64 with its padding. *)
Fixpoint index_of (c : ascii) (s : string) : option N :=
  match s with
  | EmptyString => None
  | String c' rest => if Ascii.eqb c c' then Some 0%N else N.succ <$> index_of c rest
  end.

Definition base64_digit_value (c : ascii) : option N := index_of c base64_alphabet.

Fixpoint atob (text : string) : option (list byte) :=
  match text with
  | EmptyString => Some []
  | String c1 (String c2 (String c3 (String c4 rest))) =>
      v1 ← base64_digit_value c1;
      v2 ← base64_digit_value c2;
      a ← Byte.of_N (v1 * 4 + v2 / 16);
      if Ascii.eqb c3 "=" then
        if Ascii.eqb c4 "=" && String.eqb rest "" && (v2 mod 16 =? 0)%N then Some [a] else None
      else
        v3 ← base64_digit_value c3;
        b ← Byte.of_N (v2 mod 16 * 16 + v3 / 4);
        if Ascii.eqb c4 "=" then
          if String.eqb rest "" && (v3 mod 4 =? 0)%N then Some [a; b] else None
        else
          v4 ← base64_digit_value c4;
          c ← Byte.of_N (v3 mod 4 * 64 + v4);
          bytes ← atob rest;
          Some (a :: b :: c :: bytes)
  | _ => None
  end.

(** Everything a complete transfer of [fileData] hands to the channel. *)
Definition transfer_texts (fileData : File.t) : list Text :=
  JSON_stringify (file_metadata fileData)
    :: (chunk_text fileData (totalChunks_of fileData) <$> seqZ 0 (totalChunks_of fileData))
    ++ [JSON_stringify (transfer_complete fileData)].

(** The text serialises an object without a [transferId] property. *)
Definition no_transferId (text : Text) : Prop :=
  match text with
  | JSON_stringify (JObj fields) => assoc "transferId" fields = None
  | _ => False
  end.




(** The messages a peer's channel delivers, one event each. *)
Definition receive (peerId : PeerId) (messages : list JSValue) (w : World) : World :=
  run_events (ev_message peerId ∘ JSON_stringify <$> messages) w.

(** The completeness condition of the specification: every index below
    [totalChunks] is the [chunk_index] of a [file_chunk] message among
    [received]. *)
Definition is_chunk (i : Z) (message : JSValue) : bool :=
  match message with
  | JObj fields =>
      match assoc "type" fields, assoc "chunk_index" fields with
      | Some (JStr type), Some (JNum index) => String.eqb type "file_chunk" && (index =? i)
      | _, _ => false
      end
  | _ => false
  end.

Definition all_indices_observed (totalChunks : Z) (received : list JSValue) : bool :=
  forallb (fun i => existsb (is_chunk i) received) (seqZ 0 totalChunks).

(** The only report of a failure the program can make. *)
Definition is_failure_report (e : Effect) : Prop :=
  match e with
  | console_error _ => True
  | _ => False
  end.

Definition completion_log (fileName : JSValue) : Effect :=
  console_log [Template [Lit "File transfer completed: "; Subst fileName]].

(** The report of [channel.onmessage] when it has caught [error]. *)
Definition parse_failure (error : Exception) : Effect :=
  console_error [Str "Error parsing data channel message:"; Exn error].

(** A line written to the console. *)
Definition is_console (e : Effect) : Prop :=
  match e with
  | console_log _ | console_error _ => True
  | _ => False
  end.

(** The candidates handed to [addIceCandidate] by a run of effects. *)
Definition ice_call (e : Effect) : option (ObjId * JSValue) :=
  match e with
  | pc_addIceCandidate pc candidate => Some (pc, candidate)
  | _ => None
  end.

Definition ice_calls (es : list Effect) : list (ObjId * JSValue) := omap ice_call es.

(** The calls that negotiate a session, among a run of effects. *)
Definition is_negotiation_call (e : Effect) : bool :=
  match e with
  | new_RTCPeerConnection _ | pc_createDataChannel _ _ _
  | pc_createOffer _ | pc_createAnswer _
  | pc_setLocalDescription _ _ | pc_setRemoteDescription _ _
  | pc_addIceCandidate _ _ => true
  | _ => false
  end.

Definition negotiation_calls (es : list Effect) : list Effect :=
  List.filter is_negotiation_call es.

(** Every effect of the method [m] satisfies [P], from any world and
    under any schedule. *)
Definition Async_extends {A} (P : Effect -> Prop) (m : Async A) : Prop :=
  forall w s, extends P w (m w s).1.2.

(** The signaling socket is in place and open. *)
Definition signaling_up (w : World) : Prop :=
  signalingSocket (this w) = true /\ isConnected (this w) = true.

(** A schedule during which no event is delivered. *)
Definition uneventful (s : list Tick) : Prop := Forall (fun t => during t = []) s.

(** ** Worlds, files and schedules of the examples *)

(** The manager of the application once the signaling socket is open. *)
Definition manager_signaling : World :=
  {| this := set_signaling true true (App_initWebRTC constructor);
     nextObj := 0;
     trace := [] |}.

(** The same manager with one connected peer: connection 0, channel 1. *)
Definition manager_with_channel (peerId : PeerId) (state : RTCDataChannelState) : World :=
  {| this := set_dataChannels {[ peerId := {| ch_id := 1; readyState := state |} ]}
               (set_peerConnections
                  {[ peerId := {| pc_id := 0; connectionState := pc_connected |} ]}
                  (this manager_signaling));
     nextObj := 2;
     trace := [] |}.

(** A five-byte file, and a tick during which the channel of peer "P"
    (object 1 of [manager_with_channel]) closes. *)
Definition hello_txt : File.t :=
  {| File.name := "a.txt"; File.content := list_byte_of_string "hello" |}.

Definition channel_closes : Tick :=
  {| during := [ev_readyState 1 "P" ch_closed]; settles := Fulfilled JUndefined |}.

(** A file of one full chunk and one byte more. *)
Definition two_chunks_bin : File.t :=
  {| File.name := "b.bin"; File.content := replicate (Z.to_nat 16385) "x"%byte |}.

(** Ticks without events, whose promise is fulfilled or rejected. *)
Definition fulfilled (v : JSValue) : Tick := {| during := []; settles := Fulfilled v |}.
Definition rejected (e : Exception) : Tick := {| during := []; settles := Rejected e |}.

(** Session descriptions and a candidate for the examples. *)
Definition sdp (type text : string) : JSValue :=
  JObj [("type", JStr type); ("sdp", JStr text)].

Definition a_candidate : JSValue :=
  JObj [("candidate", JStr "candidate:1 1 udp 2122260223 192.0.2.7 54321 typ host");
        ("sdpMid", JStr "0"); ("sdpMLineIndex", JNum 0)].


Definition socket_closes_meanwhile (answer : JSValue) : list Tick :=
  [quiet; fulfilled JUndefined;
   {| during := [ev_socket_close]; settles := Fulfilled answer |};
   fulfilled JUndefined].

(** * Vocabulary of the further properties *)

(** The calls of [onTransferProgress] among a run of effects. *)
Definition progress_call (e : Effect) : option ProgressInfo :=
  match e with
  | call_onTransferProgress info => Some info
  | _ => None
  end.

Definition progress_calls (es : list Effect) : list ProgressInfo := omap progress_call es.

(** The argument of [onTransferProgress] after chunk [i]. *)
Definition progress_info (peerId : PeerId) (fileData : File.t) (totalChunks i : Z)
  : ProgressInfo :=
  {| info_peerId := peerId; info_fileName := File.name fileData;
     info_progress := Number_mul (Number_div (inject_Z (i + 1)) (inject_Z totalChunks)) 100 |}.

(** The same percentage computed by the machine, in the binary64
    arithmetic of the kernel's primitive floats, and read as a rational. *)
Definition binary64_value (f : PrimFloat.float) : option Q :=
  match FloatOps.Prim2SF f with
  | SpecFloat.S754_zero _ => Some 0%Q
  | SpecFloat.S754_finite negative m e =>
      Some (Qred ((if negative then -1 else 1) * inject_Z (Z.pos m) * 2 ^ e))
  | _ => None
  end.

Definition binary64_of_Z (n : Z) : PrimFloat.float := PrimFloat.of_uint63 (Uint63.of_Z n).

Definition binary64_progress (i totalChunks : Z) : option Q :=
  binary64_value
    (PrimFloat.mul
       (PrimFloat.div (binary64_of_Z (i + 1)) (binary64_of_Z totalChunks))
       (binary64_of_Z 100)).

Definition progress_agrees (peerId : PeerId) (fileData : File.t) (totalChunks i : Z) : bool :=
  match binary64_progress i totalChunks with
  | Some p => Qeq_bool p (info_progress (progress_info peerId fileData totalChunks i))
  | None => false
  end.

(** A file of two full chunks and a third that is not full. *)
Definition three_chunks_bin : File.t :=
  {| File.name := "c.bin"; File.content := replicate (Z.to_nat 40000) "y"%byte |}.

(** The line [transferFileToPeer] logs when it gives up. *)
Definition transfer_failed (message : string) : Effect :=
  console_error [Str "File transfer failed:"; Exn (Error message)].

(** The effects of a transfer on the channel [ch]: texts handed to that
    channel, and reports of progress. *)
Definition transfer_effect (ch : ObjId) (e : Effect) : Prop :=
  match e with
  | channel_send c _ => c = ch
  | call_onTransferProgress _ => True
  | _ => False
  end.

(** The messages of a complete transfer, before they are serialised. *)
Definition chunk_message (fileData : File.t) (i : Z) : JSValue :=
  file_chunk i (totalChunks_of fileData) (base64 (chunk_bytes fileData i)).

Definition transfer_messages (fileData : File.t) : list JSValue :=
  file_metadata fileData
    :: (chunk_message fileData <$> seqZ 0 (totalChunks_of fileData))
    ++ [transfer_complete fileData].

(** What the receiving side does with one message of a transfer: it
    calls [onDataReceived], which logs the message, then a line about it. *)
Definition received_log (peerId : PeerId) (message : JSValue) (line : list TemplatePart)
  : list Effect :=
  [call_onDataReceived peerId message;
   console_log [Str ("Received data from " +:+ peerId +:+ ":"); Val message];
   console_log [Template line]].


(** The properties of a message that [onDataReceived] of App.js puts in
    a template literal, by the [type] of the message. *)
Definition logged_properties (type : JSValue) : list string :=
  if strict_eq_str type "file_metadata" then ["name"; "size"]
  else if strict_eq_str type "file_chunk" then ["chunk_index"; "total_chunks"]
  else if strict_eq_str type "transfer_complete" then ["fileName"]
  else [].

Definition property (data : JSValue) (k : string) : JSValue :=
  match get data k with
  | Normal v => v
  | Throw _ => JUndefined
  end.

(** [c] occurs in [s]. *)
Fixpoint contains_char (c : ascii) (s : string) : bool :=
  match s with
  | EmptyString => false
  | String c' rest => Ascii.eqb c' c || contains_char c rest
  end.

(** A name a directory can hold: not empty, and without a slash. *)
Definition entry_name_ok (f : Entry.t) : Prop :=
  Entry.name f <> "" /\ contains_char "/" (Entry.name f) = false.

(** Events that follow the loss of the connection to ["P"]: the late
    events of its own channel and connection, and the channel another
    peer opens. *)
Definition later_events : list Event :=
  [ev_readyState 1 "P" ch_closed;
   ev_message "P" (JSON_stringify (JObj [("type", JStr "file_chunk")]));
   ev_datachannel "Q" ch_open;
   ev_connectionstatechange 0 "P" pc_failed;
   ev_icecandidate "P" (JStr "candidate");
   ev_socket_close].

(** What a handler of the manager does while a method is suspended: on
    the signaling socket it sends ICE candidates only. *)
Definition handler_effect (e : Effect) : Prop :=
  match e with
  | socket_send text =>
      exists peerId candidate,
        text = JSON_stringify (JObj [("type", JStr "ice_candidate");
                                     ("to_client", JStr peerId); ("data", candidate)])
  | _ => by_handler e
  end.

(** How [handleOffer] ends when its try block throws [error] after the
    negotiation calls [calls]: [ticks] suspensions are used up, the
    error is the last thing logged, and besides the calls there is only
    what the handlers did meanwhile. *)
Definition gives_up (w w' : World) (s s' : list Tick) (ticks : nat)
    (calls : list Effect) (error : Exception) : Prop :=
  s' = drop ticks s /\
  exists es,
    trace w' = trace w ++ es ++ [console_error [Str "Failed to handle offer:"; Exn error]] /\
    negotiation_calls es = calls /\
    Forall (fun e => is_negotiation_call e = true \/ handler_effect e) es.

(** The manager after [createPeerConnection('Q')], then
    [createPeerConnection('P')]. *)
Definition two_connections : World :=
  (createPeerConnection "P" (createPeerConnection "Q" manager_signaling []).1.2 []).1.2.

(** * Properties *)

(** ** Maps *)

Lemma entries_get_set_eq {V} key (value : V) l :
  entries_get key (entries_set key value l) = Some value.
Proof.
  induction l as [|[k v] l IH]; cbn; [by rewrite String.eqb_refl|].
  destruct (String.eqb key k) eqn:E; cbn; by rewrite ?E.
Qed.

Lemma entries_get_set_ne {V} key key' (value : V) l :
  key <> key' -> entries_get key' (entries_set key value l) = entries_get key' l.
Proof.
  intros Hne. induction l as [|[k v] l IH]; cbn.
  - by rewrite (proj2 (String.eqb_neq key' key)) by congruence.
  - destruct (String.eqb key k) eqn:E; cbn; [|by rewrite IH].
    apply String.eqb_eq in E as <-.
    by rewrite (proj2 (String.eqb_neq key' key)) by congruence.
Qed.

Lemma entries_get_delete {V} key key' (l : list (PeerId * V)) :
  entries_get key' (entries_delete key l) =
    if String.eqb key key' then None else entries_get key' l.
Proof.
  unfold entries_delete.
  induction l as [|[k v] l IH]; cbn; [by destruct (String.eqb key key')|].
  destruct (String.eqb key k) eqn:E; cbn.
  - apply String.eqb_eq in E as <-. rewrite IH. rewrite (String.eqb_sym key' key).
    by destruct (String.eqb key key').
  - rewrite IH. destruct (String.eqb key' k) eqn:E'; [|done].
    apply String.eqb_eq in E' as ->. by rewrite E.
Qed.

Lemma JSMap_lookup_insert_eq {V} (m : JSMap V) key value : <[key := value]> m !! key = Some value.
Proof. apply entries_get_set_eq. Qed.

Lemma JSMap_lookup_insert_ne {V} (m : JSMap V) key key' value :
  key <> key' -> <[key := value]> m !! key' = m !! key'.
Proof. apply entries_get_set_ne. Qed.

Lemma JSMap_lookup_delete_eq {V} (m : JSMap V) key : delete key m !! key = None.
Proof.
  unfold lookup, JSMap_lookup, delete, JSMap_delete. cbn.
  by rewrite entries_get_delete, String.eqb_refl.
Qed.

Lemma JSMap_lookup_delete_ne {V} (m : JSMap V) key key' :
  key <> key' -> delete key m !! key' = m !! key'.
Proof.
  intros Hne. unfold lookup, JSMap_lookup, delete, JSMap_delete. cbn.
  by rewrite entries_get_delete, (proj2 (String.eqb_neq key key')).
Qed.

Lemma JSMap_lookup_fmap {A B} (f : A -> B) (m : JSMap A) key :
  (f <$> m) !! key = f <$> (m !! key).
Proof.
  unfold lookup, JSMap_lookup, fmap at 1, JSMap_fmap. cbn.
  induction (entries m) as [|[k v] l IH]; cbn; [done|].
  by destruct (String.eqb key k).
Qed.

Lemma JSMap_lookup_empty {V} key : (∅ : JSMap V) !! key = None.
Proof. reflexivity. Qed.

Lemma JSMap_empty_eq {V} (m : JSMap V) : (forall key, m !! key = None) -> m = ∅.
Proof.
  destruct m as [[|[k v] l]]; [done|]. intros H. specialize (H k).
  unfold lookup, JSMap_lookup in H. cbn in H. by rewrite String.eqb_refl in H.
Qed.

Lemma elem_of_keys {V} (m : JSMap V) key : key ∈ keys m <-> is_Some (m !! key).
Proof.
  unfold keys, lookup, JSMap_lookup.
  induction (entries m) as [|[k v] l IH]; cbn.
  - split; [by intros ?%elem_of_nil | by intros [? ?]].
  - rewrite elem_of_cons, IH. destruct (String.eqb key k) eqn:E.
    + apply String.eqb_eq in E. split; [by eexists | by left].
    + apply String.eqb_neq in E. split; [by intros [?|?] | by right].
Qed.

(** The operations keep the keys distinct, and [set] keeps an entry in
    its place. *)
Lemma keys_insert {V} (m : JSMap V) key value :
  keys (<[key := value]> m) = if decide (key ∈ keys m) then keys m else keys m ++ [key].
Proof.
  unfold keys, insert, JSMap_insert. cbn.
  induction (entries m) as [|[k v] l IH]; cbn; [done|].
  destruct (String.eqb key k) eqn:E; cbn.
  - apply String.eqb_eq in E as ->. rewrite decide_True; [done|]. apply elem_of_cons. by left.
  - apply String.eqb_neq in E. rewrite IH.
    destruct (decide (key ∈ fst <$> l)) as [Hin|Hin].
    + rewrite decide_True; [done|]. apply elem_of_cons. by right.
    + rewrite decide_False; [done|]. by intros [?|?]%elem_of_cons.
Qed.

Lemma keys_delete {V} (m : JSMap V) key :
  keys (delete key m) = filter (fun k => k <> key) (keys m).
Proof.
  unfold keys, delete, JSMap_delete, entries_delete. cbn [entries].
  induction (entries m) as [|[k v] l IH]; [done|].
  cbn [List.filter fst negb]. rewrite fmap_cons. cbn [fst].
  destruct (String.eqb key k) eqn:E; cbn [negb].
  - apply String.eqb_eq in E as ->. rewrite filter_cons_False by (by intros []). exact IH.
  - apply String.eqb_neq in E. rewrite filter_cons_True by congruence.
    rewrite fmap_cons. cbn [fst]. by rewrite <- IH.
Qed.

Lemma keys_NoDup_insert {V} (m : JSMap V) key value :
  NoDup (keys m) -> NoDup (keys (<[key := value]> m)).
Proof.
  intros H. rewrite keys_insert. case_decide as Hin; [done|].
  apply NoDup_app. split; [done|]. split; [|apply NoDup_singleton].
  by intros k Hk ->%list_elem_of_singleton.
Qed.

Lemma keys_NoDup_delete {V} (m : JSMap V) key :
  NoDup (keys m) -> NoDup (keys (delete key m)).
Proof. intros H. rewrite keys_delete. by apply NoDup_filter. Qed.

(** ** Traces only grow *)

Lemma extends_refl P w : extends P w w.
Proof. exists []. split; [by rewrite app_nil_r | constructor]. Qed.

Lemma extends_trans P w1 w2 w3 : extends P w1 w2 -> extends P w2 w3 -> extends P w1 w3.
Proof.
  intros (es1 & H1 & F1) (es2 & H2 & F2). exists (es1 ++ es2). split.
  - by rewrite H2, H1, app_assoc.
  - by apply Forall_app.
Qed.

Lemma extends_weaken (P Q : Effect -> Prop) w w' :
  (forall e, P e -> Q e) -> extends P w w' -> extends Q w w'.
Proof.
  intros HPQ (es & H & F). exists es. split; [done|]. eapply Forall_impl; eauto.
Qed.

Lemma extends_emit (P : Effect -> Prop) e w : P e -> extends P w (emit e w).
Proof. intros He. exists [e]. split; [done | by repeat constructor]. Qed.

Lemma extends_same_trace P w w' : trace w' = trace w -> extends P w w'.
Proof. intros H. exists []. split; [by rewrite app_nil_r | constructor]. Qed.

Lemma extends_with_this P f w : extends P w (with_this f w).
Proof. by apply extends_same_trace. Qed.

Ltac extends_step :=
  first [ apply extends_refl
        | apply extends_with_this
        | apply extends_emit; exact I
        | eapply extends_trans; [| apply extends_with_this]
        | eapply extends_trans; [| apply extends_emit; exact I] ].

Lemma cleanupPeerConnection_extends peerId w :
  extends by_handler w (cleanupPeerConnection peerId w).
Proof.
  unfold cleanupPeerConnection.
  set (w1 := match peerConnections (this w) !! peerId with Some _ => _ | None => _ end).
  assert (H1 : extends by_handler w w1).
  { subst w1. destruct (peerConnections (this w) !! peerId); repeat extends_step. }
  eapply extends_trans; [exact H1|].
  destruct (dataChannels (this w1) !! peerId); repeat extends_step.
Qed.

Lemma onconnectionstatechange_extends peerId state w :
  extends by_handler w (onconnectionstatechange peerId state w).
Proof.
  unfold onconnectionstatechange, App_onPeerConnected, App_onPeerDisconnected.
  repeat case_decide; cbn [this emit];
    repeat match goal with |- context [if ?b then _ else _] => destruct b end;
    try (eapply extends_trans; [| apply cleanupPeerConnection_extends]);
    repeat extends_step.
Qed.

Lemma channel_onmessage_extends peerId t w :
  extends by_handler w (channel_onmessage peerId t w).
Proof.
  unfold channel_onmessage, App_onDataReceived.
  destruct (JSON_parse t) as [d|e]; [|repeat extends_step].
  destruct (onDataReceived (this w)); [|repeat extends_step].
  destruct (get d "type") as [ty|e]; [|repeat extends_step].
  unfold console_log_template.
  repeat match goal with |- context [if ?b then _ else _] => destruct b end;
    repeat extends_step.
Qed.

Lemma channel_onmessage_this peerId text w :
  this (channel_onmessage peerId text w) = this w.
Proof.
  unfold channel_onmessage, App_onDataReceived.
  destruct (JSON_parse text) as [d|e]; [|done].
  destruct (onDataReceived (this w)); [|done].
  destruct (get d "type") as [ty|e]; [|done].
  unfold console_log_template.
  by repeat match goal with |- context [if ?b then _ else _] => destruct b end.
Qed.

Lemma onicecandidate_this peerId candidate w :
  this (onicecandidate peerId candidate w) = this w.
Proof.
  unfold onicecandidate, sendSignalingMessage.
  by repeat match goal with |- context [if ?b then _ else _] => destruct b end.
Qed.

Lemma handle_extends e w : extends by_handler w (handle e w).
Proof.
  destruct e as [pc p st|p c|p st|ch p st|p t|p err|]; cbn [handle].
  - eapply extends_trans; [apply extends_with_this | apply onconnectionstatechange_extends].
  - unfold onicecandidate, sendSignalingMessage.
    repeat match goal with |- context [if ?b then _ else _] => destruct b end;
      repeat extends_step.
  - by apply extends_same_trace.
  - destruct st; repeat extends_step.
  - apply channel_onmessage_extends.
  - repeat extends_step.
  - repeat extends_step.
Qed.

Lemma run_events_extends events w : extends by_handler w (run_events events w).
Proof.
  unfold run_events. revert w.
  induction events as [|e events IH]; intros w; cbn [foldl]; [apply extends_refl|].
  eapply extends_trans; [apply handle_extends | apply IH].
Qed.

(** The schedule, read tick by tick. *)
Lemma next_tick_nth s : next_tick s = (nth 0 s quiet, tail s).
Proof. by destruct s. Qed.

Lemma nth_tail k (s : list Tick) : nth k (tail s) quiet = nth (S k) s quiet.
Proof. destruct s; [by destruct k|done]. Qed.

(** ** Sending on a data channel *)

(** C10. [sendDataToPeer(peerId, data)] returns [true], and hands the
    JSON-serialised message to the channel, if and only if [dataChannels]
    holds a channel for [peerId] whose [readyState] is ['open'].
    Otherwise it returns [false] and the world is the one it started
    from: nothing is transmitted and no field of the manager changes.
    The method is a total function into [bool]: it never throws. *)
Theorem sendDataToPeer_open_iff (peerId : PeerId) (data : JSValue) (w : World) :
  (fst (sendDataToPeer peerId data w) = true <->
     exists channel, dataChannels (this w) !! peerId = Some channel /\
                     readyState channel = ch_open) /\
  (forall channel, dataChannels (this w) !! peerId = Some channel ->
                   readyState channel = ch_open ->
     sendDataToPeer peerId data w =
       (true, emit (channel_send (ch_id channel) (JSON_stringify data)) w)) /\
  (fst (sendDataToPeer peerId data w) = false -> sendDataToPeer peerId data w = (false, w)).
Proof.
  unfold sendDataToPeer.
  destruct (dataChannels (this w) !! peerId) as [channel|] eqn:Hget.
  - destruct (decide (readyState channel = ch_open)) as [Hopen|Hnot]; cbn.
    + repeat split; eauto; try discriminate.
      intros c [= <-] _. reflexivity.
    + repeat split; try discriminate; try done.
      * intros (c & [= <-] & Hopen). contradiction.
      * intros c [= <-] Hopen. contradiction.
  - cbn. repeat split; try discriminate; try done.
    intros (c & Hc & _). discriminate.
Qed.

Lemma sendDataToPeer_cases peerId data w :
  (exists channel, dataChannels (this w) !! peerId = Some channel /\
                   readyState channel = ch_open /\
                   sendDataToPeer peerId data w =
                     (true, emit (channel_send (ch_id channel) (JSON_stringify data)) w)) \/
  ((forall channel, dataChannels (this w) !! peerId = Some channel ->
                    readyState channel <> ch_open) /\
   sendDataToPeer peerId data w = (false, w)).
Proof.
  unfold sendDataToPeer.
  destruct (dataChannels (this w) !! peerId) as [channel|] eqn:Hget.
  - destruct (decide (readyState channel = ch_open)) as [Hopen|Hnot].
    + left. eauto.
    + right. split; [|done]. by intros c [= <-].
  - right. split; [|done]. intros c Hc. discriminate.
Qed.

Lemma sendDataToPeer_closed peerId data w :
  (forall channel, dataChannels (this w) !! peerId = Some channel ->
                   readyState channel <> ch_open) ->
  sendDataToPeer peerId data w = (false, w).
Proof.
  intros Hclosed.
  destruct (sendDataToPeer_cases peerId data w) as [(c & Hc & Hopen & _)|[_ H]]; [|done].
  by destruct (Hclosed c Hc).
Qed.

(** ** Teardown of one peer *)

(** C9. For distinct peers [p] and [q], [cleanupPeerConnection(p)]
    leaves no entry for [p] in [peerConnections] nor in [dataChannels],
    having called [close()] on the connection and on the channel that
    were registered for [p] (and on nothing else), and the entries of [q]
    in both maps are what they were. *)
Theorem cleanupPeerConnection_frame (p q : PeerId) (w : World) :
  p <> q ->
  peerConnections (this (cleanupPeerConnection p w)) !! p = None /\
  dataChannels (this (cleanupPeerConnection p w)) !! p = None /\
  trace (cleanupPeerConnection p w) =
    trace w ++ option_list (pc_close ∘ pc_id <$> peerConnections (this w) !! p)
            ++ option_list (channel_close ∘ ch_id <$> dataChannels (this w) !! p) /\
  peerConnections (this (cleanupPeerConnection p w)) !! q = peerConnections (this w) !! q /\
  dataChannels (this (cleanupPeerConnection p w)) !! q = dataChannels (this w) !! q.
Proof.
  intros Hpq. unfold cleanupPeerConnection.
  destruct (peerConnections (this w) !! p) as [pc|] eqn:Hpc;
    destruct (dataChannels (this w) !! p) as [ch|] eqn:Hch;
    cbn; rewrite ?Hch, ?Hpc; cbn;
    rewrite ?JSMap_lookup_delete_eq, ?JSMap_lookup_delete_ne by done;
    rewrite ?Hpc, ?Hch, <- ?app_assoc, ?app_nil_r; done.
Qed.

Lemma cleanupPeerConnection_frame_witness :
  "P" <> "Q" /\
  dataChannels (this (cleanupPeerConnection "P"
     (with_this (set_dataChannels
        {[ "P" := {| ch_id := 1; readyState := ch_open |};
           "Q" := {| ch_id := 3; readyState := ch_open |} ]})
        (manager_with_channel "P" ch_open)))) !! "Q"
  = Some {| ch_id := 3; readyState := ch_open |}.
Proof.
  split; [discriminate|].
  etransitivity.
  - apply (cleanupPeerConnection_frame "P" "Q"). discriminate.
  - vm_compute. reflexivity.
Defined.

(** ** What a transfer hands to the channel *)

Lemma sends_refl w : sends w w [].
Proof. exists []. by rewrite app_nil_r. Qed.

Lemma sends_trans w1 w2 w3 l1 l2 :
  sends w1 w2 l1 -> sends w2 w3 l2 -> sends w1 w3 (l1 ++ l2).
Proof.
  intros (es1 & H1 & <-) (es2 & H2 & <-). exists (es1 ++ es2). split.
  - by rewrite H2, H1, app_assoc.
  - unfold channel_sends. by rewrite omap_app.
Qed.

Lemma extends_sends P w w' :
  (forall e, P e -> sent_text e = None) -> extends P w w' -> sends w w' [].
Proof.
  intros HP (es & H & F). exists es. split; [done|].
  clear H. unfold channel_sends. induction F as [|e es He _ IH]; [done|].
  cbn. by rewrite (HP e He).
Qed.

Lemma by_handler_silent e : by_handler e -> sent_text e = None.
Proof. by destruct e. Qed.

Lemma run_events_sends events w : sends w (run_events events w) [].
Proof. eapply extends_sends; [apply by_handler_silent | apply run_events_extends]. Qed.

Lemma emit_sends e w : sends w (emit e w) (option_list (sent_text e)).
Proof. exists [e]. split; [done|]. cbn. by destruct (sent_text e). Qed.

Lemma sendDataToPeer_sends peerId data w :
  (sendDataToPeer peerId data w).1 = true /\
    sends w (sendDataToPeer peerId data w).2 [JSON_stringify data] \/
  sendDataToPeer peerId data w = (false, w).
Proof.
  destruct (sendDataToPeer_cases peerId data w) as [(c & _ & _ & ->)|[_ ->]]; [left|by right].
  split; [done|]. apply (emit_sends (channel_send _ _)).
Qed.

Lemma send_chunk_sends peerId fileData totalChunks i w s :
  match send_chunk peerId fileData totalChunks i w s with
  | (Normal _, w', _) => sends w w' [chunk_text fileData totalChunks i]
  | (Throw _, w', _) => sends w w' []
  end.
Proof.
  unfold send_chunk, mbind, Async_bind, await_resumed, sync, gets, perform, throw.
  destruct (next_tick s) as [t1 s1].
  pose proof (run_events_sends (during t1) w) as H1.
  set (w1 := run_events (during t1) w) in *.
  fold (chunk_bytes fileData i).
  destruct (sendDataToPeer_sends peerId
              (file_chunk i totalChunks (base64 (chunk_bytes fileData i))) w1)
    as [[Hok H2]|Hfail].
  - destruct (sendDataToPeer _ _ w1) as [sent w2]. cbn in Hok, H2. subst sent. cbn.
    destruct (onTransferProgress (this w2)); cbn;
      destruct (next_tick s1) as [t2 s2]; cbn.
    + change [chunk_text fileData totalChunks i]
        with ([] ++ [chunk_text fileData totalChunks i] ++ [] ++ []).
      eapply sends_trans; [exact H1|]. eapply sends_trans; [exact H2|].
      eapply sends_trans; [|apply run_events_sends].
      apply (emit_sends (call_onTransferProgress _)).
    + change [chunk_text fileData totalChunks i]
        with ([] ++ [chunk_text fileData totalChunks i] ++ []).
      eapply sends_trans; [exact H1|]. eapply sends_trans; [exact H2|].
      apply run_events_sends.
  - rewrite Hfail. cbn. exact H1.
Qed.

Lemma for_range_sends peerId fileData totalChunks count : forall i w s,
  match for_range i count (send_chunk peerId fileData totalChunks) w s with
  | (Normal _, w', _) =>
      sends w w' (chunk_text fileData totalChunks <$> seqZ i (Z.of_nat count))
  | (Throw _, w', _) =>
      exists j, (j < count)%nat /\
                sends w w' (chunk_text fileData totalChunks <$> seqZ i (Z.of_nat j))
  end.
Proof.
  induction count as [|k IH]; intros i w s.
  - cbn. apply sends_refl.
  - cbn [for_range]. unfold mbind, Async_bind.
    pose proof (send_chunk_sends peerId fileData totalChunks i w s) as Hi.
    destruct (send_chunk peerId fileData totalChunks i w s) as [[[[]|e] w1] s1].
    + specialize (IH (i + 1) w1 s1).
      destruct (for_range (i + 1) k _ w1 s1) as [[[[]|e] w2] s2].
      * rewrite seqZ_cons by lia. cbn [fmap list_fmap].
        replace (Z.pred (Z.of_nat (S k))) with (Z.of_nat k) by lia.
        apply (sends_trans _ _ _ [_] _ Hi IH).
      * destruct IH as (j & Hj & IH). exists (S j). split; [lia|].
        rewrite seqZ_cons by lia. cbn [fmap list_fmap].
        replace (Z.pred (Z.of_nat (S j))) with (Z.of_nat j) by lia.
        apply (sends_trans _ _ _ [_] _ Hi IH).
    + exists 0%nat. split; [lia|]. exact Hi.
Qed.

Lemma Math_ceil_chunks (n : Z) :
  Math_ceil (inject_Z n / inject_Z 16384) = (n + 16383) / 16384.
Proof.
  unfold Math_ceil, Qceiling, Qfloor, Qdiv, Qmult, Qinv, Qopp, inject_Z. cbn.
  change (1 * 16384)%positive with 16384%positive. rewrite Z.mul_1_r.
  pose proof (Z.div_mod (- n) 16384 ltac:(lia)).
  pose proof (Z.mod_pos_bound (- n) 16384 ltac:(lia)).
  apply Z.div_unique with (r := 16383 - (- n) mod 16384); lia.
Qed.

Lemma totalChunks_of_eq fileData :
  totalChunks_of fileData = (File.size fileData + 16383) / 16384.
Proof. apply Math_ceil_chunks. Qed.

Lemma size_nonneg fileData : 0 <= File.size fileData.
Proof. unfold File.size. lia. Qed.

Lemma totalChunks_of_nonneg fileData : 0 <= totalChunks_of fileData.
Proof.
  rewrite totalChunks_of_eq. pose proof (size_nonneg fileData).
  apply Z.div_pos; lia.
Qed.

(** Every run of [transferFileToPeer] returns a boolean.  When it returns
    [true] it has handed over the header, then every chunk in index
    order, then the completion marker if the channel still took it.  When
    it returns [false] it has handed over nothing, or the header and
    fewer than all chunks, in index order. *)
Lemma transferFileToPeer_sends peerId fileData w s :
  let n := totalChunks_of fileData in
  match transferFileToPeer peerId fileData w s with
  | (Normal true, w', _) =>
      exists marker,
        sends w w' (JSON_stringify (file_metadata fileData)
                      :: (chunk_text fileData n <$> seqZ 0 n) ++ marker) /\
        (marker = [] \/ marker = [JSON_stringify (transfer_complete fileData)])
  | (Normal false, w', _) =>
      sends w w' [] \/
      exists j, 0 <= j < n /\
        sends w w' (JSON_stringify (file_metadata fileData)
                      :: (chunk_text fileData n <$> seqZ 0 j))
  | (Throw _, _, _) => False
  end.
Proof.
  intros n. unfold transferFileToPeer, try_catch, mbind, Async_bind, sync, throw, perform.
  destruct (sendDataToPeer_sends peerId (file_metadata fileData) w) as [[Hok H0]|Hfail].
  - destruct (sendDataToPeer peerId (file_metadata fileData) w) as [sent w0].
    cbn in Hok, H0. subst sent. cbn [negb].
    fold (totalChunks_of fileData). fold n.
    pose proof (for_range_sends peerId fileData n (Z.to_nat n) 0 w0 s) as Hloop.
    pose proof (totalChunks_of_nonneg fileData) as Hn. fold n in Hn.
    destruct (for_range 0 (Z.to_nat n) _ w0 s) as [[[[]|e] w1] s1].
    + rewrite Z2Nat.id in Hloop by done.
      destruct (sendDataToPeer_sends peerId (transfer_complete fileData) w1)
        as [[Hok H2]|Hfail].
      * destruct (sendDataToPeer peerId (transfer_complete fileData) w1) as [sent w2].
        cbn in Hok, H2. cbn. exists [JSON_stringify (transfer_complete fileData)].
        split; [|by right].
        apply (sends_trans _ _ _ [_] _ H0). by apply (sends_trans _ _ _ _ [_] Hloop).
      * rewrite Hfail. cbn. exists []. split; [|by left]. rewrite app_nil_r.
        by apply (sends_trans _ _ _ [_] _ H0).
    + cbn. destruct Hloop as (j & Hj & Hloop). right. exists (Z.of_nat j).
      split; [lia|].
      apply (sends_trans _ _ _ [_] _ H0).
      rewrite <- (app_nil_r (_ <$> _)). eapply sends_trans; [exact Hloop|].
      apply (emit_sends (console_error _)).
  - rewrite Hfail. cbn. left. apply (emit_sends (console_error _)).
Qed.

(** ** Chunk arithmetic *)

Lemma chunkSize_pos : 0 < chunkSize.
Proof. reflexivity. Qed.

Lemma take_min_length {A} (l : list A) (n : nat) :
  take (n `min` length l) l = take n l.
Proof.
  destruct (Nat.le_gt_cases n (length l)).
  - by rewrite Nat.min_l.
  - rewrite Nat.min_r by lia. rewrite !take_ge; [done | lia | lia].
Qed.

(** Chunk [i] is the next [chunkSize] bytes after the first
    [i * chunkSize], or what is left of the file. *)
Lemma chunk_bytes_take_drop fileData i :
  0 <= i ->
  chunk_bytes fileData i =
    take (Z.to_nat chunkSize) (drop (Z.to_nat (i * chunkSize)) (File.content fileData)).
Proof.
  intros Hi. unfold chunk_bytes, File.slice, File.size.
  pose proof chunkSize_pos as HC. set (C := chunkSize) in *. clearbody C.
  set (l := File.content fileData).
  assert (0 <= i * C) as HiC by (apply Z.mul_nonneg_nonneg; lia).
  destruct (Z.ltb_spec (i * C) 0) as [?|_]; [lia|].
  destruct (Z.ltb_spec (Z.min (i * C + C) (Z.of_nat (length l))) 0) as [?|_]; [lia|].
  destruct (Z.le_gt_cases (i * C) (Z.of_nat (length l))) as [Hle|Hgt].
  - rewrite (Z.min_l (i * C)) by lia.
    rewrite <- (take_min_length (drop _ l) (Z.to_nat C)).
    f_equal. rewrite length_drop. lia.
  - rewrite (drop_ge l (Z.to_nat (i * C))) by lia.
    rewrite take_nil.
    replace (Z.to_nat _) with 0%nat by lia. done.
Qed.

Lemma concat_chunk_bytes fileData (k : nat) :
  concat (chunk_bytes fileData <$> seqZ 0 (Z.of_nat k)) =
    take (Z.to_nat (Z.of_nat k * chunkSize)) (File.content fileData).
Proof.
  induction k as [|k IH].
  - done.
  - rewrite seqZ_S, fmap_app, concat_app, IH. cbn [fmap list_fmap concat].
    rewrite app_nil_r, chunk_bytes_take_drop by lia.
    rewrite Z.add_0_l, take_take_drop. f_equal.
    pose proof chunkSize_pos. nia.
Qed.

Lemma totalChunks_of_bounds fileData :
  (totalChunks_of fileData - 1) * chunkSize < File.size fileData
    <= totalChunks_of fileData * chunkSize.
Proof.
  rewrite totalChunks_of_eq. unfold chunkSize.
  pose proof (Z.div_mod (File.size fileData + 16383) 16384 ltac:(lia)).
  pose proof (Z.mod_pos_bound (File.size fileData + 16383) 16384 ltac:(lia)).
  lia.
Qed.

(** The chunks, in index order, are the file: nothing is lost, repeated
    or padded. *)
Lemma concat_all_chunks fileData :
  concat (chunk_bytes fileData <$> seqZ 0 (totalChunks_of fileData)) = File.content fileData.
Proof.
  pose proof (totalChunks_of_nonneg fileData) as Hn.
  pose proof (totalChunks_of_bounds fileData) as [_ Hle].
  rewrite <- (Z2Nat.id (totalChunks_of fileData)) at 1 by done.
  rewrite concat_chunk_bytes, Z2Nat.id by done.
  apply take_ge. unfold File.size in Hle. lia.
Qed.

Lemma length_chunk_bytes fileData i :
  0 <= i < totalChunks_of fileData ->
  Z.of_nat (length (chunk_bytes fileData i)) =
    Z.min ((i + 1) * chunkSize) (File.size fileData) - i * chunkSize.
Proof.
  intros Hi. pose proof (totalChunks_of_bounds fileData) as [Hlt _].
  rewrite chunk_bytes_take_drop by lia. rewrite length_take, length_drop.
  unfold File.size in *. pose proof chunkSize_pos. nia.
Qed.

Lemma length_concat {A} (ls : list (list A)) :
  length (concat ls) = sum_list (length <$> ls).
Proof. induction ls as [|l ls IH]; [done|]. cbn. by rewrite length_app, IH. Qed.

(** *** Base64 *)

Lemma base64_digit_value_digit n :
  (n < 64)%N ->
  base64_digit_value (base64_digit n) = Some n /\ base64_digit n <> "="%char.
Proof.
  intros Hn.
  assert (H : forallb (fun k => match base64_digit_value (base64_digit (N.of_nat k)) with
                                | Some v => (v =? N.of_nat k)%N
                                | None => false
                                end && negb (Ascii.eqb (base64_digit (N.of_nat k)) "="))
                      (seq 0 64) = true) by (vm_compute; reflexivity).
  pose proof (proj1 (forallb_forall _ _) H (N.to_nat n)) as Hk.
  cbv beta in Hk. rewrite N2Nat.id in Hk.
  destruct (andb_prop _ _ (Hk ltac:(apply in_seq; lia))) as [H1 H2].
  destruct (base64_digit_value (base64_digit n)) as [v|]; [|discriminate].
  apply N.eqb_eq in H1 as ->. split; [done|].
  intros Heq. rewrite Heq in H2. discriminate.
Qed.

Lemma byte_bound (b : byte) : (Byte.to_N b < 256)%N.
Proof. by destruct b. Qed.

Ltac N_euclid := zify; Z.to_euclidean_division_equations; lia.

(** What [base64] writes, [atob] reads back: the text carries the bytes. *)
Lemma atob_base64 bytes : atob (base64 bytes) = Some bytes.
Proof.
  remember (length bytes) as n eqn:Hn. revert bytes Hn.
  induction n as [n IH] using lt_wf_ind. intros bytes Hn.
  destruct bytes as [|a [|b [|c rest]]]; [done| | |]; cbn [base64 atob].
  - pose proof (byte_bound a). set (x := Byte.to_N a) in *.
    destruct (base64_digit_value_digit (x / 4)) as [-> _]; [N_euclid|].
    destruct (base64_digit_value_digit (x mod 4 * 16)) as [-> _]; [N_euclid|].
    cbn [mbind option_bind].
    replace (x / 4 * 4 + x mod 4 * 16 / 16)%N with x by N_euclid.
    change (Byte.of_N x) with (Byte.of_N (Byte.to_N a)). rewrite Byte.of_to_N.
    cbn [mbind option_bind].
    replace (x mod 4 * 16 mod 16 =? 0)%N with true by (symmetry; apply N.eqb_eq; N_euclid).
    done.
  - pose proof (byte_bound a). pose proof (byte_bound b).
    set (x := Byte.to_N a) in *. set (y := Byte.to_N b) in *.
    destruct (base64_digit_value_digit (x / 4)) as [-> _]; [N_euclid|].
    destruct (base64_digit_value_digit (x mod 4 * 16 + y / 16)) as [-> _]; [N_euclid|].
    destruct (base64_digit_value_digit (y mod 16 * 4)) as [-> Hpad]; [N_euclid|].
    cbn [mbind option_bind].
    replace (x / 4 * 4 + (x mod 4 * 16 + y / 16) / 16)%N with x by N_euclid.
    change (Byte.of_N x) with (Byte.of_N (Byte.to_N a)). rewrite Byte.of_to_N.
    cbn [mbind option_bind].
    rewrite (proj2 (Ascii.eqb_neq _ _) Hpad).
    replace ((x mod 4 * 16 + y / 16) mod 16 * 16 + y mod 16 * 4 / 4)%N with y by N_euclid.
    change (Byte.of_N y) with (Byte.of_N (Byte.to_N b)). rewrite Byte.of_to_N.
    cbn [mbind option_bind].
    replace (y mod 16 * 4 mod 4 =? 0)%N with true by (symmetry; apply N.eqb_eq; N_euclid).
    done.
  - pose proof (byte_bound a). pose proof (byte_bound b). pose proof (byte_bound c).
    set (x := Byte.to_N a) in *. set (y := Byte.to_N b) in *. set (z := Byte.to_N c) in *.
    destruct (base64_digit_value_digit (x / 4)) as [-> _]; [N_euclid|].
    destruct (base64_digit_value_digit (x mod 4 * 16 + y / 16)) as [-> _]; [N_euclid|].
    destruct (base64_digit_value_digit (y mod 16 * 4 + z / 64)) as [-> Hpad3]; [N_euclid|].
    destruct (base64_digit_value_digit (z mod 64)) as [-> Hpad4]; [N_euclid|].
    cbn [mbind option_bind].
    replace (x / 4 * 4 + (x mod 4 * 16 + y / 16) / 16)%N with x by N_euclid.
    change (Byte.of_N x) with (Byte.of_N (Byte.to_N a)). rewrite Byte.of_to_N.
    cbn [mbind option_bind].
    rewrite (proj2 (Ascii.eqb_neq _ _) Hpad3).
    replace ((x mod 4 * 16 + y / 16) mod 16 * 16 + (y mod 16 * 4 + z / 64) / 4)%N
      with y by N_euclid.
    change (Byte.of_N y) with (Byte.of_N (Byte.to_N b)). rewrite Byte.of_to_N.
    cbn [mbind option_bind].
    rewrite (proj2 (Ascii.eqb_neq _ _) Hpad4).
    replace ((y mod 16 * 4 + z / 64) mod 4 * 64 + z mod 64)%N with z by N_euclid.
    change (Byte.of_N z) with (Byte.of_N (Byte.to_N c)). rewrite Byte.of_to_N.
    cbn [mbind option_bind].
    rewrite (IH (length rest)); [done | subst n; cbn; lia | done].
Qed.

Lemma imap_fmap_seqZ {A B} (f : Z -> A) (g : Z -> A -> B) (n : Z) :
  imap (fun i a => g (Z.of_nat i) a) (f <$> seqZ 0 n) = (fun i => g i (f i)) <$> seqZ 0 n.
Proof.
  apply list_eq. intros i.
  rewrite list_lookup_imap, !list_lookup_fmap.
  destruct (seqZ 0 n !! i) as [x|] eqn:Hx; [|done].
  apply lookup_seqZ in Hx as [-> _]. cbn. by rewrite Z.add_0_l.
Qed.

(** C2. A transfer that succeeds sends [totalChunks = ceil(S / C)] chunk
    messages for a payload of [S] bytes, with [C = 16384]: [totalChunks]
    is the integer with [(totalChunks - 1) * C < S <= totalChunks * C],
    and it is the [chunks] of the header and the [total_chunks] of every
    chunk message.  After the header the chunk messages go out in index
    order.  The [data] of message [i] is the base64 text of the bytes of
    the file in [[i * C, min ((i + 1) * C) S)], text from which [atob]
    gives these bytes back.  The chunks put end to end are the file, so
    their lengths add up to [S], and the last chunk has
    [S - (totalChunks - 1) * C] bytes, without padding. *)
Theorem transferFileToPeer_chunking peerId fileData w s w' s' :
  transferFileToPeer peerId fileData w s = (Normal true, w', s') ->
  let content := File.content fileData in
  let S := Z.of_nat (length content) in
  let C := 16384 in
  exists (totalChunks : Z) (chunks : list (list byte)),
    (totalChunks - 1) * C < S <= totalChunks * C /\
    Z.of_nat (length chunks) = totalChunks /\
    (exists marker,
       sends w w'
         (JSON_stringify (JObj [("type", JStr "file_metadata");
                                ("name", JStr (File.name fileData));
                                ("size", JNum S);
                                ("chunks", JNum totalChunks)])
            :: imap (fun i bytes =>
                       JSON_stringify (JObj [("type", JStr "file_chunk");
                                             ("chunk_index", JNum (Z.of_nat i));
                                             ("total_chunks", JNum totalChunks);
                                             ("data", JStr (base64 bytes))])) chunks
            ++ marker) /\
       (marker = [] \/
        marker = [JSON_stringify (JObj [("type", JStr "transfer_complete");
                                        ("fileName", JStr (File.name fileData))])])) /\
    (forall (i : nat) bytes,
       chunks !! i = Some bytes ->
       atob (base64 bytes) = Some bytes /\
       bytes = take (Z.to_nat (Z.min ((Z.of_nat i + 1) * C) S - Z.of_nat i * C))
                    (drop (Z.to_nat (Z.of_nat i * C)) content)) /\
    concat chunks = content /\
    Z.of_nat (sum_list (length <$> chunks)) = S /\
    (0 < totalChunks ->
       exists final, last chunks = Some final /\
                     Z.of_nat (length final) = S - (totalChunks - 1) * C).
Proof.
  intros Hrun content S C.
  set (n := totalChunks_of fileData).
  pose proof (totalChunks_of_bounds fileData) as Hbounds.
  pose proof (totalChunks_of_nonneg fileData) as Hn. fold n in Hbounds, Hn.
  exists n, (chunk_bytes fileData <$> seqZ 0 n).
  split; [exact Hbounds|]. split.
  { rewrite length_fmap, length_seqZ. lia. }
  split.
  { pose proof (transferFileToPeer_sends peerId fileData w s) as H.
    rewrite Hrun in H. cbn zeta in H. fold n in H.
    destruct H as (marker & H & Hmarker). exists marker. split; [|exact Hmarker].
    rewrite (imap_fmap_seqZ (chunk_bytes fileData)
               (fun i bytes => JSON_stringify (file_chunk i n (base64 bytes)))).
    exact H. }
  split.
  { intros i bytes Hi. split; [apply atob_base64|].
    rewrite list_lookup_fmap in Hi.
    destruct (seqZ 0 n !! i) as [x|] eqn:Hx; [|done].
    apply lookup_seqZ in Hx as [-> Hlt]. rewrite Z.add_0_l in Hi.
    injection Hi as <-.
    assert (Hrange : 0 <= Z.of_nat i < totalChunks_of fileData) by (fold n; lia).
    rewrite chunk_bytes_take_drop by lia.
    pose proof (length_chunk_bytes fileData (Z.of_nat i) Hrange) as Hlen.
    rewrite chunk_bytes_take_drop in Hlen by lia.
    change (File.size fileData) with S in Hlen. change chunkSize with C in Hlen |- *.
    fold content in Hlen |- *.
    rewrite <- Hlen, length_take. by rewrite Nat2Z.id, take_min_length. }
  split; [apply concat_all_chunks|]. split.
  { rewrite <- length_concat. unfold n. by rewrite concat_all_chunks. }
  intros Hpos. exists (chunk_bytes fileData (n - 1)). split.
  - replace n with (Z.of_nat (Datatypes.S (Z.to_nat (n - 1)))) at 1 by lia.
    rewrite seqZ_S, fmap_app. cbn [fmap list_fmap]. rewrite last_snoc.
    do 2 f_equal. lia.
  - unfold n. rewrite length_chunk_bytes by (fold n; lia).
    fold n. change (File.size fileData) with S in Hbounds |- *.
    change chunkSize with 16384 in Hbounds |- *. unfold C. lia.
Qed.

(** C1. The header, the chunks in index order and the completion marker:
    the first two are checked by the code, the last is not.  The result
    of the final [sendDataToPeer] is dropped, so a channel that closes
    during the pause after the last chunk yields a transfer that reports
    success although no [transfer_complete] was handed to the channel.
    Here a five-byte file goes to peer "P"; its channel closes during the
    second suspension (the 10 ms pause after chunk 0). *)
Theorem transferFileToPeer_true_without_marker :
  let '(result, w', _) :=
    transferFileToPeer "P" hello_txt (manager_with_channel "P" ch_open)
                       [quiet; channel_closes] in
  result = Normal true /\
  channel_sends (trace w') =
    [JSON_stringify (file_metadata hello_txt); chunk_text hello_txt 1 0] /\
  JSON_stringify (transfer_complete hello_txt) ∉ channel_sends (trace w').
Proof.
  vm_compute. split; [reflexivity|]. split; [reflexivity|].
  intros H. repeat (apply elem_of_cons in H as [H|H]; [discriminate H|]).
  by apply elem_of_nil in H.
Qed.

(** ** Sending to a peer that is not connected *)

(** C5. When [dataChannels] has no channel for the peer, or has one that
    is not open, [sendDataToPeer] returns [false] and [transferFileToPeer]
    returns [false]: the caller is told of the failure, which is logged
    as "Failed to send file metadata".  Nothing is handed to any channel
    and the method does not suspend, so no second attempt is made: the
    schedule it was given comes back untouched. *)
Theorem transferFileToPeer_not_connected peerId fileData w s :
  (forall channel, dataChannels (this w) !! peerId = Some channel ->
                   readyState channel <> ch_open) ->
  sendDataToPeer peerId (file_metadata fileData) w = (false, w) /\
  transferFileToPeer peerId fileData w s =
    (Normal false,
     emit (console_error [Str "File transfer failed:";
                          Exn (Error "Failed to send file metadata")]) w,
     s).
Proof.
  intros Hclosed.
  pose proof (sendDataToPeer_closed peerId (file_metadata fileData) w Hclosed) as Hsend.
  split; [done|].
  unfold transferFileToPeer, try_catch, mbind, Async_bind, sync, throw, perform.
  by rewrite Hsend.
Qed.

Lemma transferFileToPeer_not_connected_witness :
  (forall channel,
     dataChannels (this (manager_with_channel "P" ch_closing)) !! "P" = Some channel ->
     readyState channel <> ch_open) /\
  fst (fst (transferFileToPeer "P" hello_txt (manager_with_channel "P" ch_closing)
                               [channel_closes]))
    = Normal false.
Proof.
  assert (H : forall channel,
     dataChannels (this (manager_with_channel "P" ch_closing)) !! "P" = Some channel ->
     readyState channel <> ch_open).
  { intros channel. vm_compute. intros [= <-]. discriminate. }
  split; [exact H|].
  destruct (transferFileToPeer_not_connected "P" hello_txt
              (manager_with_channel "P" ch_closing) [channel_closes] H) as [_ ->].
  reflexivity.
Defined.

(** ** Transfers carry no identifier *)

Lemma no_transferId_texts fileData : Forall no_transferId (transfer_texts fileData).
Proof.
  unfold transfer_texts. constructor; [reflexivity|].
  apply Forall_app. split; [|by repeat constructor].
  apply Forall_fmap, Forall_forall. intros i _. reflexivity.
Qed.

(** C4, as the code has it.  Whatever a call of [transferFileToPeer]
    hands to the channel is an initial part of the sequence header,
    chunks, completion marker, and that sequence is determined by the
    file alone.  None of its messages has a [transferId] property: the
    header is [{type, name, size, chunks}], a chunk is
    [{type, chunk_index, total_chunks, data}] and the marker is
    [{type, fileName}]. *)
Theorem transferFileToPeer_no_transferId peerId fileData w s :
  let '(_, w', _) := transferFileToPeer peerId fileData w s in
  exists texts,
    sends w w' texts /\
    texts `prefix_of` transfer_texts fileData /\
    Forall no_transferId texts.
Proof.
  pose proof (transferFileToPeer_sends peerId fileData w s) as H. cbn zeta in H.
  destruct (transferFileToPeer peerId fileData w s) as [[[[|]|e] w'] s']; [| |done].
  - destruct H as (marker & H & [->| ->]); eexists; (split; [exact H|]).
    + assert (Hp : (JSON_stringify (file_metadata fileData)
                :: (chunk_text fileData (totalChunks_of fileData)
                      <$> seqZ 0 (totalChunks_of fileData)) ++ [])
               `prefix_of` transfer_texts fileData).
      { unfold transfer_texts. apply prefix_cons, prefix_app, prefix_nil. }
      split; [exact Hp|].
      destruct Hp as [k Hk]. pose proof (no_transferId_texts fileData) as F.
      rewrite Hk in F. by apply Forall_app in F as [F _].
    + split; [done|]. apply no_transferId_texts.
  - assert (Hp : forall texts, texts `prefix_of` transfer_texts fileData ->
                               texts `prefix_of` transfer_texts fileData /\
                               Forall no_transferId texts).
    { intros texts Hp. split; [done|]. destruct Hp as [k Hk].
      pose proof (no_transferId_texts fileData) as F.
      rewrite Hk in F. by apply Forall_app in F as [F _]. }
    destruct H as [H|(j & Hj & H)]; eexists; (split; [exact H|]); apply Hp.
    + apply prefix_nil.
    + unfold transfer_texts. apply prefix_cons.
      assert (Hsplit : seqZ 0 (totalChunks_of fileData) =
                seqZ 0 j ++ seqZ (0 + j) (totalChunks_of fileData - j)).
      { rewrite <- seqZ_app by lia. f_equal. lia. }
      rewrite Hsplit, fmap_app, <- app_assoc. by eexists.
Qed.

(** C4, as stated, fails: in this successful transfer no message carries
    a [transferId], and a second transfer of the same file to the same
    peer hands over the very same texts, so the receiver cannot tell the
    two apart. *)
Lemma transferFileToPeer_transferId_absent :
  let '(result, w1, _) :=
    transferFileToPeer "P" hello_txt (manager_with_channel "P" ch_open) [] in
  let '(result', w2, _) := transferFileToPeer "P" hello_txt w1 [] in
  result = Normal true /\ result' = Normal true /\
  channel_sends (trace w1) <> [] /\
  Forall no_transferId (channel_sends (trace w1)) /\
  channel_sends (trace w2) = channel_sends (trace w1) ++ channel_sends (trace w1).
Proof.
  vm_compute. repeat split; try discriminate.
  repeat constructor.
Qed.

(** ** Receiving *)

(** C3, as the code has it.  The receiving side keeps no transfer
    session.  A message changes no field of the manager, and what is done
    with it depends on the message alone, not on what was received
    before.  Text that parses is passed to [onDataReceived], which writes
    to the console and does nothing else.  A [transfer_complete] message
    is logged as "File transfer completed: <fileName>", whatever was
    received before it, when its [fileName] converts to a string, as a
    name sent by [transferFileToPeer] does; when the conversion throws,
    [channel.onmessage] reports the error on the console.  There is no
    check of chunk indices, no aborted state and no failure event. *)
Theorem channel_onmessage_keeps_no_session peerId text w :
  this (channel_onmessage peerId text w) = this w /\
  (forall w0, this w0 = this w ->
     exists es, trace (channel_onmessage peerId text w) = trace w ++ es /\
                trace (channel_onmessage peerId text w0) = trace w0 ++ es) /\
  (forall data,
     JSON_parse text = Normal data -> onDataReceived (this w) = true ->
     exists es,
       trace (channel_onmessage peerId text w) =
         trace w ++ call_onDataReceived peerId data
                 :: console_log [Str ("Received data from " +:+ peerId +:+ ":"); Val data]
                 :: es /\
       Forall is_console es) /\
  (forall data fileName,
     JSON_parse text = Normal data -> onDataReceived (this w) = true ->
     get data "type" = Normal (JStr "transfer_complete") ->
     get data "fileName" = Normal fileName ->
     trace (channel_onmessage peerId text w) =
       trace w ++ [call_onDataReceived peerId data;
                   console_log [Str ("Received data from " +:+ peerId +:+ ":"); Val data];
                   if ToPrimitive_throws fileName
                   then parse_failure TypeError_primitive
                   else completion_log fileName]).
Proof.
  split; [|split; [|split]].
  - apply channel_onmessage_this.
  - intros w0 H0. unfold channel_onmessage, App_onDataReceived, console_log_template.
    cbn [this emit]. rewrite H0.
    destruct (JSON_parse text) as [d|e]; [|by eexists].
    destruct (onDataReceived (this w)); [|exists []; by rewrite !app_nil_r].
    destruct (get d "type") as [ty|e];
      repeat match goal with |- context [if ?b then _ else _] => destruct b end;
      cbn [trace emit]; eexists;
      (split; [by repeat (rewrite <- app_assoc; cbn [app])
              |by repeat (rewrite <- app_assoc; cbn [app])]).
  - intros data Hparse Hreg.
    unfold channel_onmessage, App_onDataReceived, console_log_template.
    rewrite Hparse, Hreg. cbn [this emit].
    destruct (get data "type") as [ty|e];
      repeat match goal with |- context [if ?b then _ else _] => destruct b end;
      cbn [trace emit]; eexists;
      (split; [by repeat (rewrite <- app_assoc; cbn [app]) | by repeat constructor]).
  - intros data fileName Hparse Hreg Htype Hname.
    unfold channel_onmessage, App_onDataReceived, console_log_template.
    rewrite Hparse, Hreg, Htype, Hname. cbn [strict_eq_str String.eqb Ascii.eqb Bool.eqb].
    cbn [template_throws existsb orb]. rewrite orb_false_r.
    destruct (ToPrimitive_throws fileName); cbn [trace emit];
      by repeat (rewrite <- app_assoc; cbn [app]).
Qed.

Lemma channel_onmessage_keeps_no_session_witness :
  trace (channel_onmessage "P" (JSON_stringify (transfer_complete hello_txt))
                           (manager_with_channel "P" ch_open)) =
    [call_onDataReceived "P" (transfer_complete hello_txt);
     console_log [Str "Received data from P:"; Val (transfer_complete hello_txt)];
     completion_log (JStr "a.txt")].
Proof.
  apply (proj2 (proj2 (proj2 (channel_onmessage_keeps_no_session "P"
                  (JSON_stringify (transfer_complete hello_txt))
                  (manager_with_channel "P" ch_open))))
           _ _ eq_refl eq_refl eq_refl eq_refl).
Defined.

(** C3, as stated, fails: the header announces two chunks, only chunk 0
    arrives, then the completion marker.  Index 1 was never observed, yet
    the transfer is logged as completed, nothing reports a failure and
    the manager is in the state it was in before. *)
Lemma completion_logged_with_gap :
  let received :=
    [JObj [("type", JStr "file_metadata"); ("name", JStr "a.txt");
           ("size", JNum 20000); ("chunks", JNum 2)];
     file_chunk 0 2 "aGVsbG8=";
     transfer_complete hello_txt] in
  let w := manager_with_channel "P" ch_open in
  all_indices_observed 2 received = false /\
  completion_log (JStr "a.txt") ∈ trace (receive "P" received w) /\
  Forall (fun e => ~ is_failure_report e) (trace (receive "P" received w)) /\
  this (receive "P" received w) = this w.
Proof.
  vm_compute. split; [reflexivity|]. split.
  - do 8 apply list_elem_of_further. apply list_elem_of_here.
  - split; [|reflexivity]. repeat constructor; tauto.
Qed.

(** ** Notifications of the peer lifecycle *)


Lemma cleanupPeerConnection_trace p w :
  trace (cleanupPeerConnection p w) =
    trace w ++ option_list (pc_close ∘ pc_id <$> peerConnections (this w) !! p)
            ++ option_list (channel_close ∘ ch_id <$> dataChannels (this w) !! p).
Proof.
  unfold cleanupPeerConnection.
  destruct (peerConnections (this w) !! p) as [pc|];
    cbn; destruct (dataChannels (this w) !! p) as [ch|]; cbn;
    by rewrite <- ?app_assoc, ?app_nil_r.
Qed.





(** ** Effects of asynchronous methods *)

Section AsyncExtends.
Context (P : Effect -> Prop).
Hypothesis handlers_in_P : forall e, by_handler e -> P e.

Lemma mret_extends {A} (a : A) : Async_extends P (mret a).
Proof. intros w s. apply extends_refl. Qed.

Lemma throw_extends {A} e : Async_extends P (@throw A e).
Proof. intros w s. apply extends_refl. Qed.

Lemma gets_extends {A} (f : World -> A) : Async_extends P (gets f).
Proof. intros w s. apply extends_refl. Qed.

Lemma bind_extends {A B} (m : Async A) (k : A -> Async B) :
  Async_extends P m -> (forall a, Async_extends P (k a)) -> Async_extends P (m ≫= k).
Proof.
  intros Hm Hk w s. unfold mbind, Async_bind.
  specialize (Hm w s). destruct (m w s) as [[[a|e] w1] s1]; cbn in *; [|done].
  eapply extends_trans; [exact Hm | apply Hk].
Qed.

Lemma try_catch_extends {A} (body : Async A) handler :
  Async_extends P body -> (forall e, Async_extends P (handler e)) ->
  Async_extends P (try_catch body handler).
Proof.
  intros Hb Hh w s. unfold try_catch.
  specialize (Hb w s). destruct (body w s) as [[[a|e] w1] s1]; cbn in *; [done|].
  eapply extends_trans; [exact Hb | apply Hh].
Qed.

Lemma emit_extends e : P e -> Async_extends P (perform (emit e)).
Proof. intros He w s. by apply extends_emit. Qed.

Lemma perform_extends f :
  (forall w, extends P w (f w)) -> Async_extends P (perform f).
Proof. intros Hf w s. apply Hf. Qed.

Lemma await_resumed_extends : Async_extends P await_resumed.
Proof.
  intros w s. unfold await_resumed. destruct (next_tick s) as [t s']. cbn.
  eapply extends_weaken; [exact handlers_in_P | apply run_events_extends].
Qed.

Lemma await_platform_extends : Async_extends P await_platform.
Proof.
  intros w s. unfold await_platform. destruct (next_tick s) as [t s'].
  destruct (settles t); cbn;
    (eapply extends_weaken; [exact handlers_in_P | apply run_events_extends]).
Qed.

Lemma pc_call_extends call : P call -> Async_extends P (pc_call call).
Proof.
  intros Hc. apply bind_extends; [by apply emit_extends|].
  intros _. apply await_platform_extends.
Qed.

Lemma await_extends {A} (m : Async A) : Async_extends P m -> Async_extends P (await m).
Proof.
  intros Hm. apply bind_extends; [done|]. intros a.
  apply bind_extends; [apply await_resumed_extends|]. intros _. apply mret_extends.
Qed.

Lemma sendSignalingMessage_extends message w :
  extends P w (sendSignalingMessage message w).
Proof.
  unfold sendSignalingMessage.
  destruct (_ && _); [|apply extends_refl]. by apply extends_emit, handlers_in_P.
Qed.

Lemma createPeerConnection_extends peerId :
  (forall pc, P (new_RTCPeerConnection pc)) -> Async_extends P (createPeerConnection peerId).
Proof.
  intros HP w s. unfold createPeerConnection, sync. cbn.
  eapply extends_trans; [|apply extends_with_this].
  exists [new_RTCPeerConnection (nextObj w)]. split; [done|]. by repeat constructor.
Qed.
End AsyncExtends.

Lemma handleAnswer_extends P peerId answer :
  (forall e, by_handler e -> P e) -> (forall pc d, P (pc_setRemoteDescription pc d)) ->
  Async_extends P (handleAnswer peerId answer).
Proof.
  intros HP Hset. apply try_catch_extends.
  - apply bind_extends; [apply gets_extends|]. intros [pc|]; [|apply mret_extends].
    apply bind_extends; [by apply pc_call_extends|]. intros _. apply mret_extends.
  - intros e. by apply emit_extends, HP.
Qed.

Lemma handleOffer_extends P peerId offer :
  (forall e, by_handler e -> P e) ->
  (forall pc, P (new_RTCPeerConnection pc)) ->
  (forall pc d, P (pc_setRemoteDescription pc d)) ->
  (forall pc, P (pc_createAnswer pc)) ->
  (forall pc d, P (pc_setLocalDescription pc d)) ->
  Async_extends P (handleOffer peerId offer).
Proof.
  intros HP Hnew Hremote Hanswer Hlocal. apply try_catch_extends.
  - apply bind_extends; [by apply await_extends, createPeerConnection_extends|]. intros pc.
    apply bind_extends; [by apply pc_call_extends|]. intros _.
    apply bind_extends; [by apply pc_call_extends|]. intros answer.
    apply bind_extends; [by apply pc_call_extends|]. intros _.
    apply perform_extends. intros w. by apply sendSignalingMessage_extends.
  - intros e. by apply emit_extends, HP.
Qed.

Lemma extends_ice_calls w w' :
  extends (fun e => ice_call e = None) w w' ->
  exists es, trace w' = trace w ++ es /\ ice_calls es = [].
Proof.
  intros (es & H & F). exists es. split; [done|]. clear H.
  unfold ice_calls. induction F as [|e es He _ IH]; [done|]. cbn. by rewrite He.
Qed.

Lemma by_handler_no_ice e : by_handler e -> ice_call e = None.
Proof. by destruct e. Qed.

(** ** ICE candidates *)

(** C6, as the code has it.  [handleIceCandidate] never fails.  When a
    connection is registered for the peer, the candidate is handed to its
    [addIceCandidate] at once, whether or not a remote description has
    been applied, and to nothing afterwards: one suspension, and no
    further [addIceCandidate] call.  If the platform rejects the
    candidate, the rejection is written to [console.error] and that is
    all; if it accepts, the method does nothing more.  When no connection
    is registered the candidate is discarded: the world and the schedule
    are unchanged.  The manager has no field that holds candidates, and
    neither [handleAnswer] nor [handleOffer], which apply the remote
    description, makes any [addIceCandidate] call. *)
Theorem handleIceCandidate_immediate peerId candidate w s :
  (let '(result, w', s') := handleIceCandidate peerId candidate w s in
   result = Normal tt /\
   match peerConnections (this w) !! peerId with
   | Some peerConnection =>
       let tick := nth 0 s quiet in
       let handed :=
         run_events (during tick)
                    (emit (pc_addIceCandidate (pc_id peerConnection) candidate) w) in
       s' = tail s /\
       w' = match settles tick with
            | Fulfilled _ => handed
            | Rejected error =>
                emit (console_error [Str "Failed to handle ICE candidate:"; Exn error])
                     handed
            end /\
       exists es, trace w' = trace w ++ pc_addIceCandidate (pc_id peerConnection) candidate :: es /\
                  ice_calls es = []
   | None => w' = w /\ s' = s
   end) /\
  (forall answer,
     exists es, trace (handleAnswer peerId answer w s).1.2 = trace w ++ es /\ ice_calls es = []) /\
  (forall offer,
     exists es, trace (handleOffer peerId offer w s).1.2 = trace w ++ es /\ ice_calls es = []).
Proof.
  split; [|split].
  - unfold handleIceCandidate, try_catch, pc_call, mbind, Async_bind, gets, perform,
      await_platform.
    destruct (peerConnections (this w) !! peerId) as [pc|]; cbn; [|done].
    rewrite next_tick_nth.
    destruct (run_events_extends (during (nth 0 s quiet))
                (emit (pc_addIceCandidate (pc_id pc) candidate) w)) as (es & H & F).
    assert (N : ice_calls es = []).
    { clear H. unfold ice_calls. induction F as [|e es He _ IH]; [done|].
      cbn. by rewrite (by_handler_no_ice e He). }
    destruct (settles (nth 0 s quiet)); cbn;
      (split; [done|]); (split; [done|]); (split; [done|]); rewrite H; cbn;
      rewrite <- !app_assoc; eexists; (split; [reflexivity|]); [done|].
    unfold ice_calls in *. by rewrite omap_app, N.
  - intros answer. apply extends_ice_calls, handleAnswer_extends; [apply by_handler_no_ice|done].
  - intros offer. apply extends_ice_calls, handleOffer_extends; (apply by_handler_no_ice || done).
Qed.

(** C6, as stated, fails.  Peer "P" has been offered a connection and no
    answer has come yet, so its connection has no remote description.  A
    candidate arrives and the platform rejects it for that reason; the
    answer arrives next and is applied.  The candidate was handed over
    once, before the description, and is never handed over again.  A
    candidate for a peer without a connection is discarded outright. *)
Lemma candidate_before_description_dropped :
  let offer := sdp "offer" "v=0 o=- 1" in
  let answer := sdp "answer" "v=0 o=- 2" in
  let '(_, w0, _) :=
    initiateConnection "P" manager_signaling [quiet; fulfilled offer; fulfilled JUndefined] in
  let '(_, w1, _) :=
    handleIceCandidate "P" a_candidate w0 [rejected (DOMException "InvalidStateError")] in
  let '(_, w2, _) := handleAnswer "P" answer w1 [fulfilled JUndefined] in
  trace w2 =
    [new_RTCPeerConnection 0;
     pc_createDataChannel 0 1 "fileTransfer";
     pc_createOffer 0;
     pc_setLocalDescription 0 offer;
     socket_send (JSON_stringify
                    (JObj [("type", JStr "offer"); ("to_client", JStr "P"); ("data", offer)]));
     pc_addIceCandidate 0 a_candidate;
     console_error [Str "Failed to handle ICE candidate:";
                    Exn (DOMException "InvalidStateError")];
     pc_setRemoteDescription 0 answer] /\
  handleIceCandidate "X" a_candidate w0 [] = (Normal tt, w0, []).
Proof. vm_compute. split; reflexivity. Qed.

(** ** Answering an offer *)




Lemma negotiation_calls_app es1 es2 :
  negotiation_calls (es1 ++ es2) = negotiation_calls es1 ++ negotiation_calls es2.
Proof. apply List.filter_app. Qed.

Lemma negotiation_calls_by_handler es :
  Forall by_handler es -> negotiation_calls es = [].
Proof.
  induction 1 as [|e es He _ IH]; [done|]. by destruct e.
Qed.

Lemma bind_run {A B} (m : Async A) (k : A -> Async B) w s :
  (m ≫= k) w s =
    match m w s with
    | (Normal a, w', s') => k a w' s'
    | (Throw e, w', s') => (Throw e, w', s')
    end.
Proof. reflexivity. Qed.

Lemma await_createPeerConnection_run peerId w s :
  await (createPeerConnection peerId) w s =
    (Normal {| pc_id := nextObj w; connectionState := pc_new |},
     run_events (during (nth 0 s quiet)) (createPeerConnection peerId w s).1.2,
     tail s).
Proof.
  unfold await. rewrite bind_run. cbn. rewrite bind_run.
  unfold await_resumed. by rewrite next_tick_nth.
Qed.




(** ** The example manager is a state the program reaches *)

(** The application wires its handlers, the signaling socket opens, the
    manager initiates a connection to "P", the connection becomes
    connected and its channel opens. *)
Example manager_with_channel_reached :
  let offer := sdp "offer" "v=0 o=- 1" in
  let '(result, w, _) :=
    initiateConnection "P" manager_signaling [quiet; fulfilled offer; fulfilled JUndefined] in
  let w' := run_events [ev_connectionstatechange 0 "P" pc_connecting;
                        ev_connectionstatechange 0 "P" pc_connected;
                        ev_readyState 1 "P" ch_open] w in
  result = Normal true /\
  this w' = this (manager_with_channel "P" ch_open) /\
  nextObj w' = nextObj (manager_with_channel "P" ch_open).
Proof. vm_compute. repeat split. Qed.

(** ** A transfer that nothing disturbs *)

Lemma uneventful_next_tick s :
  uneventful s -> during (next_tick s).1 = [] /\ uneventful (next_tick s).2.
Proof. intros [|t s' Ht Hs]; [by split; [|constructor]|by split]. Qed.

Lemma uneventful_drop k s : uneventful s -> uneventful (drop k s).
Proof. apply Forall_drop. Qed.

Lemma await_resumed_uneventful w s :
  uneventful s -> await_resumed w s = (Normal tt, w, tail s).
Proof.
  intros Hs. unfold await_resumed. rewrite next_tick_nth.
  destruct (uneventful_next_tick s Hs) as [Hd _]. rewrite next_tick_nth in Hd.
  cbn in Hd. by rewrite Hd.
Qed.

Lemma channel_send_sends ch text w : sends w (emit (channel_send ch text) w) [text].
Proof. apply (emit_sends (channel_send ch text)). Qed.

Lemma send_chunk_uneventful peerId fileData totalChunks i w s channel :
  dataChannels (this w) !! peerId = Some channel -> readyState channel = ch_open ->
  uneventful s ->
  exists w',
    send_chunk peerId fileData totalChunks i w s = (Normal tt, w', drop 2 s) /\
    sends w w' [chunk_text fileData totalChunks i] /\ this w' = this w.
Proof.
  intros Hch Hopen Hs.
  unfold send_chunk. rewrite bind_run, (await_resumed_uneventful w s Hs).
  fold (chunk_bytes fileData i). rewrite bind_run. unfold sync.
  destruct (sendDataToPeer_cases peerId
              (file_chunk i totalChunks (base64 (chunk_bytes fileData i))) w)
    as [(c & Hc & _ & ->)|[Hclosed _]]; [|by destruct (Hclosed channel Hch)].
  cbn [negb]. rewrite bind_run. unfold gets. cbn [this emit].
  rewrite bind_run.
  assert (Hs' : uneventful (tail s)) by (destruct s; [done | by inversion Hs]).
  destruct (onTransferProgress (this w)); unfold perform, mret, Async_ret;
    rewrite (await_resumed_uneventful _ (tail s) Hs');
    (eexists; split; [by destruct s as [|? [|? ?]] | split; [|done]]).
  - change [chunk_text fileData totalChunks i]
      with ([chunk_text fileData totalChunks i] ++ []).
    eapply sends_trans; [apply channel_send_sends|].
    apply (emit_sends (call_onTransferProgress _)).
  - apply channel_send_sends.
Qed.

Lemma for_range_uneventful peerId fileData totalChunks channel count : forall i w s,
  dataChannels (this w) !! peerId = Some channel -> readyState channel = ch_open ->
  uneventful s ->
  exists w',
    for_range i count (send_chunk peerId fileData totalChunks) w s
      = (Normal tt, w', drop (2 * count) s) /\
    sends w w' (chunk_text fileData totalChunks <$> seqZ i (Z.of_nat count)) /\
    this w' = this w.
Proof.
  induction count as [|k IH]; intros i w s Hch Hopen Hs.
  - exists w. split; [done|]. split; [apply sends_refl|done].
  - cbn [for_range]. rewrite bind_run.
    destruct (send_chunk_uneventful peerId fileData totalChunks i w s channel Hch Hopen Hs)
      as (w1 & -> & H1 & Ht1).
    destruct (IH (i + 1) w1 (drop 2 s)) as (w2 & -> & H2 & Ht2);
      [by rewrite Ht1 | done | by apply uneventful_drop |].
    exists w2. split; [|split].
    + f_equal. rewrite drop_drop. f_equal. lia.
    + rewrite seqZ_cons by lia. cbn [fmap list_fmap].
      replace (Z.pred (Z.of_nat (S k))) with (Z.of_nat k) by lia.
      apply (sends_trans _ _ _ [_] _ H1 H2).
    + by rewrite Ht2.
Qed.

(** When the peer's channel is open and no event is delivered while the
    transfer is suspended, the transfer succeeds for every file: it
    returns [true] after two suspensions per chunk, having handed over
    the header, every chunk in index order and the completion marker. *)
Lemma transferFileToPeer_uneventful peerId fileData w s channel :
  dataChannels (this w) !! peerId = Some channel -> readyState channel = ch_open ->
  uneventful s ->
  exists w',
    transferFileToPeer peerId fileData w s
      = (Normal true, w', drop (2 * Z.to_nat (totalChunks_of fileData)) s) /\
    sends w w' (transfer_texts fileData) /\ this w' = this w.
Proof.
  intros Hch Hopen Hs. unfold transferFileToPeer, try_catch.
  rewrite bind_run. unfold sync.
  destruct (sendDataToPeer_cases peerId (file_metadata fileData) w)
    as [(c & Hc & _ & ->)|[Hclosed _]]; [|by destruct (Hclosed channel Hch)].
  cbn [negb]. rewrite bind_run. fold (totalChunks_of fileData).
  destruct (for_range_uneventful peerId fileData (totalChunks_of fileData) channel
              (Z.to_nat (totalChunks_of fileData)) 0 (emit (channel_send (ch_id c)
                 (JSON_stringify (file_metadata fileData))) w) s Hch Hopen Hs)
    as (w1 & -> & H1 & Ht1).
  rewrite Z2Nat.id in H1 by apply totalChunks_of_nonneg.
  rewrite bind_run.
  destruct (sendDataToPeer_cases peerId (transfer_complete fileData) w1)
    as [(c' & Hc' & _ & ->)|[Hclosed _]];
    [|rewrite Ht1 in Hclosed; by destruct (Hclosed channel Hch)].
  eexists. split; [reflexivity|]. split; [|exact Ht1].
  unfold transfer_texts.
  change (JSON_stringify (file_metadata fileData) :: ?l)
    with ([JSON_stringify (file_metadata fileData)] ++ l).
  eapply sends_trans; [apply channel_send_sends|].
  eapply sends_trans; [exact H1|]. apply channel_send_sends.
Qed.

(** A transfer of two chunks: 16384 bytes, then one. *)
Lemma transferFileToPeer_chunking_witness :
  exists w' totalChunks chunks,
    transferFileToPeer "P" two_chunks_bin (manager_with_channel "P" ch_open) []
      = (Normal true, w', []) /\
    totalChunks = 2 /\
    Z.of_nat ∘ length <$> chunks = [16384; 1] /\
    concat chunks = File.content two_chunks_bin.
Proof.
  destruct (transferFileToPeer_uneventful "P" two_chunks_bin
              (manager_with_channel "P" ch_open) [] {| ch_id := 1; readyState := ch_open |}
              eq_refl eq_refl ltac:(constructor)) as (w' & Hrun & _).
  rewrite drop_nil in Hrun.
  destruct (transferFileToPeer_chunking "P" two_chunks_bin
              (manager_with_channel "P" ch_open) [] w' [] Hrun)
    as (n & chunks & Hn & Hlen & _ & Hbytes & Hcat & _).
  exists w', n, chunks. split; [exact Hrun|].
  assert (Hsize : Z.of_nat (length (File.content two_chunks_bin)) = 16385)
    by (vm_compute; reflexivity).
  rewrite Hsize in Hn, Hbytes.
  assert (Hn2 : n = 2) by lia. split; [exact Hn2|]. split; [|exact Hcat].
  rewrite Hn2 in Hlen.
  destruct chunks as [|c0 [|c1 [|c2 chunks]]]; cbn in Hlen; try lia.
  destruct (Hbytes 0%nat c0 eq_refl) as [_ ->].
  destruct (Hbytes 1%nat c1 eq_refl) as [_ ->].
  vm_compute. reflexivity.
Defined.

(** ** Checks on concrete inputs *)

Example base64_of_Man : base64 (list_byte_of_string "Man") = "TWFu".
Proof. reflexivity. Qed.

Example base64_of_Ma : base64 (list_byte_of_string "Ma") = "TWE=".
Proof. reflexivity. Qed.

Example base64_of_M : base64 (list_byte_of_string "M") = "TQ==".
Proof. reflexivity. Qed.

Example chunks_of_sizes :
  Math_ceil (inject_Z 0 / inject_Z chunkSize) = 0 /\
  Math_ceil (inject_Z 1 / inject_Z chunkSize) = 1 /\
  Math_ceil (inject_Z 16384 / inject_Z chunkSize) = 1 /\
  Math_ceil (inject_Z 16385 / inject_Z chunkSize) = 2.
Proof. repeat split. Qed.

(** An empty file: the header and the marker, and no chunk between. *)
Example transfer_of_empty_file :
  let empty := {| File.name := "empty"; File.content := [] |} in
  let '(result, w', _) := transferFileToPeer "P" empty (manager_with_channel "P" ch_open) [] in
  result = Normal true /\
  channel_sends (trace w') =
    [JSON_stringify (file_metadata empty); JSON_stringify (transfer_complete empty)].
Proof. vm_compute. split; reflexivity. Qed.

(** * Further properties of the manager *)

(** ** Teardown *)

Lemma cleanupPeerConnection_lookup p q w :
  peerConnections (this (cleanupPeerConnection p w)) !! q =
    (if decide (p = q) then None else peerConnections (this w) !! q) /\
  dataChannels (this (cleanupPeerConnection p w)) !! q =
    (if decide (p = q) then None else dataChannels (this w) !! q).
Proof.
  unfold cleanupPeerConnection.
  destruct (peerConnections (this w) !! p) as [pc|] eqn:Hpc;
    destruct (dataChannels (this w) !! p) as [ch|] eqn:Hch;
    cbn; rewrite ?Hch, ?Hpc; cbn;
    destruct (decide (p = q)) as [<-|Hne];
    rewrite ?JSMap_lookup_delete_eq, ?JSMap_lookup_delete_ne by done; done.
Qed.

Lemma cleanupPeerConnection_absent p w :
  peerConnections (this w) !! p = None -> dataChannels (this w) !! p = None ->
  cleanupPeerConnection p w = w.
Proof. intros Hpc Hch. unfold cleanupPeerConnection. by rewrite Hpc, Hch. Qed.

(** X1. Tearing a peer down twice is the same as tearing it down once:
    the second [cleanupPeerConnection(peerId)] finds no entry, closes
    nothing and changes nothing. *)
Theorem cleanupPeerConnection_idempotent peerId w :
  cleanupPeerConnection peerId (cleanupPeerConnection peerId w) =
    cleanupPeerConnection peerId w.
Proof.
  apply cleanupPeerConnection_absent.
  - rewrite (proj1 (cleanupPeerConnection_lookup peerId peerId w)). by case_decide.
  - rewrite (proj2 (cleanupPeerConnection_lookup peerId peerId w)). by case_decide.
Qed.

Lemma fold_cleanup_lookup peers : forall w q,
  peerConnections
    (this (foldl (fun w peerId => cleanupPeerConnection peerId w) w peers)) !! q =
    (if decide (q ∈ peers) then None else peerConnections (this w) !! q) /\
  dataChannels
    (this (foldl (fun w peerId => cleanupPeerConnection peerId w) w peers)) !! q =
    (if decide (q ∈ peers) then None else dataChannels (this w) !! q).
Proof.
  induction peers as [|p peers IH]; intros w q; cbn [foldl].
  - split; case_decide as H; try done; by apply elem_of_nil in H.
  - destruct (IH (cleanupPeerConnection p w) q) as [-> ->].
    rewrite (proj1 (cleanupPeerConnection_lookup p q w)),
            (proj2 (cleanupPeerConnection_lookup p q w)).
    split; repeat case_decide; subst; try done;
      try (exfalso; match goal with H : _ ∉ _ :: _ |- _ => apply H, elem_of_cons; auto end);
      match goal with H : _ ∈ _ :: _ |- _ => apply elem_of_cons in H as [->|H]; done end.
Qed.

Lemma fold_cleanup_extends peers : forall w,
  extends by_handler w (foldl (fun w peerId => cleanupPeerConnection peerId w) w peers).
Proof.
  induction peers as [|p peers IH]; intros w; cbn [foldl]; [apply extends_refl|].
  eapply extends_trans; [apply cleanupPeerConnection_extends | apply IH].
Qed.

Lemma extends_elem_of P w w' e : extends P w w' -> e ∈ trace w -> e ∈ trace w'.
Proof. intros (es & -> & _) He. apply elem_of_app. by left. Qed.

Lemma fold_cleanup_closes peers : forall w p,
  p ∈ peers ->
  (forall pc, peerConnections (this w) !! p = Some pc ->
     pc_close (pc_id pc) ∈
       trace (foldl (fun w peerId => cleanupPeerConnection peerId w) w peers)) /\
  (forall ch, dataChannels (this w) !! p = Some ch ->
     channel_close (ch_id ch) ∈
       trace (foldl (fun w peerId => cleanupPeerConnection peerId w) w peers)).
Proof.
  induction peers as [|q peers IH]; intros w p Hp; [by apply elem_of_nil in Hp|].
  cbn [foldl]. destruct (decide (q = p)) as [->|Hne].
  - split; intros x Hx;
      (eapply extends_elem_of; [apply fold_cleanup_extends|]);
      rewrite cleanupPeerConnection_trace, Hx; cbn;
      rewrite !elem_of_app, !elem_of_cons; tauto.
  - assert (Hp' : p ∈ peers).
    { apply elem_of_cons in Hp as [->|Hp]; [by destruct Hne | done]. }
    destruct (IH (cleanupPeerConnection q w) p Hp') as [H1 H2].
    split; intros x Hx; [apply H1 | apply H2].
    + rewrite (proj1 (cleanupPeerConnection_lookup q p w)). by case_decide.
    + rewrite (proj2 (cleanupPeerConnection_lookup q p w)). by case_decide.
Qed.

Lemma fold_cleanup_trace peers : forall w,
  exists es,
    trace (foldl (fun w peerId => cleanupPeerConnection peerId w) w peers) = trace w ++ es /\
    (forall e, e ∈ es <->
       exists p, p ∈ peers /\
         (pc_close ∘ pc_id <$> peerConnections (this w) !! p = Some e \/
          channel_close ∘ ch_id <$> dataChannels (this w) !! p = Some e)).
Proof.
  induction peers as [|p peers IH]; intros w; cbn [foldl].
  - exists []. split; [by rewrite app_nil_r|]. intros e. split.
    + by intros ?%elem_of_nil.
    + by intros (p & ?%elem_of_nil & _).
  - destruct (IH (cleanupPeerConnection p w)) as (es & -> & Hes).
    rewrite cleanupPeerConnection_trace, <- !app_assoc.
    eexists. split; [done|]. intros e. rewrite !elem_of_app, Hes. split.
    + intros [He|[He|(q & Hq & He)]].
      * exists p. split; [apply elem_of_cons; by left|]. left.
        destruct (peerConnections (this w) !! p); cbn in *;
          [by apply list_elem_of_singleton in He as ->|by apply elem_of_nil in He].
      * exists p. split; [apply elem_of_cons; by left|]. right.
        destruct (dataChannels (this w) !! p); cbn in *;
          [by apply list_elem_of_singleton in He as ->|by apply elem_of_nil in He].
      * exists q. split; [apply elem_of_cons; by right|].
        rewrite (proj1 (cleanupPeerConnection_lookup p q w)),
                (proj2 (cleanupPeerConnection_lookup p q w)) in He.
        case_decide; [by destruct He|done].
    + intros (q & Hq & He). destruct (decide (p = q)) as [<-|Hne].
      * destruct He as [He|He]; [left|right; left]; rewrite He; cbn;
          by apply list_elem_of_singleton.
      * right. right. exists q. split.
        { apply elem_of_cons in Hq as [->|Hq]; [by destruct Hne|done]. }
        rewrite (proj1 (cleanupPeerConnection_lookup p q w)),
                (proj2 (cleanupPeerConnection_lookup p q w)).
        by rewrite !decide_False by done.
Qed.

Lemma fold_cleanup_socket peers : forall w,
  signalingSocket (this (foldl (fun w peerId => cleanupPeerConnection peerId w) w peers)) =
    signalingSocket (this w).
Proof.
  induction peers as [|p peers IH]; intros w; cbn [foldl]; [done|].
  rewrite IH. unfold cleanupPeerConnection.
  destruct (peerConnections (this w) !! p); cbn;
    by destruct (dataChannels (this w) !! p).
Qed.

(** X2. [disconnect()] leaves no peer connection registered, the
    signaling socket dropped and [isConnected] false.  Every connection
    that was registered has been closed, and so has the channel of its
    peer, which is registered no more.  A channel registered for a peer
    that had no connection is overlooked: it stays registered and is not
    closed.  What [disconnect()] does to the platform is exactly this:
    it closes the registered connections, the channels registered for
    the peers of these, and the socket when there is one; a channel is
    closed only when it is registered for a peer that has a connection.
    A second [disconnect()] changes nothing. *)
Theorem disconnect_clears w :
  peerConnections (this (disconnect w)) = ∅ /\
  signalingSocket (this (disconnect w)) = false /\
  isConnected (this (disconnect w)) = false /\
  (forall p pc, peerConnections (this w) !! p = Some pc ->
     pc_close (pc_id pc) ∈ trace (disconnect w) /\
     dataChannels (this (disconnect w)) !! p = None /\
     forall ch, dataChannels (this w) !! p = Some ch ->
                channel_close (ch_id ch) ∈ trace (disconnect w)) /\
  (forall p, peerConnections (this w) !! p = None ->
     dataChannels (this (disconnect w)) !! p = dataChannels (this w) !! p) /\
  (exists es,
     trace (disconnect w) = trace w ++ es /\
     (forall e, e ∈ es <->
        (exists p pc, peerConnections (this w) !! p = Some pc /\ e = pc_close (pc_id pc)) \/
        (exists p ch, is_Some (peerConnections (this w) !! p) /\
                      dataChannels (this w) !! p = Some ch /\ e = channel_close (ch_id ch)) \/
        (signalingSocket (this w) = true /\ e = socket_close)) /\
     (forall p ch,
        peerConnections (this w) !! p = None -> dataChannels (this w) !! p = Some ch ->
        (forall q ch', is_Some (peerConnections (this w) !! q) ->
                       dataChannels (this w) !! q = Some ch' -> ch_id ch' <> ch_id ch) ->
        channel_close (ch_id ch) ∉ es)) /\
  disconnect (disconnect w) = disconnect w.
Proof.
  set (peers := keys (peerConnections (this w))).
  assert (Hkeys : forall p, p ∈ peers <-> is_Some (peerConnections (this w) !! p)).
  { intros p. apply elem_of_keys. }
  set (w1 := foldl (fun w peerId => cleanupPeerConnection peerId w) w peers).
  assert (Hpcs : peerConnections (this w1) = ∅).
  { apply JSMap_empty_eq. intros p. unfold w1.
    rewrite (proj1 (fold_cleanup_lookup peers w p)).
    case_decide as Hp; [done|]. apply eq_None_not_Some. by rewrite <- Hkeys. }
  assert (Hsocket : signalingSocket (this w1) = signalingSocket (this w)).
  { apply fold_cleanup_socket. }
  assert (Hthis : this (disconnect w) = set_signaling false false (this w1)).
  { unfold disconnect. fold peers w1. by destruct (signalingSocket (this w1)) eqn:Hs;
      cbn; unfold set_signaling; cbn; rewrite ?Hs. }
  assert (Htr : trace (disconnect w) =
                trace w1 ++ if signalingSocket (this w) then [socket_close] else []).
  { unfold disconnect. fold peers w1. rewrite <- Hsocket.
    destruct (signalingSocket (this w1)); cbn; [done|by rewrite app_nil_r]. }
  destruct (fold_cleanup_trace peers w) as (es & Hes & Hin). fold w1 in Hes.
  assert (Hall : forall e,
    e ∈ es ++ (if signalingSocket (this w) then [socket_close] else []) <->
    (exists p pc, peerConnections (this w) !! p = Some pc /\ e = pc_close (pc_id pc)) \/
    (exists p ch, is_Some (peerConnections (this w) !! p) /\
                  dataChannels (this w) !! p = Some ch /\ e = channel_close (ch_id ch)) \/
    (signalingSocket (this w) = true /\ e = socket_close)).
  { intros e. rewrite elem_of_app, Hin. split.
    - intros [(p & Hp & [He|He])|He].
      + left. destruct (peerConnections (this w) !! p) as [pc|] eqn:Hpc; [|done].
        exists p, pc. split; [done|]. cbn in He. congruence.
      + right. left. destruct (dataChannels (this w) !! p) as [ch|] eqn:Hch; [|done].
        exists p, ch. split; [by apply Hkeys|]. split; [done|]. cbn in He. congruence.
      + right. right. destruct (signalingSocket (this w)); [|by apply elem_of_nil in He].
        by apply list_elem_of_singleton in He.
    - intros [(p & pc & Hpc & ->)|[(p & ch & Hp & Hch & ->)|[Hs ->]]].
      + left. exists p. split; [apply Hkeys; eauto|]. left. by rewrite Hpc.
      + left. exists p. split; [by apply Hkeys|]. right. by rewrite Hch.
      + right. rewrite Hs. by apply list_elem_of_singleton. }
  split; [by rewrite Hthis|]. split; [by rewrite Hthis|]. split; [by rewrite Hthis|].
  split; [|split; [|split]].
  - intros p pc Hpc.
    assert (Hp : p ∈ peers) by (apply Hkeys; eauto).
    destruct (fold_cleanup_closes peers w p Hp) as [Hc1 Hc2].
    split; [rewrite Htr; apply elem_of_app; left; by apply Hc1|].
    split.
    + rewrite Hthis. cbn. unfold w1.
      rewrite (proj2 (fold_cleanup_lookup peers w p)). by rewrite decide_True.
    + intros ch Hch. rewrite Htr. apply elem_of_app. left. by apply Hc2.
  - intros p Hnone. rewrite Hthis. cbn. unfold w1.
    rewrite (proj2 (fold_cleanup_lookup peers w p)).
    rewrite decide_False; [done|]. intros [pc Hpc]%Hkeys. congruence.
  - eexists. split; [by rewrite Htr, Hes, <- app_assoc|]. split; [exact Hall|].
    intros p ch Hpc Hch Hother [(q & pc & _ & [=])|[(q & ch' & Hq & Hch' & [= Hid])|[_ [=]]]]%Hall.
    by apply (Hother q ch').
  - unfold disconnect at 1. rewrite Hthis. cbn.
    rewrite Hpcs. cbn.
    unfold disconnect. fold peers w1.
    destruct (signalingSocket (this w1)) eqn:Hs; cbn; rewrite ?Hs; cbn;
      unfold with_this, set_signaling; cbn; by rewrite ?Hs.
Qed.

(** The connections are closed in the order in which they were
    registered. *)
Lemma disconnect_in_order_of_insertion :
  keys (peerConnections (this two_connections)) = ["Q"; "P"] /\
  trace (disconnect two_connections) =
    [new_RTCPeerConnection 0; new_RTCPeerConnection 1; pc_close 0; pc_close 1; socket_close].
Proof. split; reflexivity. Qed.

(** ** A lost connection *)

Lemma handle_connection_lost pc p state w :
  state = pc_disconnected \/ state = pc_failed ->
  exists w0, handle (ev_connectionstatechange pc p state) w = cleanupPeerConnection p w0.
Proof.
  intros Hstate. cbn [handle]. unfold onconnectionstatechange.
  rewrite decide_False by (destruct Hstate; by subst).
  rewrite decide_True by done. by eexists.
Qed.

Lemma onconnectionstatechange_absent q state peerId w :
  peerConnections (this w) !! peerId = None -> dataChannels (this w) !! peerId = None ->
  peerConnections (this (onconnectionstatechange q state w)) !! peerId = None /\
  dataChannels (this (onconnectionstatechange q state w)) !! peerId = None.
Proof.
  intros Hpc Hch.
  unfold onconnectionstatechange, App_onPeerConnected, App_onPeerDisconnected.
  repeat case_decide; cbn [this emit];
    repeat match goal with |- context [if ?b then _ else _] => destruct b end;
    cbn [this emit];
    rewrite ?(proj1 (cleanupPeerConnection_lookup q peerId _)),
            ?(proj2 (cleanupPeerConnection_lookup q peerId _));
    cbn [this emit]; by repeat case_decide.
Qed.

(** No handler registers a peer but [ondatachannel], which registers a
    channel for the peer whose connection it was installed on. *)
Lemma handle_absent e peerId w :
  (forall state, e <> ev_datachannel peerId state) ->
  peerConnections (this w) !! peerId = None -> dataChannels (this w) !! peerId = None ->
  peerConnections (this (handle e w)) !! peerId = None /\
  dataChannels (this (handle e w)) !! peerId = None.
Proof.
  intros He Hpc Hch.
  destruct e as [pc p st|p c|p st|ch p st|p t|p err|]; cbn [handle].
  - apply onconnectionstatechange_absent; cbn; [|done].
    by rewrite JSMap_lookup_fmap, Hpc.
  - by rewrite onicecandidate_this.
  - cbn. split; [done|]. rewrite JSMap_lookup_insert_ne; [done|].
    intros ->. by apply (He st).
  - assert (H : dataChannels (this (platform_readyState ch st w)) !! peerId = None).
    { cbn. by rewrite JSMap_lookup_fmap, Hch. }
    by destruct st.
  - by rewrite channel_onmessage_this.
  - done.
  - done.
Qed.

Lemma run_events_absent events peerId : forall w,
  (forall state, ev_datachannel peerId state ∉ events) ->
  peerConnections (this w) !! peerId = None -> dataChannels (this w) !! peerId = None ->
  peerConnections (this (run_events events w)) !! peerId = None /\
  dataChannels (this (run_events events w)) !! peerId = None.
Proof.
  unfold run_events.
  induction events as [|e events IH]; intros w Hev Hpc Hch; cbn [foldl]; [done|].
  destruct (handle_absent e peerId w) as [Hpc' Hch']; [|done|done|].
  { intros state ->. apply (Hev state), elem_of_cons. by left. }
  apply IH; [|done|done].
  intros state Hin. apply (Hev state), elem_of_cons. by right.
Qed.

(** X3. Once the platform reports a connection as ['disconnected'] or
    ['failed'], its peer has no connection and no channel registered any
    more, and this stays so through whatever events the platform
    delivers later, as long as none of them is an incoming data channel
    for that peer: after them [sendDataToPeer] to the peer returns
    [false] without sending, and [transferFileToPeer] returns [false],
    whatever the file and whatever happens while it runs. *)
Theorem connection_lost_blocks_sending pc peerId state events w :
  state = pc_disconnected \/ state = pc_failed ->
  (forall st, ev_datachannel peerId st ∉ events) ->
  let w' := run_events events (handle (ev_connectionstatechange pc peerId state) w) in
  peerConnections (this w') !! peerId = None /\
  dataChannels (this w') !! peerId = None /\
  (forall data, sendDataToPeer peerId data w' = (false, w')) /\
  (forall fileData s, (transferFileToPeer peerId fileData w' s).1.1 = Normal false).
Proof.
  intros Hstate Hevents w'.
  destruct (handle_connection_lost pc peerId state w Hstate) as (w0 & Hw').
  destruct (run_events_absent events peerId
              (handle (ev_connectionstatechange pc peerId state) w) Hevents)
    as [Hpc Hch].
  { rewrite Hw', (proj1 (cleanupPeerConnection_lookup peerId peerId w0)).
    by rewrite decide_True. }
  { rewrite Hw', (proj2 (cleanupPeerConnection_lookup peerId peerId w0)).
    by rewrite decide_True. }
  fold w' in Hpc, Hch.
  assert (Hclosed : forall channel, dataChannels (this w') !! peerId = Some channel ->
                                    readyState channel <> ch_open).
  { intros channel Hc. congruence. }
  split; [done|]. split; [done|]. split.
  - intros data. by apply sendDataToPeer_closed.
  - intros fileData s.
    unfold transferFileToPeer, try_catch. rewrite bind_run. unfold sync.
    by rewrite (sendDataToPeer_closed peerId (file_metadata fileData) w' Hclosed).
Qed.

Lemma connection_lost_blocks_sending_witness :
  (pc_disconnected = pc_disconnected \/ pc_disconnected = pc_failed) /\
  (forall st, ev_datachannel "P" st ∉ later_events) /\
  (transferFileToPeer "P" hello_txt
     (run_events later_events
        (handle (ev_connectionstatechange 0 "P" pc_disconnected)
                (manager_with_channel "P" ch_open))) []).1.1 = Normal false.
Proof.
  assert (H : forall st, ev_datachannel "P" st ∉ later_events).
  { intros st Hin. unfold later_events in Hin.
    repeat (apply elem_of_cons in Hin as [Hin|Hin]; [discriminate Hin|]).
    by apply elem_of_nil in Hin. }
  split; [by left|]. split; [exact H|].
  apply (connection_lost_blocks_sending 0 "P" pc_disconnected later_events
           (manager_with_channel "P" ch_open)); [by left | exact H].
Defined.

(** ** A connection that replaces another *)

(** X4. [createPeerConnection(peerId)] calls nothing on a connection
    already registered for the peer: whatever was registered, its only
    effect is to construct the new connection, which takes the place of
    the old one in [peerConnections]; the old one is not closed.  The
    other peers keep their connections and [dataChannels] is untouched,
    so that a later [cleanupPeerConnection(peerId)] closes the new
    connection together with the channel that was registered before. *)
Theorem createPeerConnection_replaces peerId w s :
  let '(result, w', s') := createPeerConnection peerId w s in
  let fresh_pc := {| pc_id := nextObj w; connectionState := pc_new |} in
  result = Normal fresh_pc /\ s' = s /\
  peerConnections (this w') !! peerId = Some fresh_pc /\
  (forall q, q <> peerId -> peerConnections (this w') !! q = peerConnections (this w) !! q) /\
  dataChannels (this w') = dataChannels (this w) /\
  trace w' = trace w ++ [new_RTCPeerConnection (nextObj w)] /\
  trace (cleanupPeerConnection peerId w') =
    trace w' ++ pc_close (nextObj w)
             :: option_list (channel_close ∘ ch_id <$> dataChannels (this w) !! peerId).
Proof.
  unfold createPeerConnection, sync, fresh. cbn.
  split; [done|]. split; [done|]. split; [apply JSMap_lookup_insert_eq|].
  split; [intros q Hq; by apply JSMap_lookup_insert_ne|]. split; [done|]. split; [done|].
  rewrite cleanupPeerConnection_trace. cbn. by rewrite JSMap_lookup_insert_eq.
Qed.

(** ** The answer to an offer of ours *)

(** X5. [handleAnswer] never fails.  For a peer without a connection it
    does nothing at all.  Otherwise it calls [setRemoteDescription(answer)]
    once, on the connection registered for the peer, suspends once, and
    makes no other call of a negotiation; if the platform rejects the
    description, the rejection is logged and goes no further. *)
Theorem handleAnswer_applies_once peerId answer w s :
  let '(result, w', s') := handleAnswer peerId answer w s in
  result = Normal tt /\
  match peerConnections (this w) !! peerId with
  | Some peerConnection =>
      s' = tail s /\
      exists es,
        trace w' = trace w ++ pc_setRemoteDescription (pc_id peerConnection) answer :: es /\
        negotiation_calls es = [] /\
        forall e, settles (nth 0 s quiet) = Rejected e ->
                  last es = Some (console_error [Str "Failed to handle answer:"; Exn e])
  | None => w' = w /\ s' = s
  end.
Proof.
  unfold handleAnswer, try_catch, pc_call. rewrite bind_run. unfold gets.
  destruct (peerConnections (this w) !! peerId) as [pc|]; [|done].
  rewrite !bind_run. unfold perform, await_platform. rewrite next_tick_nth.
  destruct (run_events_extends (during (nth 0 s quiet))
              (emit (pc_setRemoteDescription (pc_id pc) answer) w)) as (es & H & F).
  destruct (settles (nth 0 s quiet)) as [v|e]; cbn.
  - split; [done|]. split; [done|]. exists es. rewrite H. cbn.
    split; [by rewrite <- app_assoc|]. split; [by apply negotiation_calls_by_handler|].
    intros e [=].
  - split; [done|]. split; [done|].
    exists (es ++ [console_error [Str "Failed to handle answer:"; Exn e]]).
    rewrite H. cbn. split; [by rewrite <- !app_assoc|]. split.
    + rewrite negotiation_calls_app, negotiation_calls_by_handler by done. done.
    + intros e' [= <-]. apply last_snoc.
Qed.

(** ** Initiating a connection *)

Lemma await_platform_uneventful w s :
  uneventful s ->
  await_platform w s =
    (match settles (nth 0 s quiet) with
     | Fulfilled v => Normal v
     | Rejected e => Throw e
     end, w, tail s).
Proof.
  intros Hs. unfold await_platform. rewrite next_tick_nth.
  destruct (uneventful_next_tick s Hs) as [Hd _]. rewrite next_tick_nth in Hd.
  cbn in Hd. rewrite Hd. by destruct (settles (nth 0 s quiet)).
Qed.

Lemma uneventful_tail s : uneventful s -> uneventful (tail s).
Proof. intros Hs. destruct s; [done | by inversion Hs]. Qed.

Lemma pc_call_uneventful call w s :
  uneventful s ->
  pc_call call w s =
    (match settles (nth 0 s quiet) with
     | Fulfilled v => Normal v
     | Rejected e => Throw e
     end, emit call w, tail s).
Proof.
  intros Hs. unfold pc_call. rewrite bind_run. unfold perform.
  by rewrite await_platform_uneventful.
Qed.

Lemma existsb_is_pc_close pc es : pc_close pc ∉ es -> existsb (is_pc_close pc) es = false.
Proof.
  intros Hnot. apply not_true_is_false. intros (e & Hin & He)%existsb_exists.
  destruct e; try discriminate. cbn in He. apply Nat.eqb_eq in He as <-.
  by apply Hnot, list_elem_of_In.
Qed.

Lemma createDataChannel_run pc label w s :
  pc_close pc ∉ trace w ->
  createDataChannel pc label w s =
    (Normal {| ch_id := nextObj w; readyState := ch_connecting |},
     emit (pc_createDataChannel pc (nextObj w) label) (fresh w).2, s).
Proof. intros H. unfold createDataChannel. by rewrite existsb_is_pc_close. Qed.

(** X6. When the signaling socket is open, no event intervenes and the
    platform fulfils [createOffer()] and [setLocalDescription(offer)],
    [initiateConnection(peerId)] returns [true] after three suspensions,
    having created a connection and a channel named "fileTransfer" on it,
    registered both for the peer, and sent [{type: 'offer', to_client:
    peerId, data: offer}] last.  The channel is still connecting: until
    the platform reports it open, [sendDataToPeer] to the peer returns
    [false]; once it does, [sendDataToPeer] returns [true]. *)
Theorem initiateConnection_offers peerId w s offer v :
  signaling_up w -> pc_close (nextObj w) ∉ trace w -> uneventful s ->
  settles (nth 1 s quiet) = Fulfilled offer ->
  settles (nth 2 s quiet) = Fulfilled v ->
  let pc := nextObj w in
  let ch := S (nextObj w) in
  exists w',
    initiateConnection peerId w s = (Normal true, w', drop 3 s) /\
    trace w' =
      trace w ++
      [new_RTCPeerConnection pc; pc_createDataChannel pc ch "fileTransfer";
       pc_createOffer pc; pc_setLocalDescription pc offer;
       socket_send (JSON_stringify
         (JObj [("type", JStr "offer"); ("to_client", JStr peerId); ("data", offer)]))] /\
    peerConnections (this w') !! peerId = Some {| pc_id := pc; connectionState := pc_new |} /\
    dataChannels (this w') !! peerId = Some {| ch_id := ch; readyState := ch_connecting |} /\
    (forall data, sendDataToPeer peerId data w' = (false, w')) /\
    (forall data, (sendDataToPeer peerId data (handle (ev_readyState ch peerId ch_open) w')).1
                  = true).
Proof.
  intros [Hsock Hconn] Hfresh Hs H1 H2 pc ch.
  unfold initiateConnection, try_catch.
  rewrite bind_run, await_createPeerConnection_run.
  destruct (uneventful_next_tick s Hs) as [Hd _]. rewrite next_tick_nth in Hd.
  cbn in Hd. rewrite Hd. cbn [run_events foldl pc_id].
  rewrite bind_run, createDataChannel_run; cycle 1.
  { cbn. intros [Hin|Hin]%elem_of_app; [done|].
    apply elem_of_cons in Hin as [[=]|Hin]. by apply elem_of_nil in Hin. }
  rewrite bind_run. unfold perform at 1. rewrite bind_run.
  rewrite pc_call_uneventful by by apply uneventful_tail.
  rewrite nth_tail, H1. rewrite bind_run.
  rewrite pc_call_uneventful by by do 2 apply uneventful_tail.
  rewrite !nth_tail, H2. rewrite bind_run. unfold perform at 1, sendSignalingMessage.
  cbn [this emit with_this setupDataChannel set_dataChannels set_peerConnections
       createPeerConnection sync fresh fst snd signalingSocket isConnected].
  rewrite Hsock, Hconn. cbn [andb].
  eexists. split; [by destruct s as [|? [|? [|? ?]]]|].
  split; [cbn; by repeat (rewrite <- app_assoc; cbn [app])|].
  split; [cbn; apply JSMap_lookup_insert_eq|].
  split; [cbn; apply JSMap_lookup_insert_eq|].
  split.
  - intros data. apply sendDataToPeer_closed. cbn. rewrite JSMap_lookup_insert_eq.
    by intros channel [= <-].
  - intros data. unfold sendDataToPeer. cbn.
    rewrite JSMap_lookup_fmap, JSMap_lookup_insert_eq. cbn. unfold ch.
    destruct (decide (S (nextObj w) = S (nextObj w))) as [_|Hne]; [|by destruct Hne].
    cbn. by destruct (decide (ch_open = ch_open)).
Qed.

Lemma initiateConnection_offers_witness :
  signaling_up manager_signaling /\
  exists w',
    initiateConnection "P" manager_signaling
      [quiet; fulfilled (sdp "offer" "v=0 o=- 1"); fulfilled JUndefined]
      = (Normal true, w', []) /\
    sendDataToPeer "P" JNull w' = (false, w') /\
    (sendDataToPeer "P" JNull (handle (ev_readyState 1 "P" ch_open) w')).1 = true.
Proof.
  split; [by split|].
  destruct (initiateConnection_offers "P" manager_signaling
              [quiet; fulfilled (sdp "offer" "v=0 o=- 1"); fulfilled JUndefined]
              (sdp "offer" "v=0 o=- 1") JUndefined)
    as (w' & Hrun & _ & _ & _ & Hclosed & Hopen).
  - by split.
  - cbn. apply not_elem_of_nil.
  - by repeat constructor.
  - reflexivity.
  - reflexivity.
  - exists w'. split; [exact Hrun|]. split; [apply Hclosed | apply Hopen].
Defined.

(** X7. When the platform rejects [createOffer()], and no event
    intervenes, [initiateConnection(peerId)] returns [false] and logs the
    rejection; no offer is sent.  The connection and the channel it has
    created stay registered for the peer, and neither is closed. *)
Theorem initiateConnection_rejected peerId w s e :
  pc_close (nextObj w) ∉ trace w -> uneventful s ->
  settles (nth 1 s quiet) = Rejected e ->
  let pc := nextObj w in
  let ch := S (nextObj w) in
  exists w',
    initiateConnection peerId w s = (Normal false, w', drop 2 s) /\
    trace w' =
      trace w ++
      [new_RTCPeerConnection pc; pc_createDataChannel pc ch "fileTransfer";
       pc_createOffer pc;
       console_error [Str "Failed to initiate connection:"; Exn e]] /\
    peerConnections (this w') !! peerId = Some {| pc_id := pc; connectionState := pc_new |} /\
    dataChannels (this w') !! peerId = Some {| ch_id := ch; readyState := ch_connecting |}.
Proof.
  intros Hfresh Hs H1 pc ch.
  unfold initiateConnection, try_catch.
  rewrite bind_run, await_createPeerConnection_run.
  destruct (uneventful_next_tick s Hs) as [Hd _]. rewrite next_tick_nth in Hd.
  cbn in Hd. rewrite Hd. cbn [run_events foldl pc_id].
  rewrite bind_run, createDataChannel_run; cycle 1.
  { cbn. intros [Hin|Hin]%elem_of_app; [done|].
    apply elem_of_cons in Hin as [[=]|Hin]. by apply elem_of_nil in Hin. }
  rewrite bind_run. unfold perform at 1. rewrite bind_run.
  rewrite pc_call_uneventful by by apply uneventful_tail.
  rewrite nth_tail, H1. rewrite bind_run. unfold perform at 1.
  eexists. split; [by destruct s as [|? [|? ?]]|].
  split; [cbn; by repeat (rewrite <- app_assoc; cbn [app])|].
  split; cbn; apply JSMap_lookup_insert_eq.
Qed.

Lemma initiateConnection_rejected_witness :
  exists w',
    initiateConnection "P" manager_signaling
      [quiet; rejected (DOMException "OperationError")] = (Normal false, w', []) /\
    dataChannels (this w') !! "P" = Some {| ch_id := 1; readyState := ch_connecting |}.
Proof.
  destruct (initiateConnection_rejected "P" manager_signaling
              [quiet; rejected (DOMException "OperationError")]
              (DOMException "OperationError"))
    as (w' & Hrun & _ & _ & Hch).
  - cbn. apply not_elem_of_nil.
  - by repeat constructor.
  - reflexivity.
  - exists w'. by split.
Defined.

(** ** The course of a transfer *)

Lemma handle_onTransferProgress e w :
  onTransferProgress (this (handle e w)) = onTransferProgress (this w).
Proof.
  destruct e as [pc p st|p c|p st|ch p st|p t|p err|]; cbn [handle]; try done.
  - unfold onconnectionstatechange, App_onPeerConnected, App_onPeerDisconnected.
    repeat case_decide; cbn;
      repeat match goal with |- context [if ?b then _ else _] => destruct b end;
      try done;
      unfold cleanupPeerConnection; cbn;
      repeat match goal with |- context [match ?x with Some _ => _ | None => _ end] =>
                               destruct x; cbn end; done.
  - by rewrite onicecandidate_this.
  - by destruct st.
  - by rewrite channel_onmessage_this.
Qed.

Lemma run_events_onTransferProgress events w :
  onTransferProgress (this (run_events events w)) = onTransferProgress (this w).
Proof.
  unfold run_events. revert w.
  induction events as [|e events IH]; intros w; cbn [foldl]; [done|].
  by rewrite IH, handle_onTransferProgress.
Qed.

Lemma by_handler_projections es :
  Forall by_handler es -> channel_sends es = [] /\ progress_calls es = [].
Proof.
  induction 1 as [|e es He _ [IH1 IH2]]; [done|].
  unfold channel_sends, progress_calls in *. cbn. rewrite IH1, IH2. by destruct e.
Qed.

(** What one turn of the loop does: the chunk is handed over and its
    progress reported, or the turn throws and nothing was handed over. *)
Lemma send_chunk_run peerId fileData totalChunks i w s :
  let '(result, w', _) := send_chunk peerId fileData totalChunks i w s in
  onTransferProgress (this w') = onTransferProgress (this w) /\
  exists es,
    trace w' = trace w ++ es /\
    match result with
    | Normal _ =>
        channel_sends es = [chunk_text fileData totalChunks i] /\
        progress_calls es =
          (if onTransferProgress (this w)
           then [progress_info peerId fileData totalChunks i] else [])
    | Throw e =>
        channel_sends es = [] /\ progress_calls es = [] /\
        e = Error ("Failed to send chunk " +:+ pretty i)
    end.
Proof.
  unfold send_chunk. rewrite bind_run. unfold await_resumed at 1.
  rewrite next_tick_nth.
  destruct (run_events_extends (during (nth 0 s quiet)) w) as (es1 & H1 & F1).
  pose proof (run_events_onTransferProgress (during (nth 0 s quiet)) w) as Hf1.
  destruct (by_handler_projections es1 F1) as [S1 P1].
  set (w1 := run_events (during (nth 0 s quiet)) w) in *. clearbody w1.
  fold (chunk_bytes fileData i). rewrite bind_run. unfold sync.
  destruct (sendDataToPeer_cases peerId
              (file_chunk i totalChunks (base64 (chunk_bytes fileData i))) w1)
    as [(c & _ & _ & ->)|[_ ->]]; cbn [negb].
  - rewrite bind_run. unfold gets. cbn [this emit]. rewrite bind_run.
    rewrite Hf1.
    destruct (onTransferProgress (this w)) eqn:Hflag;
      unfold perform, mret, Async_ret, await_resumed; rewrite next_tick_nth;
      match goal with |- context [run_events ?evs ?v] =>
        destruct (run_events_extends evs v) as (es2 & H2 & F2);
        pose proof (run_events_onTransferProgress evs v) as Hf2;
        destruct (by_handler_projections es2 F2) as [S2 P2]
      end.
    + split; [rewrite Hf2; cbn; congruence|].
      eexists. split; [rewrite H2; cbn; rewrite H1; by rewrite <- !app_assoc|].
      unfold channel_sends, progress_calls in *.
      rewrite !omap_app, S1, S2, P1, P2. done.
    + split; [rewrite Hf2; cbn; congruence|].
      eexists. split; [rewrite H2; cbn; rewrite H1; by rewrite <- !app_assoc|].
      unfold channel_sends, progress_calls in *.
      rewrite !omap_app, S1, S2, P1, P2. done.
  - unfold throw. split; [done|]. by exists es1.
Qed.

Lemma for_range_run peerId fileData totalChunks count : forall i w s,
  let '(result, w', _) :=
    for_range i count (send_chunk peerId fileData totalChunks) w s in
  onTransferProgress (this w') = onTransferProgress (this w) /\
  exists es (sent : nat),
    trace w' = trace w ++ es /\
    channel_sends es = (chunk_text fileData totalChunks <$> seqZ i (Z.of_nat sent)) /\
    progress_calls es =
      (if onTransferProgress (this w)
       then progress_info peerId fileData totalChunks <$> seqZ i (Z.of_nat sent) else []) /\
    match result with
    | Normal _ => sent = count
    | Throw e =>
        (sent < count)%nat /\
        e = Error ("Failed to send chunk " +:+ pretty (i + Z.of_nat sent))
    end.
Proof.
  induction count as [|k IH]; intros i w s.
  - cbn. split; [done|]. exists [], 0%nat. rewrite app_nil_r.
    by destruct (onTransferProgress (this w)).
  - cbn [for_range]. rewrite bind_run.
    pose proof (send_chunk_run peerId fileData totalChunks i w s) as Hi.
    destruct (send_chunk peerId fileData totalChunks i w s) as [[[[]|e] w1] s1].
    + destruct Hi as (Hf1 & es1 & H1 & S1 & P1).
      specialize (IH (i + 1) w1 s1).
      destruct (for_range (i + 1) k _ w1 s1) as [[r w2] s2].
      destruct IH as (Hf2 & es2 & sent & H2 & S2 & P2 & Hr).
      split; [congruence|]. exists (es1 ++ es2), (S sent).
      split; [by rewrite H2, H1, app_assoc|].
      rewrite seqZ_cons by lia. cbn [fmap list_fmap].
      replace (Z.pred (Z.of_nat (S sent))) with (Z.of_nat sent) by lia.
      replace (Z.succ i) with (i + 1) by lia.
      unfold channel_sends, progress_calls in *.
      rewrite !omap_app, S1, S2, P1, P2, Hf1.
      split; [done|]. split; [by destruct (onTransferProgress (this w))|].
      destruct r as [[]|e]; [lia|]. destruct Hr as [Hlt ->]. split; [lia|].
      do 3 f_equal. lia.
    + destruct Hi as (Hf1 & es1 & H1 & S1 & P1 & ->).
      split; [done|]. exists es1, 0%nat. rewrite S1, P1, Z.add_0_r.
      destruct (onTransferProgress (this w)); repeat split; (done || lia).
Qed.

(** Every run of [transferFileToPeer], with what it handed over, what
    progress it reported and how it ended. *)
Lemma transferFileToPeer_run peerId fileData w s :
  let n := totalChunks_of fileData in
  let header := JSON_stringify (file_metadata fileData) in
  let chunks j := chunk_text fileData n <$> seqZ 0 j in
  let progress j :=
    if onTransferProgress (this w)
    then progress_info peerId fileData n <$> seqZ 0 j else [] in
  let '(result, w', _) := transferFileToPeer peerId fileData w s in
  (result = Normal true /\
   exists es marker,
     trace w' = trace w ++ es /\
     channel_sends es = header :: chunks n ++ marker /\
     progress_calls es = progress n) \/
  (result = Normal false /\
   trace w' = trace w ++ [transfer_failed "Failed to send file metadata"]) \/
  (result = Normal false /\
   exists pre j,
     0 <= j < n /\
     trace w' = trace w ++ pre ++ [transfer_failed ("Failed to send chunk " +:+ pretty j)] /\
     channel_sends pre = header :: chunks j /\
     progress_calls pre = progress j).
Proof.
  intros n header chunks progress.
  unfold transferFileToPeer, try_catch. rewrite bind_run. unfold sync.
  destruct (sendDataToPeer_cases peerId (file_metadata fileData) w)
    as [(c & _ & _ & ->)|[_ ->]]; cbn [negb];
    [|unfold throw; rewrite bind_run; unfold perform, mret, Async_ret; cbv beta iota;
      right; left; by split].
  rewrite bind_run. fold (totalChunks_of fileData). fold n.
  pose proof (totalChunks_of_nonneg fileData) as Hn. fold n in Hn.
  pose proof (for_range_run peerId fileData n (Z.to_nat n) 0
                (emit (channel_send (ch_id c) header) w) s) as Hloop.
  destruct (for_range 0 (Z.to_nat n) _ _ s) as [[[[]|e] w1] s1].
  - destruct Hloop as (Hf & es & sent & H1 & S1 & P1 & ->).
    rewrite Z2Nat.id in S1, P1 by done. cbn [this emit] in P1, Hf.
    rewrite bind_run.
    destruct (sendDataToPeer_cases peerId (transfer_complete fileData) w1)
      as [(c' & _ & _ & ->)|[_ ->]];
      unfold mret, Async_ret; cbv beta iota; left; (split; [done|]).
    + exists (channel_send (ch_id c) header :: es
              ++ [channel_send (ch_id c') (JSON_stringify (transfer_complete fileData))]),
             [JSON_stringify (transfer_complete fileData)].
      split; [cbn [trace emit]; rewrite H1; cbn [trace emit];
             by repeat (rewrite <- app_assoc; cbn [app])|].
      unfold channel_sends, progress_calls in *. cbn. rewrite !omap_app, S1, P1. cbn.
      split; [done|]. by rewrite app_nil_r.
    + exists (channel_send (ch_id c) header :: es), [].
      split; [cbn [trace emit]; rewrite H1; cbn [trace emit];
             by repeat (rewrite <- app_assoc; cbn [app])|].
      unfold channel_sends, progress_calls in *. cbn. rewrite S1, P1.
      by rewrite app_nil_r.
  - destruct Hloop as (Hf & es & sent & H1 & S1 & P1 & Hlt & ->).
    cbn [this emit] in P1, Hf. rewrite bind_run.
    unfold perform, mret, Async_ret. cbv beta iota. right. right. split; [done|].
    exists (channel_send (ch_id c) header :: es), (Z.of_nat sent).
    split; [lia|]. split; [cbn [trace emit]; rewrite H1; cbn [trace emit];
             by repeat (rewrite <- app_assoc; cbn [app])|].
    unfold channel_sends, progress_calls in *. cbn. by rewrite S1, P1.
Qed.

Lemma marker_not_a_chunk fileData n j :
  JSON_stringify (transfer_complete fileData) ∉
    JSON_stringify (file_metadata fileData) :: (chunk_text fileData n <$> seqZ 0 j).
Proof.
  intros [H|H]%elem_of_cons; [discriminate H|].
  apply list_elem_of_fmap in H as (i & H & _). discriminate H.
Qed.

(** X8. A transfer that returns [false] has not announced completion:
    no [transfer_complete] was handed to the channel.  Its last act is to
    log "File transfer failed:" with the reason.  Either the header was
    refused and nothing at all was sent, or chunk [j] was refused, with
    [j] below [totalChunks]: then the header and the chunks 0 to [j - 1]
    were handed over, in this order, and the progress of each of them
    was reported. *)
Theorem transferFileToPeer_failure_report peerId fileData w s w' s' :
  transferFileToPeer peerId fileData w s = (Normal false, w', s') ->
  let n := totalChunks_of fileData in
  exists pre message,
    trace w' = trace w ++ pre ++ [transfer_failed message] /\
    (JSON_stringify (transfer_complete fileData) ∉ channel_sends pre) /\
    ((message = "Failed to send file metadata" /\ pre = []) \/
     exists j,
       0 <= j < n /\
       message = "Failed to send chunk " +:+ pretty j /\
       channel_sends pre =
         JSON_stringify (file_metadata fileData) :: (chunk_text fileData n <$> seqZ 0 j) /\
       progress_calls pre =
         (if onTransferProgress (this w)
          then progress_info peerId fileData n <$> seqZ 0 j else [])).
Proof.
  intros Hrun n.
  pose proof (transferFileToPeer_run peerId fileData w s) as H. cbn zeta in H.
  rewrite Hrun in H. destruct H as [[[=] _]|[[_ H]|[_ (pre & j & Hj & H & S & P)]]].
  - exists [], "Failed to send file metadata". split; [done|].
    split; [apply not_elem_of_nil|]. by left.
  - exists pre, ("Failed to send chunk " +:+ pretty j). split; [done|].
    split; [rewrite S; apply marker_not_a_chunk|]. right. by exists j.
Qed.

Lemma transferFileToPeer_failure_report_witness :
  exists w' pre,
    transferFileToPeer "P" hello_txt (manager_with_channel "P" ch_open) [channel_closes]
      = (Normal false, w', []) /\
    trace w' = pre ++ [transfer_failed "Failed to send chunk 0"].
Proof.
  destruct (transferFileToPeer_failure_report "P" hello_txt
              (manager_with_channel "P" ch_open) [channel_closes]
              (transferFileToPeer "P" hello_txt (manager_with_channel "P" ch_open)
                                  [channel_closes]).1.2 [])
    as (pre & message & Htrace & _ & [[_ ->]|(j & Hj & -> & _)]).
  - vm_compute. reflexivity.
  - exfalso. revert Htrace. vm_compute. discriminate.
  - eexists _, pre. split; [vm_compute; reflexivity|].
    assert (Hn : totalChunks_of hello_txt = 1) by reflexivity.
    assert (j = 0) as -> by (rewrite Hn in Hj; lia).
    exact Htrace.
Defined.

(** ** Double precision *)

Lemma round_half_even_bounds x :
  Qfloor x <= round_half_even x <= Qfloor x + 1.
Proof.
  unfold round_half_even. destruct (_ ?= _)%Q; [destruct (Z.even _)| |]; lia.
Qed.

Lemma round_half_even_le x k : (x <= inject_Z k)%Q -> round_half_even x <= k.
Proof.
  intros Hx. pose proof (Qfloor_le x) as Hf.
  assert (Hfk : Qfloor x <= k) by (rewrite Zle_Qle; lra).
  destruct (Z.eq_dec (Qfloor x) k) as [Heq|Hne].
  - unfold round_half_even. rewrite Heq.
    rewrite Heq in Hf.
    destruct (Qcompare_spec (x - inject_Z k) (1 # 2)); [lra | lia | lra].
  - pose proof (round_half_even_bounds x). lia.
Qed.

Lemma round_half_even_ge x k : (inject_Z k <= x)%Q -> k <= round_half_even x.
Proof.
  intros Hx. pose proof (Qfloor_resp_le _ _ Hx) as H. rewrite Qfloor_Z in H.
  pose proof (round_half_even_bounds x). lia.
Qed.

Lemma round_half_even_mono x y : (x <= y)%Q -> round_half_even x <= round_half_even y.
Proof.
  intros Hxy. pose proof (Qfloor_resp_le _ _ Hxy) as Hf.
  pose proof (round_half_even_bounds x). pose proof (round_half_even_bounds y).
  destruct (Z.eq_dec (Qfloor x) (Qfloor y)) as [Heq|Hne]; [|lia].
  unfold round_half_even. rewrite <- Heq.
  destruct (Qcompare_spec (x - inject_Z (Qfloor x)) (1 # 2));
    destruct (Qcompare_spec (y - inject_Z (Qfloor x)) (1 # 2));
    try (destruct (Z.even (Qfloor x))); try lia; lra.
Qed.

Lemma pow2_pos e : (0 < 2 ^ e)%Q.
Proof. apply Qpower_0_lt. reflexivity. Qed.

Lemma pow2_plus a b : (2 ^ (a + b) == 2 ^ a * 2 ^ b)%Q.
Proof. apply Qpower_plus. discriminate. Qed.

Lemma pow2_Z e : 0 <= e -> (2 ^ e == inject_Z (2 ^ e))%Q.
Proof. intros He. symmetry. apply (Zpower_Qpower 2 e He). Qed.

Lemma pow2_lt_inv a b : (2 ^ a < 2 ^ b)%Q -> a < b.
Proof. intros H. apply (Qpower_lt_compat_l_inv 2); [exact H | reflexivity]. Qed.

Lemma pow2_le a b : a <= b -> (2 ^ a <= 2 ^ b)%Q.
Proof. intros H. apply Qpower_le_compat_l; [exact H | discriminate]. Qed.

Lemma log2_bounds n :
  0 < n -> (2 ^ Z.log2 n <= inject_Z n)%Q /\ (inject_Z n < 2 ^ (Z.log2 n + 1))%Q.
Proof.
  intros Hn. pose proof (Z.log2_spec n Hn) as [Hlo Hhi].
  pose proof (Z.log2_nonneg n) as Hnn.
  rewrite !pow2_Z by lia. rewrite <- Zle_Qle, <- Zlt_Qlt. split; [done|].
  exact Hhi.
Qed.

Lemma binade_spec x :
  (0 < x)%Q -> (2 ^ binade x <= x)%Q /\ (x < 2 ^ (binade x + 1))%Q.
Proof.
  intros Hx. unfold binade.
  set (n := Qnum x). set (d := Z.pos (Qden x)).
  assert (Hn : 0 < n) by (destruct x as [[|?|?] ?]; cbn in *; unfold Qlt in Hx; cbn in Hx; lia).
  assert (Hd : 0 < d) by (unfold d; lia).
  destruct (log2_bounds n Hn) as [Hn1 Hn2]. destruct (log2_bounds d Hd) as [Hd1 Hd2].
  set (a := Z.log2 n) in *. set (b := Z.log2 d) in *.
  assert (Hxd : (x * inject_Z d == inject_Z n)%Q).
  { unfold n, d. destruct x as [xn xd]. unfold Qeq, Qmult, inject_Z. cbn. lia. }
  assert (Hdq : (0 < inject_Z d)%Q) by (rewrite <- (Zlt_Qlt 0); exact Hd).
  pose proof (pow2_pos a). pose proof (pow2_pos b). pose proof (pow2_pos (a - b)).
  pose proof (pow2_pos (a - b - 1)). pose proof (pow2_pos (a - b + 1)).
  assert (E1 : (2 ^ (a + 1) == 2 ^ (a - b + 1) * 2 ^ b)%Q).
  { rewrite <- pow2_plus. f_equiv. lia. }
  assert (E2 : (2 ^ a == 2 ^ (a - b - 1) * 2 ^ (b + 1))%Q).
  { rewrite <- pow2_plus. f_equiv. lia. }
  assert (E3 : (2 ^ (a - b - 1 + 1) == 2 ^ (a - b))%Q) by (f_equiv; lia).
  assert (Hup : (x < 2 ^ (a - b + 1))%Q) by nra.
  assert (Hlo : (2 ^ (a - b - 1) < x)%Q) by nra.
  destruct (Qle_bool (2 ^ (a - b)) x) eqn:Hb.
  - apply Qle_bool_iff in Hb. split; assumption.
  - split; [lra|]. rewrite E3.
    apply Qnot_le_lt. intros Hle. apply Qle_bool_iff in Hle. congruence.
Qed.

Lemma binade_mono x y : (0 < x)%Q -> (x <= y)%Q -> binade x <= binade y.
Proof.
  intros Hx Hxy. destruct (binade_spec x Hx) as [Hx1 _].
  destruct (binade_spec y ltac:(lra)) as [_ Hy2].
  assert (H : binade x < binade y + 1) by (apply pow2_lt_inv; lra). lia.
Qed.

(** The significand: between [2^52] and [2^53]. *)
Lemma significand_bounds x :
  (0 < x)%Q ->
  2 ^ 52 <= round_half_even (x * 2 ^ (52 - binade x)) <= 2 ^ 53.
Proof.
  intros Hx. destruct (binade_spec x Hx) as [Hlo Hhi].
  set (e := binade x) in *.
  pose proof (pow2_pos (52 - e)) as Hp.
  assert (E1 : (2 ^ e * 2 ^ (52 - e) == inject_Z (2 ^ 52))%Q).
  { rewrite <- pow2_plus, <- pow2_Z by lia. f_equiv. lia. }
  assert (E2 : (2 ^ (e + 1) * 2 ^ (52 - e) == inject_Z (2 ^ 53))%Q).
  { rewrite <- pow2_plus, <- pow2_Z by lia. f_equiv. lia. }
  split.
  - apply round_half_even_ge. rewrite <- E1. nra.
  - apply round_half_even_le. rewrite <- E2. nra.
Qed.

Lemma nearest_double_bounds x :
  (0 < x)%Q ->
  (2 ^ binade x <= nearest_double x)%Q /\ (nearest_double x <= 2 ^ (binade x + 1))%Q.
Proof.
  intros Hx. unfold nearest_double.
  destruct (significand_bounds x Hx) as [Hlo Hhi].
  set (e := binade x) in *. set (m := round_half_even _) in *.
  pose proof (pow2_pos (e - 52)) as Hp.
  assert (E1 : (2 ^ e == inject_Z (2 ^ 52) * 2 ^ (e - 52))%Q).
  { rewrite <- pow2_Z, <- pow2_plus by lia. f_equiv. lia. }
  assert (E2 : (2 ^ (e + 1) == inject_Z (2 ^ 53) * 2 ^ (e - 52))%Q).
  { rewrite <- pow2_Z, <- pow2_plus by lia. f_equiv. lia. }
  rewrite Zle_Qle in Hlo, Hhi. rewrite E1, E2. split; nra.
Qed.

Lemma nearest_double_pos x : (0 < x)%Q -> (0 < nearest_double x)%Q.
Proof.
  intros Hx. destruct (nearest_double_bounds x Hx) as [H _].
  pose proof (pow2_pos (binade x)). lra.
Qed.

(** An integer below [2^53] is a double: rounding does not cross it. *)
Lemma nearest_double_le x (k : Z) :
  (0 < x)%Q -> (x <= inject_Z k)%Q -> k < 2 ^ 53 -> (nearest_double x <= inject_Z k)%Q.
Proof.
  intros Hx Hk Hk53. destruct (binade_spec x Hx) as [Hlo _].
  assert (He : binade x < 53).
  { apply pow2_lt_inv. rewrite (pow2_Z 53) by lia. rewrite Zlt_Qlt in Hk53. lra. }
  unfold nearest_double. set (e := binade x) in *.
  pose proof (pow2_pos (52 - e)) as Hp1. pose proof (pow2_pos (e - 52)) as Hp2.
  assert (E : (2 ^ (52 - e) * 2 ^ (e - 52) == 1)%Q).
  { rewrite <- pow2_plus. replace (52 - e + (e - 52)) with 0 by lia. reflexivity. }
  assert (Hm : round_half_even (x * 2 ^ (52 - e)) <= k * 2 ^ (52 - e)).
  { apply round_half_even_le. rewrite inject_Z_mult, <- pow2_Z by lia. nra. }
  rewrite Zle_Qle, inject_Z_mult, <- pow2_Z in Hm by lia.
  set (m := inject_Z (round_half_even _)) in *. nra.
Qed.

Lemma nearest_double_mono x y :
  (0 < x)%Q -> (x <= y)%Q -> (nearest_double x <= nearest_double y)%Q.
Proof.
  intros Hx Hxy. assert (Hy : (0 < y)%Q) by lra.
  pose proof (binade_mono x y Hx Hxy) as He.
  destruct (Z.eq_dec (binade x) (binade y)) as [Heq|Hne].
  - unfold nearest_double. rewrite <- Heq.
    pose proof (pow2_pos (52 - binade x)). pose proof (pow2_pos (binade x - 52)).
    assert (Hm : round_half_even (x * 2 ^ (52 - binade x))
                 <= round_half_even (y * 2 ^ (52 - binade x))).
    { apply round_half_even_mono. nra. }
    rewrite Zle_Qle in Hm. nra.
  - destruct (nearest_double_bounds x Hx) as [_ Hx2].
    destruct (nearest_double_bounds y Hy) as [Hy1 _].
    pose proof (pow2_le (binade x + 1) (binade y) ltac:(lia)). lra.
Qed.

Lemma Qred_pos x : (0 < x)%Q -> exists p, Qnum (Qred x) = Z.pos p.
Proof.
  intros Hx. assert (H : (0 < Qred x)%Q) by (rewrite Qred_correct; exact Hx).
  destruct (Qred x) as [[|p|p] d]; [discriminate H | by exists p | discriminate H].
Qed.

Lemma to_double_positive x :
  (0 < x)%Q -> to_double x = Qred (nearest_double (Qred x)).
Proof. intros Hx. unfold to_double. by destruct (Qred_pos x Hx) as [p ->]. Qed.

Lemma to_double_eq x y : (x == y)%Q -> to_double x = to_double y.
Proof. intros H. unfold to_double. by rewrite (Qred_complete x y H). Qed.

Lemma to_double_pos x : (0 < x)%Q -> (0 < to_double x)%Q.
Proof.
  intros Hx. rewrite to_double_positive, Qred_correct by done.
  apply nearest_double_pos. by rewrite Qred_correct.
Qed.

Lemma to_double_le x (k : Z) :
  (0 < x)%Q -> (x <= inject_Z k)%Q -> k < 2 ^ 53 -> (to_double x <= inject_Z k)%Q.
Proof.
  intros Hx Hk Hk53. rewrite to_double_positive, Qred_correct by done.
  apply nearest_double_le; [by rewrite Qred_correct | by rewrite Qred_correct | done].
Qed.

Lemma to_double_mono x y : (0 < x)%Q -> (x <= y)%Q -> (to_double x <= to_double y)%Q.
Proof.
  intros Hx Hxy. rewrite (to_double_positive x), (to_double_positive y) by lra.
  rewrite (Qred_correct (nearest_double (Qred x))), (Qred_correct (nearest_double (Qred y))).
  apply nearest_double_mono; by rewrite ?Qred_correct.
Qed.

Lemma round_half_even_near x :
  (inject_Z (round_half_even x) - x <= 1 # 2)%Q /\ (x - inject_Z (round_half_even x) <= 1 # 2)%Q.
Proof.
  pose proof (Qfloor_le x) as Hlo. pose proof (Qlt_floor x) as Hhi.
  rewrite inject_Z_plus in Hhi. unfold round_half_even. cbv zeta.
  destruct (Qcompare_spec (x - inject_Z (Qfloor x)) (1 # 2)) as [H|H|H];
    [destruct (Z.even (Qfloor x))| |]; rewrite ?inject_Z_plus;
    change (inject_Z 1) with 1%Q in *; split; lra.
Qed.

(** Rounding moves a positive number by at most [2^-53] of itself. *)
Lemma nearest_double_error x :
  (0 < x)%Q ->
  (nearest_double x - x <= x * 2 ^ (-53))%Q /\ (x - nearest_double x <= x * 2 ^ (-53))%Q.
Proof.
  intros Hx. destruct (binade_spec x Hx) as [Hlo _]. unfold nearest_double.
  set (e := binade x) in *.
  destruct (round_half_even_near (x * 2 ^ (52 - e))) as [H1 H2].
  set (m := inject_Z (round_half_even _)) in *.
  pose proof (pow2_pos (52 - e)) as Hp1. pose proof (pow2_pos (e - 52)) as Hp2.
  pose proof (pow2_pos (-53)) as Hp3.
  assert (E : (2 ^ (52 - e) * 2 ^ (e - 52) == 1)%Q).
  { rewrite <- pow2_plus. replace (52 - e + (e - 52)) with 0 by lia. reflexivity. }
  assert (E2 : ((1 # 2) * 2 ^ (e - 52) == 2 ^ e * 2 ^ (-53))%Q).
  { rewrite <- pow2_plus. replace (e + -53) with (-1 + (e - 52)) by lia.
    rewrite pow2_plus. reflexivity. }
  split; nra.
Qed.

Lemma to_double_error x :
  (0 < x)%Q ->
  (to_double x - x <= x * 2 ^ (-53))%Q /\ (x - to_double x <= x * 2 ^ (-53))%Q.
Proof.
  intros Hx. rewrite to_double_positive by done.
  destruct (nearest_double_error (Qred x)) as [H1 H2]; [by rewrite Qred_correct|].
  pose proof (Qred_correct x) as E1.
  pose proof (Qred_correct (nearest_double (Qred x))) as E2.
  assert (E3 : (Qred x * 2 ^ (-53) == x * 2 ^ (-53))%Q) by (by rewrite E1).
  split; lra.
Qed.

(** *** The percentage of progress *)

Lemma fraction_bounds i n :
  0 <= i < n -> (0 < inject_Z (i + 1) / inject_Z n)%Q /\ (inject_Z (i + 1) / inject_Z n <= 1)%Q.
Proof.
  intros Hi.
  assert (Hn : (0 < inject_Z n)%Q) by (rewrite <- (Zlt_Qlt 0); lia).
  assert (Hi1 : (0 < inject_Z (i + 1))%Q) by (rewrite <- (Zlt_Qlt 0); lia).
  assert (Hle : (inject_Z (i + 1) <= inject_Z n)%Q) by (rewrite <- Zle_Qle; lia).
  split.
  - apply Qlt_shift_div_l; lra.
  - apply Qle_shift_div_r; lra.
Qed.

Lemma progress_bounds i n :
  0 <= i < n ->
  (0 < Number_mul (Number_div (inject_Z (i + 1)) (inject_Z n)) 100)%Q /\
  (Number_mul (Number_div (inject_Z (i + 1)) (inject_Z n)) 100 <= 100)%Q.
Proof.
  intros Hi. destruct (fraction_bounds i n Hi) as [H0 H1]. unfold Number_mul, Number_div.
  set (x := (inject_Z (i + 1) / inject_Z n)%Q) in *.
  pose proof (to_double_pos x H0) as Hq0.
  pose proof (to_double_le x 1 H0 H1 ltac:(reflexivity)) as Hq1.
  split.
  - apply to_double_pos. lra.
  - apply (to_double_le _ 100); [lra | | reflexivity].
    change (inject_Z 100) with 100%Q. change (inject_Z 1) with 1%Q in Hq1. lra.
Qed.

Lemma progress_last n :
  0 < n -> Number_mul (Number_div (inject_Z (n - 1 + 1)) (inject_Z n)) 100 = 100%Q.
Proof.
  intros Hn. unfold Number_mul, Number_div.
  assert (Hn' : (0 < inject_Z n)%Q) by (rewrite <- (Zlt_Qlt 0); lia).
  assert (E : (inject_Z (n - 1 + 1) / inject_Z n == 1)%Q).
  { replace (n - 1 + 1) with n by lia. field. lra. }
  rewrite (to_double_eq _ 1 E). reflexivity.
Qed.

Lemma progress_mono i j n :
  0 <= i -> i <= j -> j < n ->
  (Number_mul (Number_div (inject_Z (i + 1)) (inject_Z n)) 100
   <= Number_mul (Number_div (inject_Z (j + 1)) (inject_Z n)) 100)%Q.
Proof.
  intros Hi Hij Hj. unfold Number_mul, Number_div.
  destruct (fraction_bounds i n ltac:(lia)) as [H0 _].
  assert (Hn : (0 < inject_Z n)%Q) by (rewrite <- (Zlt_Qlt 0); lia).
  assert (Hle : (inject_Z (i + 1) / inject_Z n <= inject_Z (j + 1) / inject_Z n)%Q).
  { apply Qmult_le_compat_r; [rewrite <- Zle_Qle; lia|].
    apply Qinv_le_0_compat. lra. }
  pose proof (to_double_pos _ H0). pose proof (to_double_mono _ _ H0 Hle).
  apply to_double_mono; lra.
Qed.

Lemma progress_error i n :
  0 <= i < n ->
  let exact := (inject_Z (i + 1) / inject_Z n * 100)%Q in
  let reported := Number_mul (Number_div (inject_Z (i + 1)) (inject_Z n)) 100 in
  (reported - exact <= 2 ^ (-44))%Q /\ (exact - reported <= 2 ^ (-44))%Q.
Proof.
  intros Hi exact reported. destruct (fraction_bounds i n Hi) as [H0 H1].
  unfold reported, exact, Number_mul, Number_div.
  set (x := (inject_Z (i + 1) / inject_Z n)%Q) in *.
  destruct (to_double_error x H0) as [A1 A2].
  pose proof (to_double_pos x H0) as Hq0.
  pose proof (to_double_le x 1 H0 H1 ltac:(reflexivity)) as Hq1.
  change (inject_Z 1) with 1%Q in Hq1.
  set (q := to_double x) in *.
  destruct (to_double_error (q * 100)) as [B1 B2]; [lra|].
  set (p := to_double (q * 100)) in *.
  assert (E53 : (2 ^ (-53) == 1 # 9007199254740992)%Q) by reflexivity.
  assert (E44 : (2 ^ (-44) == 1 # 17592186044416)%Q) by reflexivity.
  rewrite E53 in *. rewrite E44. split; nra.
Qed.

(** The percentages of this embedding are those the machine computes:
    for every transfer of up to a hundred chunks, and for some larger
    ones, the value reported after each chunk is the result of the two
    operations in the binary64 arithmetic of the kernel. *)
Lemma progress_is_binary64 peerId fileData :
  forallb (fun n => forallb (progress_agrees peerId fileData n) (seqZ 0 n)) (seqZ 1 100) = true /\
  forallb (fun n => forallb (progress_agrees peerId fileData n)
                            [0; 1; 2; n / 3; n / 2; n - 3; n - 2; n - 1])
          [1000; 4097; 65536; 1000003; 2 ^ 31 - 1; 2 ^ 40 + 1; 2 ^ 52 + 1] = true.
Proof. split; vm_compute; reflexivity. Qed.

(** X9. A transfer that returns [true] has reported progress exactly
    once per chunk, in index order, when the application has assigned
    [onTransferProgress], and not at all otherwise.  The value reported
    after chunk [i] is [((i + 1) / totalChunks) * 100] as double
    precision computes it: the quotient rounded to a double, and its
    product by 100 rounded again.  It lies within [2^-44] of the exact
    percentage, above 0 and never above 100, it never decreases from one
    chunk to the next, and it is 100 after the last chunk. *)
Theorem transferFileToPeer_progress peerId fileData w s w' s' :
  transferFileToPeer peerId fileData w s = (Normal true, w', s') ->
  let n := totalChunks_of fileData in
  (exists es,
     trace w' = trace w ++ es /\
     progress_calls es =
       (if onTransferProgress (this w)
        then progress_info peerId fileData n <$> seqZ 0 n else [])) /\
  (forall i, 0 <= i < n ->
     let info := progress_info peerId fileData n i in
     let exact := (inject_Z (i + 1) / inject_Z n * 100)%Q in
     info_peerId info = peerId /\
     info_fileName info = File.name fileData /\
     info_progress info = to_double (to_double (inject_Z (i + 1) / inject_Z n) * 100) /\
     (info_progress info - exact <= 2 ^ (-44))%Q /\
     (exact - info_progress info <= 2 ^ (-44))%Q /\
     (0 < info_progress info <= 100)%Q /\
     (forall j, i <= j < n ->
        (info_progress info <= info_progress (progress_info peerId fileData n j))%Q)) /\
  (0 < n -> info_progress (progress_info peerId fileData n (n - 1)) = 100%Q).
Proof.
  intros Hrun n.
  pose proof (transferFileToPeer_run peerId fileData w s) as H. cbn zeta in H.
  rewrite Hrun in H.
  destruct H as [[_ (es & marker & H & _ & P)]|[[[=] _]|[[=] _]]].
  split; [by exists es|]. split.
  - intros i Hi info exact. unfold info, progress_info. cbn [info_peerId info_fileName info_progress].
    split; [done|]. split; [done|]. split; [done|].
    destruct (progress_error i n Hi) as [E1 E2]. split; [exact E1|]. split; [exact E2|].
    split; [apply progress_bounds, Hi|].
    intros j Hj. apply progress_mono; lia.
  - intros Hn. apply progress_last, Hn.
Qed.

Lemma transferFileToPeer_progress_witness :
  exists w' es,
    transferFileToPeer "P" three_chunks_bin (manager_with_channel "P" ch_open) []
      = (Normal true, w', []) /\
    trace w' = trace (manager_with_channel "P" ch_open) ++ es /\
    info_progress <$> progress_calls es =
      [2345624805922133 # 70368744177664; 2345624805922133 # 35184372088832; 100]%Q.
Proof.
  destruct (transferFileToPeer_uneventful "P" three_chunks_bin
              (manager_with_channel "P" ch_open) [] {| ch_id := 1; readyState := ch_open |}
              eq_refl eq_refl ltac:(constructor)) as (w' & Hrun & _).
  rewrite drop_nil in Hrun.
  destruct (transferFileToPeer_progress "P" three_chunks_bin
              (manager_with_channel "P" ch_open) [] w' [] Hrun)
    as [(es & Htrace & Hp) _].
  exists w', es. split; [exact Hrun|]. split; [exact Htrace|].
  rewrite Hp. vm_compute. reflexivity.
Defined.

(** ** A transfer on a quiet channel touches nothing else *)

Lemma send_chunk_isolated peerId fileData totalChunks i w s channel :
  dataChannels (this w) !! peerId = Some channel -> readyState channel = ch_open ->
  uneventful s ->
  extends (transfer_effect (ch_id channel)) w
          (send_chunk peerId fileData totalChunks i w s).1.2.
Proof.
  intros Hch Hopen Hs.
  unfold send_chunk. rewrite bind_run, (await_resumed_uneventful w s Hs).
  rewrite bind_run. unfold sync, sendDataToPeer. rewrite Hch, decide_True by done.
  cbn [negb]. rewrite bind_run. unfold gets. cbn [this emit]. rewrite bind_run.
  destruct (onTransferProgress (this w)); unfold perform, mret, Async_ret;
    rewrite (await_resumed_uneventful _ (tail s) (uneventful_tail s Hs)); cbn [fst snd].
  - eapply extends_trans; [|by apply extends_emit]. by apply extends_emit.
  - by apply extends_emit.
Qed.

Lemma for_range_isolated peerId fileData totalChunks channel count : forall i w s,
  dataChannels (this w) !! peerId = Some channel -> readyState channel = ch_open ->
  uneventful s ->
  extends (transfer_effect (ch_id channel)) w
          (for_range i count (send_chunk peerId fileData totalChunks) w s).1.2.
Proof.
  induction count as [|k IH]; intros i w s Hch Hopen Hs; [apply extends_refl|].
  cbn [for_range]. rewrite bind_run.
  pose proof (send_chunk_isolated peerId fileData totalChunks i w s channel Hch Hopen Hs)
    as H1.
  destruct (send_chunk_uneventful peerId fileData totalChunks i w s channel Hch Hopen Hs)
    as (w1 & Heq & _ & Ht1).
  rewrite Heq in H1 |- *. cbn [fst snd] in H1.
  eapply extends_trans; [exact H1|].
  apply IH; [by rewrite Ht1 | done | by apply uneventful_drop].
Qed.

(** X10. When the peer's channel is open and no event is delivered
    while the transfer is suspended, [transferFileToPeer] succeeds for
    every file: it returns [true] after two suspensions per chunk, having
    handed over the header, every chunk in index order and the
    completion marker.  Every text went to the channel registered for the
    peer; apart from the reports of progress the transfer did nothing
    else, and no field of the manager has changed. *)
Theorem transferFileToPeer_undisturbed peerId fileData w s channel :
  dataChannels (this w) !! peerId = Some channel -> readyState channel = ch_open ->
  uneventful s ->
  exists w',
    transferFileToPeer peerId fileData w s
      = (Normal true, w', drop (2 * Z.to_nat (totalChunks_of fileData)) s) /\
    sends w w' (transfer_texts fileData) /\
    extends (transfer_effect (ch_id channel)) w w' /\
    this w' = this w.
Proof.
  intros Hch Hopen Hs.
  destruct (transferFileToPeer_uneventful peerId fileData w s channel Hch Hopen Hs)
    as (w' & Hrun & Hsends & Hthis).
  exists w'. split; [done|]. split; [done|]. split; [|done].
  replace w' with (transferFileToPeer peerId fileData w s).1.2 by by rewrite Hrun.
  unfold transferFileToPeer, try_catch. rewrite bind_run.
  unfold sync, sendDataToPeer. rewrite Hch, decide_True by done. cbn [negb].
  rewrite bind_run. fold (totalChunks_of fileData).
  set (w0 := emit _ w).
  pose proof (for_range_isolated peerId fileData (totalChunks_of fileData) channel
                (Z.to_nat (totalChunks_of fileData)) 0 w0 s Hch Hopen Hs) as Hloop.
  destruct (for_range_uneventful peerId fileData (totalChunks_of fileData) channel
              (Z.to_nat (totalChunks_of fileData)) 0 w0 s Hch Hopen Hs)
    as (w1 & Heq & _ & Ht1).
  rewrite Heq in Hloop |- *. cbn [fst snd] in Hloop.
  rewrite bind_run. unfold sync, sendDataToPeer. rewrite Ht1. cbn [this emit w0].
  rewrite Hch, decide_True by done. cbn [fst snd].
  eapply extends_trans; [|by apply extends_emit].
  eapply extends_trans; [|exact Hloop]. by apply extends_emit.
Qed.

Lemma transferFileToPeer_undisturbed_witness :
  exists w',
    transferFileToPeer "P" hello_txt (manager_with_channel "P" ch_open) [quiet; quiet]
      = (Normal true, w', []) /\
    this w' = this (manager_with_channel "P" ch_open).
Proof.
  destruct (transferFileToPeer_undisturbed "P" hello_txt (manager_with_channel "P" ch_open)
              [quiet; quiet] {| ch_id := 1; readyState := ch_open |})
    as (w' & Hrun & _ & _ & Hthis).
  - reflexivity.
  - reflexivity.
  - by repeat constructor.
  - exists w'. split; [exact Hrun | exact Hthis].
Defined.

(** ** No rejection *)









(** ** Sender and receiver agree *)

Lemma transfer_texts_messages fileData :
  transfer_texts fileData = JSON_stringify <$> transfer_messages fileData.
Proof.
  unfold transfer_texts, transfer_messages. cbn [fmap list_fmap].
  by rewrite fmap_app, <- list_fmap_compose.
Qed.

Lemma receive_app peerId messages1 messages2 w :
  receive peerId (messages1 ++ messages2) w =
    receive peerId messages2 (receive peerId messages1 w).
Proof. unfold receive, run_events. by rewrite fmap_app, foldl_app. Qed.

Lemma receive_chunk peerId i n data w :
  onDataReceived (this w) = true ->
  this (channel_onmessage peerId (JSON_stringify (file_chunk i n data)) w) = this w /\
  trace (channel_onmessage peerId (JSON_stringify (file_chunk i n data)) w) =
    trace w ++ received_log peerId (file_chunk i n data)
                 [Lit "Received chunk "; SubstPlus (JNum i) 1; Lit "/"; Subst (JNum n)].
Proof.
  intros Hreg. unfold channel_onmessage, App_onDataReceived. cbn. rewrite Hreg. cbn.
  split; [done|]. by rewrite <- !app_assoc.
Qed.

Lemma receive_chunks peerId fileData (count : nat) : forall i w,
  onDataReceived (this w) = true ->
  this (receive peerId (chunk_message fileData <$> seqZ i (Z.of_nat count)) w) = this w /\
  trace (receive peerId (chunk_message fileData <$> seqZ i (Z.of_nat count)) w) =
    trace w ++
    concat ((fun i => received_log peerId (chunk_message fileData i)
                        [Lit "Received chunk "; SubstPlus (JNum i) 1; Lit "/";
                         Subst (JNum (totalChunks_of fileData))])
              <$> seqZ i (Z.of_nat count)).
Proof.
  induction count as [|k IH]; intros i w Hreg.
  - cbn. by rewrite app_nil_r.
  - rewrite seqZ_cons by lia.
    replace (Z.pred (Z.of_nat (S k))) with (Z.of_nat k) by lia.
    cbn [fmap list_fmap concat].
    change (receive peerId (?m :: ?ms) w)
      with (receive peerId ms (channel_onmessage peerId (JSON_stringify m) w)).
    destruct (receive_chunk peerId i (totalChunks_of fileData)
                (base64 (chunk_bytes fileData i)) w Hreg) as [Ht Htr].
    fold (chunk_message fileData i) in Ht, Htr.
    destruct (IH (Z.succ i) (channel_onmessage peerId
                               (JSON_stringify (chunk_message fileData i)) w))
      as [IHt IHtr]; [by rewrite Ht|].
    split; [by rewrite IHt|]. by rewrite IHtr, Htr, <- app_assoc.
Qed.

(** X12. The receiving side reads every message of a transfer the way
    the sending side wrote it.  When the texts of a complete transfer
    arrive at a manager whose application has assigned [onDataReceived],
    each is parsed and passed on once, and the application logs the
    file's name and size from the header, "Received chunk i+1/totalChunks"
    for the chunks in index order, and the file's name from the completion
    marker: no property is missing on the way, nothing is reported as an
    error, and no field of the manager changes. *)
Theorem transfer_received_as_sent peerId fileData w :
  onDataReceived (this w) = true ->
  let n := totalChunks_of fileData in
  JSON_stringify <$> transfer_messages fileData = transfer_texts fileData /\
  this (receive peerId (transfer_messages fileData) w) = this w /\
  trace (receive peerId (transfer_messages fileData) w) =
    trace w
    ++ received_log peerId (file_metadata fileData)
         [Lit "Receiving file: "; Subst (JStr (File.name fileData));
          Lit " ("; Subst (JNum (File.size fileData)); Lit " bytes)"]
    ++ concat ((fun i => received_log peerId (chunk_message fileData i)
                           [Lit "Received chunk "; SubstPlus (JNum i) 1; Lit "/";
                            Subst (JNum n)]) <$> seqZ 0 n)
    ++ received_log peerId (transfer_complete fileData)
         [Lit "File transfer completed: "; Subst (JStr (File.name fileData))].
Proof.
  intros Hreg n. split; [symmetry; apply transfer_texts_messages|].
  unfold transfer_messages.
  change (receive peerId (?m :: ?ms) w)
    with (receive peerId ms (channel_onmessage peerId (JSON_stringify m) w)).
  set (w1 := channel_onmessage peerId (JSON_stringify (file_metadata fileData)) w).
  assert (H1 : this w1 = this w /\
               trace w1 = trace w ++ received_log peerId (file_metadata fileData)
                 [Lit "Receiving file: "; Subst (JStr (File.name fileData));
                  Lit " ("; Subst (JNum (File.size fileData)); Lit " bytes)"]).
  { unfold w1, channel_onmessage, App_onDataReceived. cbn. rewrite Hreg. cbn.
    split; [done|]. by rewrite <- !app_assoc. }
  destruct H1 as [Ht1 Htr1]. clearbody w1.
  rewrite receive_app.
  pose proof (totalChunks_of_nonneg fileData) as Hn. fold n in Hn |- *.
  destruct (receive_chunks peerId fileData (Z.to_nat n) 0 w1) as [Ht2 Htr2];
    [by rewrite Ht1|].
  rewrite Z2Nat.id in Ht2, Htr2 by done. fold n in Htr2.
  set (w2 := receive peerId (chunk_message fileData <$> seqZ 0 n) w1) in *. clearbody w2.
  unfold receive, run_events. cbn [fmap list_fmap foldl handle compose].
  unfold channel_onmessage, App_onDataReceived. cbn.
  rewrite Ht2, Ht1, Hreg. split; [cbn; congruence|].
  cbn [trace emit]. rewrite Htr2, Htr1. unfold received_log.
  by repeat (rewrite <- app_assoc; cbn [app]).
Qed.

Lemma transfer_received_as_sent_witness :
  onDataReceived (this (manager_with_channel "Q" ch_open)) = true /\
  completion_log (JStr "a.txt")
    ∈ trace (receive "Q" (transfer_messages hello_txt) (manager_with_channel "Q" ch_open)).
Proof.
  split; [reflexivity|].
  destruct (transfer_received_as_sent "Q" hello_txt (manager_with_channel "Q" ch_open)
              eq_refl) as (_ & _ & ->).
  rewrite !elem_of_app. right. right. right.
  do 2 apply list_elem_of_further. apply list_elem_of_here.
Defined.

(** X13. When the signaling socket is not open, [initiateConnection(peerId)]
    still returns [true] if the platform fulfils [createOffer()] and
    [setLocalDescription(offer)]: the connection and the channel are
    created and registered, and the offer is set as the local description,
    but nothing is written to the socket. *)
Theorem initiateConnection_unsent peerId w s offer v :
  signalingSocket (this w) && isConnected (this w) = false ->
  pc_close (nextObj w) ∉ trace w -> uneventful s ->
  settles (nth 1 s quiet) = Fulfilled offer ->
  settles (nth 2 s quiet) = Fulfilled v ->
  let pc := nextObj w in
  let ch := S (nextObj w) in
  exists w',
    initiateConnection peerId w s = (Normal true, w', drop 3 s) /\
    trace w' =
      trace w ++
      [new_RTCPeerConnection pc; pc_createDataChannel pc ch "fileTransfer";
       pc_createOffer pc; pc_setLocalDescription pc offer] /\
    peerConnections (this w') !! peerId = Some {| pc_id := pc; connectionState := pc_new |} /\
    dataChannels (this w') !! peerId = Some {| ch_id := ch; readyState := ch_connecting |}.
Proof.
  intros Hdown Hfresh Hs H1 H2 pc ch.
  unfold initiateConnection, try_catch.
  rewrite bind_run, await_createPeerConnection_run.
  destruct (uneventful_next_tick s Hs) as [Hd _]. rewrite next_tick_nth in Hd.
  cbn in Hd. rewrite Hd. cbn [run_events foldl pc_id].
  rewrite bind_run, createDataChannel_run; cycle 1.
  { cbn. intros [Hin|Hin]%elem_of_app; [done|].
    apply elem_of_cons in Hin as [[=]|Hin]. by apply elem_of_nil in Hin. }
  rewrite bind_run. unfold perform at 1. rewrite bind_run.
  rewrite pc_call_uneventful by by apply uneventful_tail.
  rewrite nth_tail, H1. rewrite bind_run.
  rewrite pc_call_uneventful by by do 2 apply uneventful_tail.
  rewrite !nth_tail, H2. rewrite bind_run. unfold perform at 1, sendSignalingMessage.
  cbn [this emit with_this setupDataChannel set_dataChannels set_peerConnections
       createPeerConnection sync fresh fst snd signalingSocket isConnected].
  rewrite Hdown.
  eexists. split; [by destruct s as [|? [|? [|? ?]]]|].
  split; [cbn; by repeat (rewrite <- app_assoc; cbn [app])|].
  split; cbn; apply JSMap_lookup_insert_eq.
Qed.

Lemma initiateConnection_unsent_witness :
  exists w',
    initiateConnection "P" (disconnect manager_signaling)
      [quiet; fulfilled (sdp "offer" "v=0 o=- 1"); fulfilled JUndefined]
      = (Normal true, w', []) /\
    dataChannels (this w') !! "P" = Some {| ch_id := 1; readyState := ch_connecting |}.
Proof.
  destruct (initiateConnection_unsent "P" (disconnect manager_signaling)
              [quiet; fulfilled (sdp "offer" "v=0 o=- 1"); fulfilled JUndefined]
              (sdp "offer" "v=0 o=- 1") JUndefined)
    as (w' & Hrun & _ & _ & Hch).
  - reflexivity.
  - vm_compute. intros Hin. apply elem_of_cons in Hin as [[=]|Hin].
    by apply elem_of_nil in Hin.
  - by repeat constructor.
  - reflexivity.
  - reflexivity.
  - exists w'. by split.
Defined.

(** ** Inbound text *)

Lemma JSON_parse_defined text : JSON_parse text <> Normal JUndefined.
Proof.
  destruct text as [v|raw]; [|done].
  by destruct v as [| |b|n|str|items|fields].
Qed.

Lemma JSON_parse_error text error : JSON_parse text = Throw error -> error = SyntaxError.
Proof.
  destruct text as [v|raw]; [|by intros [= <-]].
  destruct v as [| |b|n|str|items|fields]; by intros [= <-].
Qed.

(** X14. What [channel.onmessage] lets through.  Text that [JSON.parse]
    rejects never reaches the application: the only effect is the report
    of the [SyntaxError].  What [JSON.parse] returns is never
    [undefined]; it is handed to [onDataReceived], if one is assigned,
    and is dropped without any effect otherwise.  The handler of the
    application logs the value first.  Then [null] makes it throw when it
    reads [data.type], and a message of the transfer protocol makes it
    throw when one of the properties it puts in its template literal is
    an object that cannot be converted to a primitive; the manager
    catches either and reports it as an error of parsing.  For every
    other value nothing is written to [console.error].  In no case does
    a field of the manager change. *)
Theorem channel_onmessage_lets_through peerId text w :
  this (channel_onmessage peerId text w) = this w /\
  match JSON_parse text with
  | Throw error =>
      error = SyntaxError /\
      channel_onmessage peerId text w = emit (parse_failure SyntaxError) w
  | Normal data =>
      data <> JUndefined /\
      if onDataReceived (this w) then
        exists es,
          trace (channel_onmessage peerId text w)
            = trace w ++ call_onDataReceived peerId data
                      :: console_log [Str ("Received data from " +:+ peerId +:+ ":"); Val data]
                      :: es /\
          match get data "type" with
          | Throw error => es = [parse_failure error]
          | Normal type =>
              if existsb (fun k => ToPrimitive_throws (property data k))
                         (logged_properties type)
              then es = [parse_failure TypeError_primitive]
              else forall args, console_error args ∉ es
          end
      else channel_onmessage peerId text w = w
  end.
Proof.
  split; [apply channel_onmessage_this|].
  pose proof (JSON_parse_defined text) as Hdef.
  pose proof (JSON_parse_error text) as Herr.
  unfold channel_onmessage.
  destruct (JSON_parse text) as [data|error].
  2: { rewrite (Herr error eq_refl). by split. }
  split; [by intros ->|].
  destruct (onDataReceived (this w)); [|done].
  unfold App_onDataReceived, console_log_template, logged_properties, property.
  destruct (get data "type") as [type|error].
  2: { eexists. split; [|reflexivity]. cbn [trace emit].
       by repeat (rewrite <- app_assoc; cbn [app]). }
  assert (Hnone : forall args e, console_error args ∉ [console_log e]).
  { intros args e Hin. apply elem_of_cons in Hin as [[=]|Hin]. by apply elem_of_nil in Hin. }
  destruct (strict_eq_str type "file_metadata");
    [|destruct (strict_eq_str type "file_chunk");
      [|destruct (strict_eq_str type "transfer_complete")]];
    cbn [template_throws existsb orb]; rewrite ?orb_false_r.
  4: { exists []. split; [|intros args Hin; by apply elem_of_nil in Hin].
       cbn [trace emit]. by repeat (rewrite <- app_assoc; cbn [app]). }
  all: match goal with |- context [if ?b then (Throw _, _) else _] => destruct b end;
    eexists; (split; [cbn [trace emit]; by repeat (rewrite <- app_assoc; cbn [app])|]);
    first [reflexivity | intros args; apply Hnone].
Qed.

(** * Properties of the file browser *)

(** ** Selection *)

Lemma Set_has_true x s : Set_has x s = true <-> x ∈ s.
Proof. unfold Set_has. apply bool_decide_eq_true. Qed.

Lemma Set_has_false x s : Set_has x s = false <-> x ∉ s.
Proof. unfold Set_has. apply bool_decide_eq_false. Qed.

Lemma Set_delete_absent x s : x ∉ s -> Set_delete x s = s.
Proof.
  unfold Set_delete. induction s as [|y s IH]; [done|].
  intros Hnot. apply not_elem_of_cons in Hnot as [Hne Hnot].
  rewrite filter_cons_True by done. by rewrite IH.
Qed.

Lemma Set_delete_add x s : x ∉ s -> Set_delete x (s ++ [x]) = s.
Proof.
  intros Hnot. unfold Set_delete. rewrite filter_app.
  fold (Set_delete x s). rewrite Set_delete_absent by done.
  rewrite filter_cons_False by (intros H; by apply H).
  by rewrite filter_nil, app_nil_r.
Qed.

Lemma Set_delete_length x s :
  NoDup s -> x ∈ s -> S (length (Set_delete x s)) = length s.
Proof.
  unfold Set_delete. induction 1 as [|y s Hy Hs IH]; intros Hin.
  - by apply elem_of_nil in Hin.
  - destruct (decide (y = x)) as [->|Hne].
    + rewrite filter_cons_False by (intros H; by apply H).
      fold (Set_delete x s). by rewrite Set_delete_absent.
    + rewrite filter_cons_True by done. cbn. f_equal. apply IH.
      apply elem_of_cons in Hin as [->|Hin]; [by destruct Hne | done].
Qed.

(** X15. A click on an item toggles it in the selection and touches
    nothing else: afterwards the path of the item is selected exactly when
    it was not before, and every other path is selected exactly when it
    was before; the size of the selection changes by one.  A second click
    on the same item restores the selection, and restores its order too
    when the item was not selected at first. *)
Theorem handleItemClick_toggles item selectedItems :
  NoDup selectedItems ->
  let clicked := handleItemClick item selectedItems in
  NoDup clicked /\
  (forall x, x ∈ clicked <->
             if decide (x = Entry.path item) then x ∉ selectedItems else x ∈ selectedItems) /\
  length clicked =
    (if Set_has (Entry.path item) selectedItems
     then length selectedItems - 1 else length selectedItems + 1)%nat /\
  (forall x, x ∈ handleItemClick item clicked <-> x ∈ selectedItems) /\
  (Entry.path item ∉ selectedItems -> handleItemClick item clicked = selectedItems).
Proof.
  intros Hnd clicked.
  assert (Hmem : forall s x, x ∈ handleItemClick item s <->
             if decide (x = Entry.path item) then x ∉ s else x ∈ s).
  { intros s x. unfold handleItemClick, Set_add, Set_delete.
    destruct (Set_has (Entry.path item) s) eqn:Hhas.
    - apply Set_has_true in Hhas. rewrite list_elem_of_filter.
      case_decide; subst; [|tauto]. split; [by intros [? _] | done].
    - apply Set_has_false in Hhas. rewrite elem_of_app, list_elem_of_singleton.
      case_decide; subst; tauto. }
  split; [|split; [|split; [|split]]].
  - unfold clicked, handleItemClick, Set_add, Set_delete.
    destruct (Set_has (Entry.path item) selectedItems) eqn:Hhas.
    + by apply NoDup_filter.
    + apply Set_has_false in Hhas. apply NoDup_app. split; [done|].
      split; [|apply NoDup_singleton].
      intros x Hx ->%list_elem_of_singleton. by apply Hhas.
  - apply Hmem.
  - unfold clicked, handleItemClick, Set_add.
    destruct (Set_has (Entry.path item) selectedItems) eqn:Hhas.
    + apply Set_has_true in Hhas.
      pose proof (Set_delete_length _ _ Hnd Hhas). lia.
    + by rewrite length_app.
  - intros x. rewrite Hmem. case_decide as Hx.
    + subst x. unfold clicked. rewrite Hmem.
      rewrite decide_True by done.
      destruct (decide (Entry.path item ∈ selectedItems)); tauto.
    + unfold clicked. rewrite Hmem. by rewrite decide_False.
  - intros Hnot. unfold clicked, handleItemClick at 2.
    rewrite (proj2 (Set_has_false _ _) Hnot). unfold Set_add.
    rewrite (proj2 (Set_has_false _ _) Hnot). unfold handleItemClick.
    assert (Set_has (Entry.path item) (selectedItems ++ [Entry.path item]) = true) as ->.
    { apply Set_has_true, elem_of_app. right. apply list_elem_of_here. }
    by apply Set_delete_add.
Qed.

Lemma handleItemClick_toggles_witness :
  NoDup ["a.txt"; "docs"] /\
  handleItemClick {| Entry.path := "docs"; Entry.name := "docs"; Entry.is_directory := true |}
                  ["a.txt"; "docs"] = ["a.txt"] /\
  NoDup (handleItemClick
           {| Entry.path := "docs"; Entry.name := "docs"; Entry.is_directory := true |}
           ["a.txt"; "docs"]).
Proof.
  assert (Hnd : NoDup ["a.txt"; "docs"]).
  { apply NoDup_cons. split.
    - intros Hin. apply list_elem_of_singleton in Hin. discriminate.
    - apply NoDup_singleton. }
  split; [exact Hnd|]. split; [reflexivity|].
  exact (proj1 (handleItemClick_toggles
                  {| Entry.path := "docs"; Entry.name := "docs"; Entry.is_directory := true |}
                  ["a.txt"; "docs"] Hnd)).
Defined.

(** ** Navigation *)

Lemma append_String c (s t : string) : String c s +:+ t = String c (s +:+ t).
Proof. reflexivity. Qed.

Lemma append_assoc (s1 s2 s3 : string) : (s1 +:+ s2) +:+ s3 = s1 +:+ (s2 +:+ s3).
Proof.
  induction s1 as [|c s1 IH]; [done|]. by rewrite !append_String, IH.
Qed.

Lemma length_append (s1 s2 : string) :
  String.length (s1 +:+ s2) = (String.length s1 + String.length s2)%nat.
Proof.
  induction s1 as [|c s1 IH]; [done|]. rewrite append_String. cbn. by rewrite IH.
Qed.

Lemma split_nonempty sep s : split sep s <> [].
Proof.
  destruct s as [|c s]; cbn; [done|].
  destruct (Ascii.eqb c sep); [done|]. by destruct (split sep s).
Qed.

Lemma join_cons_cons sep x y l : join sep (x :: y :: l) = x +:+ sep +:+ join sep (y :: l).
Proof. reflexivity. Qed.

Lemma join_String sep c x l : join sep (String c x :: l) = String c (join sep (x :: l)).
Proof. destruct l; reflexivity. Qed.

Lemma join_split sep s : join (String sep "") (split sep s) = s.
Proof.
  induction s as [|c s IH]; [done|]. cbn [split].
  destruct (Ascii.eqb_spec c sep) as [->|Hne].
  - destruct (split sep s) as [|y l] eqn:Hsplit; [by destruct (split_nonempty sep s)|].
    rewrite join_cons_cons, IH. reflexivity.
  - destruct (split sep s) as [|y l] eqn:Hsplit; [by destruct (split_nonempty sep s)|].
    by rewrite join_String, IH.
Qed.

Lemma split_without sep s : contains_char sep s = false -> split sep s = [s].
Proof.
  induction s as [|c s IH]; [done|]. cbn.
  intros [Hc Hs]%orb_false_elim. rewrite Hc. by rewrite IH.
Qed.

Lemma split_app_sep sep s last :
  contains_char sep last = false ->
  split sep (s +:+ String sep last) = split sep s ++ [last].
Proof.
  intros Hlast. induction s as [|c s IH].
  - change ("" +:+ String sep last) with (String sep last).
    cbn [split]. rewrite Ascii.eqb_refl. by rewrite split_without.
  - change (String c s +:+ String sep last) with (String c (s +:+ String sep last)).
    cbn [split]. rewrite IH.
    destruct (Ascii.eqb c sep); [done|].
    destruct (split sep s) as [|y l] eqn:Hsplit; [by destruct (split_nonempty sep s)|].
    done.
Qed.

Lemma split_segments sep s : Forall (fun part => contains_char sep part = false) (split sep s).
Proof.
  induction s as [|c s IH]; [by repeat constructor|]. cbn [split].
  destruct (Ascii.eqb c sep) eqn:Hc; [by constructor|].
  destruct (split sep s) as [|y l] eqn:Hsplit; [by destruct (split_nonempty sep s)|].
  inversion IH as [|? ? Hy Hl]; subst. constructor; [|done]. cbn. by rewrite Hc, Hy.
Qed.

Lemma join_snoc sep l x : l <> [] -> join sep (l ++ [x]) = join sep l +:+ sep +:+ x.
Proof.
  induction l as [|y l IH]; [done|]. intros _.
  destruct l as [|z l]; [done|].
  change ((y :: z :: l) ++ [x]) with (y :: (z :: l) ++ [x]).
  cbn [app]. rewrite !join_cons_cons.
  change (z :: l ++ [x]) with ((z :: l) ++ [x]). rewrite IH by done.
  by rewrite !append_assoc.
Qed.

Lemma removelast_last_split sep s :
  split sep s = removelast (split sep s) ++ [List.last (split sep s) ""] /\
  contains_char sep (List.last (split sep s) "") = false.
Proof.
  pose proof (split_nonempty sep s) as Hne.
  pose proof (split_segments sep s) as Hseg.
  split.
  - by apply app_removelast_last.
  - rewrite (app_removelast_last "" Hne) in Hseg.
    apply Forall_app in Hseg as [_ Hlast]. by inversion Hlast.
Qed.

(** X16. [handleBack] removes the last segment of the path, and only
    that: the path it asks for is the current path without its last
    slash-free segment and without the slash before it, so it is strictly
    shorter.  It asks for nothing at the top only, where the path is
    empty. *)
Theorem handleBack_parent currentPath :
  match handleBack currentPath with
  | Some newPath =>
      exists last,
        contains_char "/" last = false /\
        (currentPath = newPath +:+ "/" +:+ last \/ (newPath = "" /\ currentPath = last)) /\
        (String.length newPath < String.length currentPath)%nat
  | None => currentPath = ""
  end.
Proof.
  unfold handleBack. destruct currentPath as [|c rest] eqn:Hcur; [done|].
  rewrite <- Hcur.
  destruct (removelast_last_split "/" currentPath) as [Hsplit Hlast].
  set (last := List.last (split "/" currentPath) "") in *.
  exists last. split; [done|].
  pose proof (join_split "/" currentPath) as Hjoin. rewrite Hsplit in Hjoin.
  destruct (removelast (split "/" currentPath)) as [|y l] eqn:Hrem.
  - cbn in Hjoin. subst last. split; [by right|]. rewrite Hcur. cbn. lia.
  - rewrite join_snoc in Hjoin by done. split; [by left|].
    rewrite <- Hjoin at 1. rewrite !length_append. cbn. lia.
Qed.

(** X17. Back undoes Open.  When [handleOpen] asks for a path, having
    found the one selected item in the listing and found it to be a
    directory, and the names of the listing are not empty and hold no
    slash, [handleBack] at that path asks for the path [handleOpen]
    started from. *)
Theorem handleBack_handleOpen selectedItems files currentPath newPath :
  Forall entry_name_ok files ->
  handleOpen selectedItems files currentPath = Some newPath ->
  handleBack newPath = Some currentPath.
Proof.
  intros Hfiles. unfold handleOpen.
  destruct selectedItems as [|selected [|? ?]]; try done.
  destruct (List.find _ files) as [item|] eqn:Hfind; [|done].
  apply find_some in Hfind as [Hin _].
  rewrite Forall_forall in Hfiles. destruct (Hfiles item) as [Hname Hslash].
  { by apply list_elem_of_In. }
  destruct (Entry.is_directory item); [|done].
  destruct currentPath as [|c rest] eqn:Hcur.
  - intros [= <-]. unfold handleBack.
    destruct (Entry.name item) as [|c n] eqn:Hn; [done|].
    cbv beta iota. rewrite <- Hn. by rewrite split_without by (by rewrite Hn).
  - rewrite <- Hcur. intros [= <-]. unfold handleBack.
    destruct (currentPath +:+ "/" +:+ Entry.name item) as [|c' n] eqn:Happ.
    { rewrite Hcur in Happ. discriminate. }
    cbv beta iota. rewrite <- Happ.
    change (currentPath +:+ "/" +:+ Entry.name item)
      with (currentPath +:+ String "/" (Entry.name item)).
    rewrite split_app_sep by done.
    rewrite removelast_last. by rewrite join_split.
Qed.

Lemma handleBack_handleOpen_witness :
  handleOpen ["music/albums"]
    [{| Entry.path := "music/a.mp3"; Entry.name := "a.mp3"; Entry.is_directory := false |};
     {| Entry.path := "music/albums"; Entry.name := "albums"; Entry.is_directory := true |}]
    "music" = Some "music/albums" /\
  handleBack "music/albums" = Some "music".
Proof.
  split; [reflexivity|].
  apply (handleBack_handleOpen ["music/albums"]
    [{| Entry.path := "music/a.mp3"; Entry.name := "a.mp3"; Entry.is_directory := false |};
     {| Entry.path := "music/albums"; Entry.name := "albums"; Entry.is_directory := true |}]).
  - repeat constructor; discriminate.
  - reflexivity.
Defined.

(** X18. A download is saved under the last segment of its path: the
    name holds no slash, and the path is that name, alone or after a
    directory and a slash.  A path without a slash is its own name. *)
Theorem handleDownload_name_last_segment itemPath :
  let name := handleDownload_name itemPath in
  contains_char "/" name = false /\
  (itemPath = name \/ exists dir, itemPath = dir +:+ "/" +:+ name) /\
  (contains_char "/" itemPath = false -> name = itemPath).
Proof.
  intros name. unfold handleDownload_name in name.
  destruct (removelast_last_split "/" itemPath) as [Hsplit Hlast].
  fold name in Hsplit, Hlast. split; [done|]. split.
  - pose proof (join_split "/" itemPath) as Hjoin. rewrite Hsplit in Hjoin.
    destruct (removelast (split "/" itemPath)) as [|y l] eqn:Hrem.
    + left. by rewrite <- Hjoin.
    + right. rewrite join_snoc in Hjoin by done. by eexists.
  - intros Hfree. unfold name. by rewrite split_without.
Qed.

(** ** Devices *)

(** X19. The list of devices holds this device at most once, and never
    as a remote one.  An entry is marked local exactly when its id is
    [localClientId]; there is one such entry, the first of the list, when
    the local backend is available and [localClientId] is a non-empty
    string, and none otherwise, whatever the server lists under that id.
    The remote entries are the clients of the server with another id, in
    the order of the server; while [localClientId] is [null] they are all
    the clients of the server. *)
Theorem allDevices_local_once localClientAvailable localClientId serverClients :
  let devices := allDevices localClientAvailable localClientId serverClients in
  (forall d, d ∈ devices ->
     (isLocal d = true <-> Some (client_id (device_client d)) = localClientId)) /\
  filter (fun d => isLocal d = true) devices =
    match localClientId with
    | Some id => if localClientAvailable && negb (String.eqb id "") then take 1 devices else []
    | None => []
    end /\
  device_client <$> filter (fun d => isLocal d = false) devices =
    filter (fun client => Some (client_id client) <> localClientId) serverClients /\
  (localClientId = None ->
   devices = (fun client => {| device_client := client; isLocal := false |}) <$> serverClients).
Proof.
  intros devices.
  set (remote := fun client => {| device_client := client; isLocal := false |}).
  set (others := filter (fun client => Some (client_id client) <> localClientId) serverClients).
  assert (Hrl : filter (fun d => isLocal d = true) (remote <$> others) = []).
  { generalize others. intros l. induction l as [|c l IH]; [done|].
    rewrite fmap_cons, filter_cons_False by done. exact IH. }
  assert (Hrr : device_client <$> filter (fun d => isLocal d = false) (remote <$> others)
                = others).
  { generalize others. intros l. induction l as [|c l IH]; [done|].
    rewrite fmap_cons, filter_cons_True by done. rewrite fmap_cons. cbn [device_client remote].
    by rewrite IH. }
  assert (Hothers : forall d, d ∈ remote <$> others ->
            isLocal d = false /\ Some (client_id (device_client d)) <> localClientId).
  { intros d (c & -> & Hc)%list_elem_of_fmap. split; [done|].
    unfold others in Hc. by apply list_elem_of_filter in Hc as [? _]. }
  unfold devices, allDevices. fold remote. fold others.
  destruct localClientId as [id|].
  - destruct (localClientAvailable && negb (String.eqb id "")) eqn:Hlocal.
    + split; [|split; [|split]]; [| | |done].
      * intros d [->%list_elem_of_singleton|Hd]%elem_of_app; [done|].
        destruct (Hothers d Hd) as [-> Hne]. split; [done|]. by intros.
      * rewrite filter_app, Hrl. by rewrite filter_cons_True.
      * rewrite filter_app. rewrite filter_cons_False by done.
        by rewrite filter_nil.
    + split; [|split; [|split]]; [| | |done].
      * intros d Hd. destruct (Hothers d Hd) as [-> Hne]. split; [done|]. by intros.
      * exact Hrl.
      * exact Hrr.
  - split; [|split; [|split]].
    + intros d Hd. destruct (Hothers d Hd) as [-> Hne]. done.
    + exact Hrl.
    + exact Hrr.
    + intros _. cbn. f_equal. unfold others.
      clear. induction serverClients as [|c l IH]; [done|].
      rewrite filter_cons_True by done. by rewrite IH.
Qed.

(** ** An offer that gets no answer *)

Lemma handler_effect_by_handler e : handler_effect e -> by_handler e.
Proof. by destruct e. Qed.

Lemma cleanupPeerConnection_handler_effect peerId w :
  extends handler_effect w (cleanupPeerConnection peerId w).
Proof.
  exists (option_list (pc_close ∘ pc_id <$> peerConnections (this w) !! peerId)
          ++ option_list (channel_close ∘ ch_id <$> dataChannels (this w) !! peerId)).
  split; [apply cleanupPeerConnection_trace|].
  destruct (peerConnections (this w) !! peerId), (dataChannels (this w) !! peerId);
    cbn; by repeat constructor.
Qed.

Lemma handle_handler_effect e w : extends handler_effect w (handle e w).
Proof.
  destruct e as [pc p st|p c|p st|ch p st|p t|p err|]; cbn [handle].
  - eapply extends_trans; [apply extends_with_this|].
    unfold onconnectionstatechange, App_onPeerConnected, App_onPeerDisconnected.
    repeat case_decide; cbn [this emit];
      repeat match goal with |- context [if ?b then _ else _] => destruct b end;
      try (eapply extends_trans; [| apply cleanupPeerConnection_handler_effect]);
      repeat extends_step.
  - unfold onicecandidate, sendSignalingMessage.
    repeat match goal with |- context [if ?b then _ else _] => destruct b end;
      try apply extends_refl.
    apply extends_emit. by eexists _, _.
  - by apply extends_same_trace.
  - destruct st; repeat extends_step.
  - unfold channel_onmessage, App_onDataReceived.
    destruct (JSON_parse t) as [d|e]; [|repeat extends_step].
    destruct (onDataReceived (this w)); [|repeat extends_step].
    destruct (get d "type") as [ty|e]; [|repeat extends_step].
    unfold console_log_template.
    repeat match goal with |- context [if ?b then _ else _] => destruct b end;
      repeat extends_step.
  - repeat extends_step.
  - repeat extends_step.
Qed.

Lemma run_events_handler_effect events w :
  extends handler_effect w (run_events events w).
Proof.
  unfold run_events. revert w.
  induction events as [|e events IH]; intros w; cbn [foldl]; [apply extends_refl|].
  eapply extends_trans; [apply handle_handler_effect | apply IH].
Qed.

Lemma pc_call_run call w s :
  exists es,
    pc_call call w s =
      (match settles (nth 0 s quiet) with
       | Fulfilled v => Normal v
       | Rejected error => Throw error
       end,
       run_events (during (nth 0 s quiet)) (emit call w), tail s) /\
    trace (run_events (during (nth 0 s quiet)) (emit call w)) = trace w ++ call :: es /\
    Forall handler_effect es.
Proof.
  destruct (run_events_handler_effect (during (nth 0 s quiet)) (emit call w))
    as (es & H & F).
  exists es. split; [|split; [|done]].
  - unfold pc_call. rewrite bind_run. unfold perform, await_platform.
    rewrite next_tick_nth. by destruct (settles (nth 0 s quiet)).
  - rewrite H. cbn. by rewrite <- app_assoc.
Qed.

Lemma negotiation_calls_handler_effect es :
  Forall handler_effect es -> negotiation_calls es = [].
Proof.
  intros F. apply negotiation_calls_by_handler.
  eapply Forall_impl; [exact F|]. apply handler_effect_by_handler.
Qed.

Lemma negotiation_calls_cons e es :
  is_negotiation_call e = true -> negotiation_calls (e :: es) = e :: negotiation_calls es.
Proof. intros H. unfold negotiation_calls. cbn. by rewrite H. Qed.

Ltac negotiation_calls_of_run :=
  repeat first [ rewrite negotiation_calls_app
               | rewrite negotiation_calls_cons by done
               | rewrite negotiation_calls_handler_effect by done ];
  done.

Lemma Forall_call_or_handler es :
  Forall handler_effect es ->
  Forall (fun e => is_negotiation_call e = true \/ handler_effect e) es.
Proof. intros F. eapply Forall_impl; [exact F|]. by right. Qed.

Lemma drop_S_tail {A} (s : list A) k : drop (S k) s = tail (drop k s).
Proof. revert s. induction k as [|k IH]; intros [|t s]; cbn; auto. Qed.

(** X20. How [handleOffer] ends.  It never fails.  When the platform
    rejects [setRemoteDescription(offer)], [createAnswer()] or
    [setLocalDescription(answer)], the calls that follow are not made,
    the error is logged as ['Failed to handle offer:'] and nothing is
    sent for it: all that reaches the signaling socket meanwhile are the
    ICE candidates of the handlers.  When the three calls are fulfilled,
    the answer is sent if the signaling socket is in place and open at
    that moment; otherwise it is dropped, and nothing is logged for it. *)
Theorem handleOffer_outcomes peerId offer w s :
  let pc := nextObj w in
  let '(result, w', s') := handleOffer peerId offer w s in
  result = Normal tt /\
  match settles (nth 1 s quiet), settles (nth 2 s quiet), settles (nth 3 s quiet) with
  | Rejected error, _, _ =>
      gives_up w w' s s' 2 [new_RTCPeerConnection pc; pc_setRemoteDescription pc offer] error
  | Fulfilled _, Rejected error, _ =>
      gives_up w w' s s' 3
        [new_RTCPeerConnection pc; pc_setRemoteDescription pc offer; pc_createAnswer pc] error
  | Fulfilled _, Fulfilled answer, Rejected error =>
      gives_up w w' s s' 4
        [new_RTCPeerConnection pc; pc_setRemoteDescription pc offer; pc_createAnswer pc;
         pc_setLocalDescription pc answer] error
  | Fulfilled _, Fulfilled answer, Fulfilled _ =>
      s' = drop 4 s /\
      exists es,
        trace w' =
          trace w ++ es ++
          (if signalingSocket (this w') && isConnected (this w')
           then [socket_send (JSON_stringify
                   (JObj [("type", JStr "answer"); ("to_client", JStr peerId);
                          ("data", answer)]))]
           else []) /\
        negotiation_calls es =
          [new_RTCPeerConnection pc; pc_setRemoteDescription pc offer; pc_createAnswer pc;
           pc_setLocalDescription pc answer] /\
        Forall (fun e => is_negotiation_call e = true \/ handler_effect e) es
  end.
Proof.
  intros pc. unfold handleOffer, try_catch.
  rewrite bind_run, await_createPeerConnection_run.
  set (w0 := (createPeerConnection peerId w s).1.2). fold pc.
  assert (Ht0 : trace w0 = trace w ++ [new_RTCPeerConnection pc]) by done.
  clearbody w0.
  destruct (run_events_handler_effect (during (nth 0 s quiet)) w0) as (es0 & Ht1 & F0).
  set (w1 := run_events (during (nth 0 s quiet)) w0) in *. clearbody w1.
  cbn [pc_id]. rewrite bind_run.
  destruct (pc_call_run (pc_setRemoteDescription pc offer) w1 (tail s))
    as (es1 & -> & Ht2 & F1).
  rewrite !nth_tail in *.
  set (w2 := run_events _ (emit (pc_setRemoteDescription pc offer) w1)) in *. clearbody w2.
  pose proof (drop_S_tail s) as Hdrop.
  destruct (settles (nth 1 s quiet)) as [v1|error] eqn:H1.
  2:{ cbn. split; [done|]. split; [done|].
      exists ([new_RTCPeerConnection pc] ++ es0 ++ pc_setRemoteDescription pc offer :: es1).
      split; [|split].
      - cbn [trace emit]. rewrite Ht2, Ht1, Ht0. by repeat (rewrite <- app_assoc; cbn [app]).
      - negotiation_calls_of_run.
      - repeat first [ apply Forall_app; split | apply Forall_cons; split; [by left|]
                     | by apply Forall_call_or_handler | apply Forall_nil ]. }
  rewrite bind_run.
  destruct (pc_call_run (pc_createAnswer pc) w2 (tail (tail s))) as (es2 & -> & Ht3 & F2).
  rewrite !nth_tail in *.
  set (w3 := run_events _ (emit (pc_createAnswer pc) w2)) in *. clearbody w3.
  destruct (settles (nth 2 s quiet)) as [answer|error] eqn:H2.
  2:{ cbn. split; [done|]. split; [by rewrite !Hdrop|].
      exists ([new_RTCPeerConnection pc] ++ es0 ++ pc_setRemoteDescription pc offer :: es1
              ++ pc_createAnswer pc :: es2).
      split; [|split].
      - cbn [trace emit]. rewrite Ht3, Ht2, Ht1, Ht0. by repeat (rewrite <- app_assoc; cbn [app]).
      - negotiation_calls_of_run.
      - repeat first [ apply Forall_app; split | apply Forall_cons; split; [by left|]
                     | by apply Forall_call_or_handler | apply Forall_nil ]. }
  rewrite bind_run.
  destruct (pc_call_run (pc_setLocalDescription pc answer) w3 (tail (tail (tail s))))
    as (es3 & -> & Ht4 & F3).
  rewrite !nth_tail in *.
  set (w4 := run_events _ (emit (pc_setLocalDescription pc answer) w3)) in *. clearbody w4.
  destruct (settles (nth 3 s quiet)) as [v3|error] eqn:H3.
  2:{ cbn. split; [done|]. split; [by rewrite !Hdrop|].
      exists ([new_RTCPeerConnection pc] ++ es0 ++ pc_setRemoteDescription pc offer :: es1
              ++ pc_createAnswer pc :: es2 ++ pc_setLocalDescription pc answer :: es3).
      split; [|split].
      - cbn [trace emit]. rewrite Ht4, Ht3, Ht2, Ht1, Ht0. by repeat (rewrite <- app_assoc; cbn [app]).
      - negotiation_calls_of_run.
      - repeat first [ apply Forall_app; split | apply Forall_cons; split; [by left|]
                     | by apply Forall_call_or_handler | apply Forall_nil ]. }
  unfold perform, sendSignalingMessage. cbn.
  split; [done|]. split; [by rewrite !Hdrop|].
  exists ([new_RTCPeerConnection pc] ++ es0 ++ pc_setRemoteDescription pc offer :: es1
          ++ pc_createAnswer pc :: es2 ++ pc_setLocalDescription pc answer :: es3).
  split; [|split].
  - destruct (signalingSocket (this w4) && isConnected (this w4)) eqn:Hup; cbn;
      rewrite ?Hup, Ht4, Ht3, Ht2, Ht1, Ht0;
      repeat (rewrite <- app_assoc; cbn [app]); by rewrite ?app_nil_r.
  - negotiation_calls_of_run.
  - repeat first [ apply Forall_app; split | apply Forall_cons; split; [by left|]
                 | by apply Forall_call_or_handler | apply Forall_nil ].
Qed.
